(** * remco: the resource monitor of [pkg/template/resource.go]

    A shallow embedding of [Resource] (construction, [setVars], [process],
    [createStageFileAndSync], [Monitor]) and the properties of its
    specification.

    Conventions.
    - A [*memkv.Store] is a location in a heap of stores; a [Backend] is a
      struct value that carries such a pointer, so copies of a [Backend]
      share their store.
    - Collaborators that are reached through interfaces ([GetValues],
      [Close], the renderer, the executor, the random source) are
      operations on an abstract world [W]; every call is recorded in a
      trace.
    - A step that dereferences a nil store panics: the computation yields
      [None]. *)

From Stdlib Require Import ZArith Ascii.
From stdpp Require Import base strings list gmap sorting pretty.

Local Open Scope string_scope.
Local Open Scope list_scope.
Local Set Warnings "-clear-no-such-hyp".

(** ** Errors *)

(** Modelled from the spec: [berr.BackendError] of package
    [pkg/backends/error], the struct [BackendError{Backend, Message}]. *)
Module berr.
Record BackendError := { Message : string; Backend : string }.
End berr.

(** Go [error] values as the code builds them: a plain message
    ([fmt.Errorf], or whatever a collaborator returns), [errors.Wrap], and
    a [berr.BackendError] used as an error. *)
Inductive error :=
| errorString (s : string)
| withMessage (cause : error) (msg : string)
| backendError (e : berr.BackendError).

(** [err.Error()]: [errors.Wrap(err, msg)] prints as [msg: err]. *)
Fixpoint Error (e : error) : string :=
  match e with
  | errorString s => s
  | withMessage cause msg => msg +:+ ": " +:+ Error cause
  | backendError e => berr.Message e
  end.

(** [errors.Cause]: the innermost error under the wrappers. *)
Fixpoint Cause (e : error) : error :=
  match e with
  | withMessage cause _ => Cause cause
  | _ => e
  end.

(** [ErrEmptySrc = fmt.Errorf("empty src template")]. *)
Definition ErrEmptySrc : error := errorString "empty src template".

(** ** Paths and prefixes *)

(** [strings.TrimPrefix(s, prefix)]. *)
Fixpoint stripPrefix (s prefix : string) : option string :=
  match prefix, s with
  | EmptyString, _ => Some s
  | String a p, String b s' => if Ascii.eqb a b then stripPrefix s' p else None
  | String _ _, EmptyString => None
  end.

Definition TrimPrefix (s prefix : string) : string :=
  default s (stripPrefix s prefix).

(** The elements of a path between its slashes. *)
Fixpoint splitSlash (cur s : string) : list string :=
  match s with
  | EmptyString => [String.rev cur]
  | String c s' =>
      if Ascii.eqb c "/"%char then String.rev cur :: splitSlash EmptyString s'
      else splitSlash (String c cur) s'
  end.

(** [path.Clean] on the elements of a rooted path: empty elements and [.]
    vanish, [..] removes the element before it, and is dropped at the
    root. [acc] is the cleaned path so far, innermost element first. *)
Fixpoint cleanRooted (acc elems : list string) : list string :=
  match elems with
  | [] => rev acc
  | e :: elems =>
      if decide (e = EmptyString ∨ e = ".") then cleanRooted acc elems
      else if decide (e = "..") then cleanRooted (tail acc) elems
      else cleanRooted (e :: acc) elems
  end.

(** [path.Join("/", s)]: the rooted, cleaned path of [s]. *)
Definition pathJoinRoot (s : string) : string :=
  "/" +:+ String.concat "/" (cleanRooted [] (splitSlash EmptyString s)).

(** ** memkv *)

(** Modelled from the spec: the key-value store of package [memkv]
    ([Set], [Exists], [GetAllKVs] ordered by key, [Purge]), a map from
    path-style keys to string values. *)
Module memkv.
Record KVPair := { Key : string; Value : string }.

Abbreviation Store := (gmap string string).

Definition New : Store := ∅.
Definition Set_ (k v : string) (m : Store) : Store := <[k := v]> m.
Definition Exists (k : string) (m : Store) : bool := bool_decide (is_Some (m !! k)).
Definition Purge (m : Store) : Store := ∅.

Definition lessKey (a b : KVPair) : Prop := String.le (Key a) (Key b).
Global Instance lessKey_dec a b : Decision (lessKey a b).
Proof. unfold lessKey. apply _. Defined.

Definition toKV (kv : string * string) : KVPair :=
  {| Key := kv.1; Value := kv.2 |}.

(** [GetAllKVs]: the pairs of the store, sorted by key. *)
Definition GetAllKVs (m : Store) : list KVPair :=
  merge_sort lessKey (toKV <$> map_to_list m).
End memkv.

(** ** Data model *)

(** A [*memkv.Store]. *)
Abbreviation loc := nat.
(** The connection a backend embeds (its [ReadWatcher]). *)
Abbreviation Conn := nat.
(** An element of [BackendConnectors]: the configuration of one backend. *)
Abbreviation BackendConnector := nat.
(** An [os.Signal]. *)
Abbreviation Signal := nat.

(** [Backend]: a struct value. Its embedded connection is the handle
    [client]; its [store] is a pointer, nil until [NewResource] sets it. *)
Record Backend := {
  client : Conn;
  Name : string;
  Onetime : bool;
  Watch : bool;
  Prefix : string;
  Interval : Z;
  Keys : list string;
  store : option loc
}.

(** [logrus.Fields]. *)
Abbreviation Fields := (gmap string string).

(** [Renderer], as far as the resource looks into it; [rlogger] is its
    [logger] field. *)
Record Renderer := {
  Src : string;
  Dst : string;
  ReapLock : option nat;
  rlogger : option Fields
}.

(** [Resource]. [rstore] is its field [store], the merged store; the
    function map is a set of closures over that store and shows as the
    store the renderers read; [exec] is the [Executor] of the world;
    [SignalChan], like the channels [Monitor] makes, shows in the moves of
    [Monitor]. *)
Record Resource := {
  backends : list Backend;
  rstore : option loc;
  sources : list Renderer;
  logger : Fields;
  Failed : bool
}.

(** [ResourceConfig]; its [Exec] part only parameterises the executor,
    which is the [Executor] instance of the world. *)
Module ResourceConfig.
Record t := {
  Template : list Renderer;
  Name : string;
  Connectors : list BackendConnector
}.
End ResourceConfig.

Inductive Level := DebugLevel | WarningLevel | ErrorLevel.

(** One line written by a [logrus.Entry]. *)
Record Entry := { level : Level; fields : Fields; message : string }.

(** Calls that leave the resource. *)
Inductive Event :=
| EvConnectAll
| EvGetValues (c : Conn) (keys : list string)
| EvClose (c : Conn)
| EvCreateStageFile (src : string)
| EvSyncFiles (src : string)
| EvSpawnChild
| EvReloadCall
| EvReloadReturn
| EvStopChild
| EvSignalChild (s : Signal).

Global Instance Level_eq_dec : EqDecision Level.
Proof. solve_decision. Defined.
Global Instance Event_eq_dec : EqDecision Event.
Proof. solve_decision. Defined.
Global Instance Backend_eq_dec : EqDecision Backend.
Proof. solve_decision. Defined.

(** ** Collaborators *)

(** The [Backend] contract. The result of [GetValues] is a Go map; the
    list holds its entries in the order the [range] over it visits them. *)
Class StoreClient (W : Type) := {
  ConnectAll : list BackendConnector → W → (list Backend + error) * W;
  GetValues : Conn → list string → W → (list (string * string) + error) * W;
  Close : Conn → W → W
}.

(** [Renderer.createStageFile] reads the merged store through the function
    map; [Renderer.syncFiles] reports whether the destination changed. *)
Class RendererOps (W : Type) := {
  createStageFile : Renderer → memkv.Store → W → option error * W;
  syncFiles : Renderer → W → (bool * option error) * W
}.

Class Executor (W : Type) := {
  SpawnChild : W → option error * W;
  Reload : W → option error * W;
  StopChild : W → W;
  SignalChild : Signal → W → W
}.

(** [math/rand]. [Int63] is the next value of the source, a non-negative
    63-bit integer. The source does not stay above a bound for ever:
    [redraws max w] is the number of values it yields from the state [w]
    on that exceed [max], before the first one that does not. This is what
    lets the loop of [rand.Int63n] return; of a random source it holds
    with probability one. *)
Class Rand (W : Type) := {
  Int63 : W → Z * W;
  redraws : Z → W → nat;
  Int63_range : ∀ w, (0 ≤ (Int63 w).1 < 2 ^ 63)%Z;
  redraws_spec : ∀ max w, (0 ≤ max)%Z →
    redraws max w = if bool_decide ((Int63 w).1 ≤ max)%Z then 0%nat
                    else S (redraws max (Int63 w).2)
}.

(** [max := int64((1 << 63) - 1 - (1<<63)%uint64(n))]: the largest value
    [rand.Int63n(n)] accepts; it draws again above it. *)
Definition acceptedMax (n : Z) : Z := (2 ^ 63 - 1 - (2 ^ 63) `mod` n)%Z.

(** [v := r.Int63(); for v > max { v = r.Int63() }; return v % n], entered
    with the number [k] of values it is going to reject ([redraws]), which
    bounds the loop: the last branch is never taken. *)
Fixpoint Int63n_loop `{Rand W} (k : nat) (n max : Z) (w : W) : Z * W :=
  let '(v, w') := Int63 w in
  if bool_decide (v ≤ max)%Z then ((v `mod` n)%Z, w')
  else match k with
       | S k => Int63n_loop k n max w'
       | O => ((v `mod` n)%Z, w')
       end.

(** [rand.Int63n(n)] for [0 < n] (it panics otherwise; [Monitor] calls it
    with 30): a power of two masks one value of the source, any other [n]
    takes the first value that is not above [acceptedMax n], modulo [n]. *)
Definition Int63n `{Rand W} (n : Z) (w : W) : Z * W :=
  if (Z.land n (n - 1) =? 0)%Z
  then let '(v, w') := Int63 w in (Z.land v (n - 1), w')
  else Int63n_loop (redraws (acceptedMax n) w) n (acceptedMax n) w.

(** The [k]-th value the source yields from the state [w] on, counted from
    0, and the state after it. *)
Fixpoint nthDraw `{Rand W} (k : nat) (w : W) : Z * W :=
  match k with
  | O => Int63 w
  | S k => nthDraw k (Int63 w).2
  end.

(** ** State and the monad of the resource's methods *)

Section Methods.
Context {W : Type} `{!StoreClient W, !RendererOps W, !Executor W, !Rand W}.

Record State := {
  heap : gmap loc memkv.Store;
  log : list Entry;
  trace : list Event;
  world : W
}.

(** A method either panics ([None]) or returns a value and a new state. *)
Definition M (A : Type) : Type := State → option (A * State).

Global Instance M_ret : MRet M := λ A a s, Some (a, s).
Global Instance M_bind : MBind M := λ A B f m s,
  match m s with
  | Some (a, s') => f a s'
  | None => None
  end.

(** [for _, x := range l { f x }]. *)
Fixpoint forEach {A} (f : A → M unit) (l : list A) : M unit :=
  match l with
  | [] => mret tt
  | x :: l => f x;; forEach f l
  end.

Definition setHeap (h : gmap loc memkv.Store) (s : State) : State :=
  {| heap := h; log := log s; trace := trace s; world := world s |}.
Definition addLog (e : Entry) (s : State) : State :=
  {| heap := heap s; log := log s ++ [e]; trace := trace s; world := world s |}.
Definition addTrace (e : Event) (s : State) : State :=
  {| heap := heap s; log := log s; trace := trace s ++ [e]; world := world s |}.
Definition setWorld (w : W) (s : State) : State :=
  {| heap := heap s; log := log s; trace := trace s; world := w |}.

(** [logger.WithFields(extra).<Level>(msg)]. *)
Definition logAt (lvl : Level) (fs : Fields) (msg : string) : M unit :=
  λ s, Some (tt, addLog {| level := lvl; fields := fs; message := msg |} s).

(** A call to a collaborator: recorded, then run on the world. *)
Definition call {A} (e : Event) (f : W → A * W) : M A :=
  λ s, let '(a, w) := f (world s) in Some (a, setWorld w (addTrace e s)).

(** An entry of the trace. *)
Definition record (e : Event) : M unit :=
  λ s, Some (tt, addTrace e s).

(** [rand.Int63n(n)] on the world of the state. *)
Definition draw (n : Z) : M Z :=
  λ s, let '(rn, w) := Int63n n (world s) in Some (rn, setWorld w s).

(** Dereference of a [*memkv.Store]. *)
Definition deref (p : option loc) : M memkv.Store :=
  λ s, match p with
       | Some l => match heap s !! l with Some m => Some (m, s) | None => None end
       | None => None
       end.

(** A method of [*memkv.Store] that updates the store in place. *)
Definition update (p : option loc) (f : memkv.Store → memkv.Store) : M unit :=
  λ s, match p with
       | Some l => match heap s !! l with
                   | Some m => Some (tt, setHeap (<[l := f m]> (heap s)) s)
                   | None => None
                   end
       | None => None
       end.

(** [memkv.New()]: a store no pointer refers to yet. *)
Definition new : M (option loc) :=
  λ s, let l := fresh (dom (heap s)) in
       Some (Some l, setHeap (<[l := memkv.New]> (heap s)) s).

(** Modelled from the spec: [appendPrefix] of the package's utilities,
    which puts the backend's prefix before each of its keys
    ([GetValues(b.Prefix ++ b.Keys)]). *)
Definition appendPrefix (prefix : string) (keys : list string) : list string :=
  (λ k, prefix +:+ k) <$> keys.

(** ** [setVars] *)

(** [for _, kv := range v.store.GetAllKVs()] of the merge, lines 182-187. *)
Definition mergeKV (t : Resource) (kv : memkv.KVPair) : M unit :=
  m ← deref (rstore t);
  (if memkv.Exists (memkv.Key kv) m
   then logAt WarningLevel (logger t) ("key collision - " +:+ memkv.Key kv)
   else mret tt);;
  update (rstore t) (memkv.Set_ (memkv.Key kv) (memkv.Value kv)).

(** Lines 180-188: purge the merged store and refill it from every
    backend's store, in the order of [t.backends]. *)
Definition mergeStores (t : Resource) : M unit :=
  update (rstore t) memkv.Purge;;
  forEach (λ v : Backend,
    m ← deref (store v);
    forEach (mergeKV t) (memkv.GetAllKVs m)) (backends t).

(** [setVars] reads all pairs of the backend and writes them to the store
    of the backend; after that the store of the resource is purged and
    filled again with the pairs of all the backends' stores. Key
    collisions are logged. *)
Definition setVars (t : Resource) (storeClient : Backend) : M (option error) :=
  logAt DebugLevel
    (<["key_prefix" := Prefix storeClient]> (<["backend" := Name storeClient]> (logger t)))
    "retrieving keys";;
  r ← call (EvGetValues (client storeClient) (appendPrefix (Prefix storeClient) (Keys storeClient)))
                 (GetValues (client storeClient) (appendPrefix (Prefix storeClient) (Keys storeClient)));
  match r with
  | inr err => mret (Some (withMessage err "getValues failed"))
  | inl result =>
      update (store storeClient) memkv.Purge;;
      forEach (λ '(key, value),
        update (store storeClient)
          (memkv.Set_ (pathJoinRoot (TrimPrefix key (Prefix storeClient))) value)) result;;
      mergeStores t;;
      mret None
  end.

(** ** [createStageFileAndSync] and [process] *)

(** The loop of lines 195-205; the template of a renderer is executed on
    the merged store as it is when the renderer is staged. *)
Fixpoint stageAndSync (t : Resource) (changed : bool) (ss : list Renderer)
  : M (bool * option error) :=
  match ss with
  | [] => mret (changed, None)
  | s :: ss =>
      m ← deref (rstore t);
      err ← call (EvCreateStageFile (Src s)) (createStageFile s m);
      match err with
      | Some err => mret (changed, Some (withMessage err "create stage file failed"))
      | None =>
          '(c, err) ← call (EvSyncFiles (Src s)) (syncFiles s);
          let changed := changed || c in
          match err with
          | Some err => mret (changed, Some (withMessage err "sync files failed"))
          | None => stageAndSync t changed ss
          end
      end
  end.

Definition createStageFileAndSync (t : Resource) : M (bool * option error) :=
  stageAndSync t false (sources t).

(** The loop of lines 217-224: [Some] is the early return. *)
Fixpoint setVarsAll (t : Resource) (storeClients : list Backend) : M (option error) :=
  match storeClients with
  | [] => mret None
  | storeClient :: rest =>
      err ← setVars t storeClient;
      match err with
      | Some err =>
          mret (Some (backendError
                 {| berr.Message := Error (withMessage err "setVars failed");
                    berr.Backend := Name storeClient |}))
      | None => setVarsAll t rest
      end
  end.

(** [process]: gather the values of the given backends, then stage and
    sync every renderer. *)
Definition process (t : Resource) (storeClients : list Backend) : M (bool * option error) :=
  r ← setVarsAll t storeClients;
  match r with
  | Some err => mret (false, Some err)
  | None =>
      '(changed, err) ← createStageFileAndSync t;
      match err with
      | Some err => mret (changed, Some (withMessage err "createStageFileAndSync failed"))
      | None => mret (changed, None)
      end
  end.

(** ** Construction *)

Definition withStore (st : option loc) (b : Backend) : Backend :=
  {| client := client b; Name := Name b; Onetime := Onetime b; Watch := Watch b;
     Prefix := Prefix b; Interval := Interval b; Keys := Keys b; store := st |}.
Definition withInterval (i : Z) (b : Backend) : Backend :=
  {| client := client b; Name := Name b; Onetime := Onetime b; Watch := Watch b;
     Prefix := Prefix b; Interval := i; Keys := Keys b; store := store b |}.
Definition withLogger (l : Fields) (r : Renderer) : Renderer :=
  {| Src := Src r; Dst := Dst r; ReapLock := ReapLock r; rlogger := Some l |}.
Definition withReapLock (k : option nat) (r : Renderer) : Renderer :=
  {| Src := Src r; Dst := Dst r; ReapLock := k; rlogger := rlogger r |}.

(** Lines 111-116: [None] is the return of [ErrEmptySrc]. *)
Fixpoint checkSources (logger : Fields) (sources : list Renderer) : option (list Renderer) :=
  match sources with
  | [] => Some []
  | v :: sources =>
      if decide (Src v = EmptyString) then None
      else (withLogger logger v ::.) <$> checkSources logger sources
  end.

(** The interval of a backend that neither watches nor runs once has to be
    positive (line 133). *)
Definition needsInterval (b : Backend) : bool :=
  bool_decide (Interval b ≤ 0)%Z && negb (Onetime b) && negb (Watch b).

(** Lines 129-137. *)
Fixpoint initBackends (logger : Fields) (bs : list Backend) : M (list Backend) :=
  match bs with
  | [] => mret []
  | b :: bs =>
      st ← new;
      let b := withStore st b in
      b ← (if needsInterval b
           then logAt WarningLevel logger "interval needs to be > 0: setting interval to 60";;
                mret (withInterval 60 b)
           else mret b);
      bs ← initBackends logger bs;
      mret (b :: bs)
  end.

(** [NewResource]. The renderers and the backends are returned in the
    resource with what the function wrote into them. *)
Definition NewResource (backends : list Backend) (sources : list Renderer) (name : string)
  : M (option Resource * option error) :=
  if decide (length backends = 0%nat)
  then mret (None, Some (errorString "a valid StoreClient is required"))
  else
    let logger : Fields := {[ "resource" := name ]} in
    match checkSources logger sources with
    | None => mret (None, Some ErrEmptySrc)
    | Some sources =>
        st ← new;
        bs ← initBackends logger backends;
        mret (Some {| backends := bs; rstore := st; sources := sources;
                      logger := logger; Failed := false |}, None)
    end.

(** [NewResourceFromResourceConfig]; [NewExecutor] only builds the
    executor from [r.Exec]. *)
Definition NewResourceFromResourceConfig (reapLock : nat) (r : ResourceConfig.t)
  : M (option Resource * option error) :=
  c ← call EvConnectAll (ConnectAll (ResourceConfig.Connectors r));
  match c with
  | inr err => mret (None, Some (withMessage err "connectAll failed"))
  | inl backendList =>
      let template := withReapLock (Some reapLock) <$> ResourceConfig.Template r in
      '(res, err) ← NewResource backendList template (ResourceConfig.Name r);
      match err with
      | Some _ => forEach (λ v : Backend, call (EvClose (client v)) (λ w, (tt, Close (client v) w))) backendList
      | None => mret tt
      end;;
      mret (res, err)
  end.

(** [Resource.Close]. *)
Definition Resource_Close (t : Resource) : M unit :=
  forEach (λ v : Backend,
    logAt DebugLevel (<["backend" := Name v]> (logger t)) "closing client connection";;
    call (EvClose (client v)) (λ w, (tt, Close (client v) w))) (backends t).

End Methods.

Arguments State : clear implicits.
Arguments M : clear implicits.

(** ** [Monitor]

    The goroutine that runs [Monitor] blocks only in its two [select]
    statements and in [wg.Wait()]; between two of these points it runs
    alone. A [Config] holds where it stands, the channels and goroutines
    it shares state with, and the state of the resource. A [Step] is one
    move of one goroutine, or of the caller; [step] is partial: [None]
    where the move is not possible in the configuration (the channel is
    not ready), or the program panics. *)

Section Monitor.
Context {W : Type} `{!StoreClient W, !RendererOps W, !Executor W, !Rand W}.

Inductive MainPC :=
| AtRetrySelect  (* the select of [retryloop], line 252 *)
| AtMainSelect   (* the select of the main loop, line 332 *)
| AtWait         (* [wg.Wait()], line 356 *)
| Returned.

(** The goroutine of lines 266-276. *)
Inductive RetryG :=
| RetryStarted            (* started, before [rand.Int63n(30)] *)
| RetrySleeping (rn : Z)  (* in [time.Sleep] of [rn] seconds *)
| RetrySending.           (* its select took [default]: about to send on [retryChan] *)

Record Config := {
  res : Resource;
  state : State W;
  pc : MainPC;
  ctxDone : bool;         (* the derived context is cancelled *)
  retryChan : nat;        (* values buffered in [retryChan], of capacity 1 *)
  retries : list RetryG;  (* the retry goroutines that have not returned *)
  stopDeferred : bool;    (* [defer t.exec.StopChild()], line 289 *)
  waiting : bool;         (* the goroutine of lines 294-304 is in [exec.Wait] *)
  workers : nat           (* watch and interval goroutines that have not returned *)
}.

Inductive SelectCase :=
| CaseCtxDone                          (* [<-ctx.Done()] *)
| CaseRetry                            (* [<-retryChan] *)
| CaseProcess (storeClient : Backend)  (* [storeClient := <-processChan] *)
| CaseSignal (s : Signal)              (* [s := <-t.SignalChan] *)
| CaseErr (err : berr.BackendError)    (* [err := <-errChan] *)
| CaseDone.                            (* [<-done] *)

Inductive Step :=
| Cancel                  (* the caller cancels the context it gave to [Monitor] *)
| Main (c : SelectCase)   (* [Monitor] leaves its select through case [c] *)
| WaitReturns             (* [wg.Wait()] of line 356 returns *)
| Retry (i : nat)         (* the [i]-th retry goroutine moves on *)
| ChildWait (failed : bool)  (* [exec.Wait(ctx)] returns [failed] *)
| WorkerReturns.          (* a watch or interval goroutine returns *)

Definition withFailed (f : bool) (t : Resource) : Resource :=
  {| backends := backends t; rstore := rstore t; sources := sources t;
     logger := logger t; Failed := f |}.

Definition withState (s : State W) (c : Config) : Config :=
  {| res := res c; state := s; pc := pc c; ctxDone := ctxDone c;
     retryChan := retryChan c; retries := retries c; stopDeferred := stopDeferred c;
     waiting := waiting c; workers := workers c |}.
Definition withPc (p : MainPC) (c : Config) : Config :=
  {| res := res c; state := state c; pc := p; ctxDone := ctxDone c;
     retryChan := retryChan c; retries := retries c; stopDeferred := stopDeferred c;
     waiting := waiting c; workers := workers c |}.
(** [cancel()]. *)
Definition cancel (c : Config) : Config :=
  {| res := res c; state := state c; pc := pc c; ctxDone := true;
     retryChan := retryChan c; retries := retries c; stopDeferred := stopDeferred c;
     waiting := waiting c; workers := workers c |}.
Definition withRetryChan (n : nat) (c : Config) : Config :=
  {| res := res c; state := state c; pc := pc c; ctxDone := ctxDone c;
     retryChan := n; retries := retries c; stopDeferred := stopDeferred c;
     waiting := waiting c; workers := workers c |}.
Definition withRetries (gs : list RetryG) (c : Config) : Config :=
  {| res := res c; state := state c; pc := pc c; ctxDone := ctxDone c;
     retryChan := retryChan c; retries := gs; stopDeferred := stopDeferred c;
     waiting := waiting c; workers := workers c |}.
Definition setFailed (c : Config) : Config :=
  {| res := withFailed true (res c); state := state c; pc := pc c; ctxDone := ctxDone c;
     retryChan := retryChan c; retries := retries c; stopDeferred := stopDeferred c;
     waiting := waiting c; workers := workers c |}.
Definition deferStop (c : Config) : Config :=
  {| res := res c; state := state c; pc := pc c; ctxDone := ctxDone c;
     retryChan := retryChan c; retries := retries c; stopDeferred := true;
     waiting := waiting c; workers := workers c |}.
Definition withWaiting (b : bool) (c : Config) : Config :=
  {| res := res c; state := state c; pc := pc c; ctxDone := ctxDone c;
     retryChan := retryChan c; retries := retries c; stopDeferred := stopDeferred c;
     waiting := b; workers := workers c |}.
Definition withWorkers (n : nat) (c : Config) : Config :=
  {| res := res c; state := state c; pc := pc c; ctxDone := ctxDone c;
     retryChan := retryChan c; retries := retries c; stopDeferred := stopDeferred c;
     waiting := waiting c; workers := n |}.

(** Run a method of the resource in a configuration. *)
Definition run {A} (m : M W A) (c : Config) : option (A * Config) :=
  match m (state c) with
  | Some (a, s) => Some (a, withState s c)
  | None => None
  end.

(** Lines 235-249: [Monitor] up to its first select. *)
Definition Monitor_enter (t : Resource) (s : State W) : Config :=
  {| res := withFailed false t; state := s; pc := AtRetrySelect; ctxDone := false;
     retryChan := 1; retries := []; stopDeferred := false; waiting := false;
     workers := 0 |}.

(** The deferred calls, last registered first: [StopChild] (if deferred),
    [close(processChan)], [cancel()]. *)
Definition Monitor_return (c : Config) : option Config :=
  if stopDeferred c
  then match run (call EvStopChild (λ w, (tt, StopChild w))) c with
       | Some (_, c) => Some (withPc Returned (cancel c))
       | None => None
       end
  else Some (withPc Returned (cancel c)).

(** Lines 257-265. *)
Definition logRetryError (t : Resource) (err : error) : M W unit :=
  match err with
  | backendError e => logAt ErrorLevel (<["backend" := berr.Backend e]> (logger t)) (Error err)
  | _ => logAt ErrorLevel (logger t) (Error err)
  end.

(** Lines 307-323: the goroutines started for one backend. *)
Definition workersOf (sc : Backend) : nat :=
  ((if Watch sc then 1 else 0) + (if bool_decide (0 < Interval sc)%Z then 1 else 0))%nat.

(** Lines 283-329, from the end of the retry loop to the main select. *)
Definition Monitor_start (c : Config) : option Config :=
  match run (call EvSpawnChild SpawnChild) c with
  | None => None
  | Some (err, c) =>
      let c :=
        match err with
        | Some err =>
            match run (logAt ErrorLevel (logger (res c)) (Error err)) c with
            | Some (_, c) => Some (cancel (setFailed c))
            | None => None
            end
        | None => Some (deferStop c)
        end in
      match c with
      | None => None
      | Some c =>
          Some (withPc AtMainSelect
                  (withWorkers (sum_list (workersOf <$> backends (res c)))
                     (withWaiting true c)))
      end
  end.

(** Lines 255-279: the case [<-retryChan] of the retry loop. *)
Definition Monitor_retry (c : Config) : option Config :=
  match run (process (res c) (backends (res c))) c with
  | None => None
  | Some ((_, Some err), c) =>
      match run (logRetryError (res c) err) c with
      | Some (_, c) => Some (withRetries (retries c ++ [RetryStarted]) c)
      | None => None
      end
  | Some ((_, None), c) => Monitor_start c
  end.

(** [exec.Reload()], with its call and its return in the trace. *)
Definition callReload : M W (option error) :=
  err ← call EvReloadCall Reload;
  record EvReloadReturn;;
  mret err.

(** Lines 333-346: the case [storeClient := <-processChan]. *)
Definition Monitor_process (t : Resource) (storeClient : Backend) : M W unit :=
  '(changed, err) ← process t [storeClient];
  match err with
  | Some err =>
      match err with
      | backendError _ =>
          logAt ErrorLevel (<["backend" := Name storeClient]> (logger t)) (Error err)
      | _ => logAt ErrorLevel (logger t) (Error err)
      end
  | None =>
      if (changed : bool)
      then err ← callReload;
           match err with
           | Some err => logAt ErrorLevel (logger t) (Error err)
           | None => mret tt
           end
      else mret tt
  end.

(** Modelled from the spec: [Backend.watch] and [Backend.interval], the
    goroutines that send on [processChan]. Each sends the backend it runs
    for, a copy of an element of [t.backends]; so a value can be received
    while one of them has not returned, and it is one of the backends of
    the resource. *)
Definition canReceive (storeClient : Backend) (c : Config) : bool :=
  bool_decide (0 < workers c)%nat && bool_decide (storeClient ∈ backends (res c)).

(** One turn of the select [Monitor] is blocked in. *)
Definition stepMain (sel : SelectCase) (c : Config) : option Config :=
  match pc c, sel with
  | AtRetrySelect, CaseCtxDone =>
      if ctxDone c then Monitor_return c else None
  | AtRetrySelect, CaseRetry =>
      match retryChan c with
      | S n => Monitor_retry (withRetryChan n c)
      | O => None
      end
  | AtMainSelect, CaseProcess storeClient =>
      if canReceive storeClient c
      then snd <$> run (Monitor_process (res c) storeClient) c
      else None
  | AtMainSelect, CaseSignal s =>
      snd <$> run (call (EvSignalChild s) (λ w, (tt, SignalChild s w))) c
  | AtMainSelect, CaseErr err =>
      snd <$> run (logAt ErrorLevel (<["backend" := berr.Backend err]> (logger (res c)))
                     (berr.Message err)) c
  | AtMainSelect, CaseCtxDone =>
      if ctxDone c then Some (withPc AtWait c) else None
  | AtMainSelect, CaseDone =>
      if negb (waiting c) && bool_decide (workers c = 0%nat) then Monitor_return c else None
  | _, _ => None
  end.

(** One move of the goroutine of lines 266-276: the draw and the log line;
    the end of the sleep and the select on [ctx.Done()]; the send. *)
Definition stepRetry (i : nat) (c : Config) : option Config :=
  match retries c !! i with
  | Some RetryStarted =>
      match run (rn ← draw 30;
                 logAt ErrorLevel (logger (res c))
                   ("not all templates could be rendered, trying again after "
                      +:+ pretty rn +:+ " seconds");;
                 mret rn) c with
      | Some (rn, c) => Some (withRetries (<[i := RetrySleeping rn]> (retries c)) c)
      | None => None
      end
  | Some (RetrySleeping _) =>
      if ctxDone c
      then Some (withRetries (delete i (retries c)) c)
      else Some (withRetries (<[i := RetrySending]> (retries c)) c)
  | Some RetrySending =>
      match retryChan c with
      | O => Some (withRetryChan 1 (withRetries (delete i (retries c)) c))
      | S _ => None
      end
  | None => None
  end.

Definition step (x : Step) (c : Config) : option Config :=
  match x with
  | Cancel => Some (cancel c)
  | Main sel => stepMain sel c
  | WaitReturns =>
      match pc c with
      | AtWait =>
          if negb (waiting c) && bool_decide (workers c = 0%nat) then Monitor_return c else None
      | _ => None
      end
  | Retry i => stepRetry i c
  | ChildWait failed =>
      if waiting c
      then Some (withWaiting false (if failed then cancel (setFailed c) else c))
      else None
  | WorkerReturns =>
      match workers c with
      | S n => Some (withWorkers n c)
      | O => None
      end
  end.

(** A schedule: the moves in the order they happen. *)
Fixpoint steps (xs : list Step) (c : Config) : option Config :=
  match xs with
  | [] => Some c
  | x :: xs =>
      match step x c with
      | Some c => steps xs c
      | None => None
      end
  end.

End Monitor.

(** ** Vocabulary of the properties *)

(** What the merge loop of [setVars] computes, as functions of the stores'
    contents: the pairs of one backend are set one after the other, and a
    warning is logged for each key the merged store already holds. *)
Definition mergeKVs (acc : memkv.Store) (kvs : list memkv.KVPair) : memkv.Store :=
  foldl (λ a kv, memkv.Set_ (memkv.Key kv) (memkv.Value kv) a) acc kvs.

Definition collisionWarning (fs : Fields) (k : string) : Entry :=
  {| level := WarningLevel; fields := fs; message := "key collision - " +:+ k |}.

Fixpoint collisions (fs : Fields) (acc : memkv.Store) (kvs : list memkv.KVPair) : list Entry :=
  match kvs with
  | [] => []
  | kv :: kvs =>
      (if memkv.Exists (memkv.Key kv) acc then [collisionWarning fs (memkv.Key kv)] else [])
      ++ collisions fs (memkv.Set_ (memkv.Key kv) (memkv.Value kv) acc) kvs
  end.

Fixpoint mergeAll (acc : memkv.Store) (ms : list memkv.Store) : memkv.Store :=
  match ms with
  | [] => acc
  | m :: ms => mergeAll (mergeKVs acc (memkv.GetAllKVs m)) ms
  end.

Fixpoint mergeWarnings (fs : Fields) (acc : memkv.Store) (ms : list memkv.Store) : list Entry :=
  match ms with
  | [] => []
  | m :: ms =>
      collisions fs acc (memkv.GetAllKVs m)
      ++ mergeWarnings fs (mergeKVs acc (memkv.GetAllKVs m)) ms
  end.

(** What the loop of line 175 makes of a store [m]. *)
Definition fillFrom (prefix : string) (m : memkv.Store) (result : list (string * string))
  : memkv.Store :=
  foldl (λ m '(key, value), memkv.Set_ (pathJoinRoot (TrimPrefix key prefix)) value m) m result.

(** What it leaves in the backend's store, which was purged before. *)
Definition fill (prefix : string) (result : list (string * string)) : memkv.Store :=
  fillFrom prefix ∅ result.

(** The contents of the store a pointer refers to. *)
Definition contents (h : gmap loc memkv.Store) (p : option loc) : option memkv.Store :=
  l ← p; h !! l.

(** The contents of the stores of a list of backends, in order. *)
Definition storesOf (h : gmap loc memkv.Store) (bs : list Backend) : list memkv.Store :=
  omap (λ b, contents h (store b)) bs.

(** A constructed resource: it has a backend, every store it refers to is
    allocated, no backend shares its store with another or with the
    resource. *)
Record wf {W} (t : Resource) (s : State W) : Prop := {
  wf_nonempty : backends t ≠ [];
  wf_rstore : is_Some (contents (heap s) (rstore t));
  wf_stores : Forall (λ b, is_Some (contents (heap s) (store b)) ∧ store b ≠ rstore t) (backends t);
  wf_nodup : NoDup (store <$> backends t)
}.

(** The events of a trace that are calls of [GetValues]. *)
Definition isGetValues (e : Event) : bool :=
  match e with EvGetValues _ _ => true | _ => false end.
(** The events of a trace that stage or sync a renderer. *)
Definition isRender (e : Event) : bool :=
  match e with EvCreateStageFile _ | EvSyncFiles _ => true | _ => false end.

(** The contents of the store of the [i]-th backend of the resource. *)
Definition storeAt (h : gmap loc memkv.Store) (t : Resource) (i : nat)
  : option memkv.Store :=
  b ← backends t !! i; contents h (store b).

(** A backend whose store [setVars] can use: it is allocated, and it is not
    the merged store. *)
Definition usable {W} (t : Resource) (s : State W) (b : Backend) : Prop :=
  is_Some (contents (heap s) (store b)) ∧ store b ≠ rstore t.

(** The line [setVars] logs before it fetches. *)
Definition retrieving (t : Resource) (b : Backend) : Entry :=
  {| level := DebugLevel;
     fields := <["key_prefix" := Prefix b]> (<["backend" := Name b]> (logger t));
     message := "retrieving keys" |}.

(** The call of [GetValues] that [setVars] makes for a backend. *)
Definition fetch (b : Backend) : Event :=
  EvGetValues (client b) (appendPrefix (Prefix b) (Keys b)).

(** After the last successful [setVars] the merged store is the merge of
    the stores as they are, and the warnings of that merge end the log. *)
Definition merged {W} (t : Resource) (s s' : State W) : Prop :=
  contents (heap s') (rstore t) = Some (mergeAll ∅ (storesOf (heap s') (backends t)))
  ∧ ∃ pre, log s' = log s ++ pre ++ mergeWarnings (logger t) ∅ (storesOf (heap s') (backends t)).

(** The warning of line 134. *)
Definition intervalWarning (name : string) : Entry :=
  {| level := WarningLevel; fields := {[ "resource" := name ]};
     message := "interval needs to be > 0: setting interval to 60" |}.

(** The backend the construction keeps for [b], its store apart. *)
Definition upgraded (b : Backend) : Backend :=
  if needsInterval b then withInterval 60 b else b.

(** An error logged with the fields of the resource. *)
Definition errorEntry (t : Resource) (err : error) : Entry :=
  {| level := ErrorLevel; fields := logger t; message := Error err |}.

Definition isReload (e : Event) : bool :=
  match e with EvReloadCall | EvReloadReturn => true | _ => false end.
Definition isStopChild (e : Event) : bool :=
  match e with EvStopChild => true | _ => false end.
(** The calls [process] makes: fetches and renderings. *)
Definition isProcessEvent (e : Event) : bool := isGetValues e || isRender e.

(** A move of a retry goroutine. *)
Definition isRetryStep (y : Step) : Prop := ∃ i, y = Retry i.

(** What holds of every configuration [Monitor] reaches on a constructed
    resource [t0]: the resource stays constructed and keeps its backends;
    at most one retry is pending (a value on [retryChan] or a goroutine),
    and exactly one while the retry loop runs uncancelled; every sleep is
    shorter than 30 seconds; in the retry loop no child and no worker has
    been started. *)
Record Inv {W} (t0 : Resource) (c : @Config W) : Prop := {
  inv_wf : wf (res c) (state c);
  inv_backends : backends (res c) = backends t0;
  inv_le : (retryChan c + length (retries c) ≤ 1)%nat;
  inv_pending :
    pc c = AtRetrySelect → ctxDone c = false →
    (retryChan c + length (retries c) = 1)%nat;
  inv_delay : Forall (λ g, ∀ rn, g = RetrySleeping rn → (0 ≤ rn < 30)%Z) (retries c);
  inv_phaseA :
    pc c = AtRetrySelect →
    stopDeferred c = false ∧ waiting c = false ∧ workers c = 0%nat
}.

(** The retry loop after the context was cancelled while the retry
    goroutine had not finished its sleep: no value is or will be on
    [retryChan], and nothing touches the trace or the stores. *)
Record Cancelled {W} (tr : list Event) (h : gmap loc memkv.Store) (c : @Config W)
  : Prop := {
  ca_ctx : ctxDone c = true;
  ca_chan : retryChan c = 0%nat;
  ca_retries :
    retries c = [] ∨ retries c = [RetryStarted] ∨ ∃ rn, retries c = [RetrySleeping rn];
  ca_pc : pc c = AtRetrySelect ∨ pc c = Returned;
  ca_stop : stopDeferred c = false;
  ca_wait : waiting c = false;
  ca_workers : workers c = 0%nat;
  ca_trace : trace (state c) = tr;
  ca_heap : heap (state c) = h
}.



(** The line [Resource.Close] logs for a backend. *)
Definition closing (t : Resource) (v : Backend) : Entry :=
  {| level := DebugLevel; fields := <["backend" := Name v]> (logger t);
     message := "closing client connection" |}.

(** The calls [createStageFileAndSync] makes for a renderer. *)
Definition renderEvents (r : Renderer) : list Event :=
  [EvCreateStageFile (Src r); EvSyncFiles (Src r)].

(** The merged store holds the merge of the backends' stores as they
    are. *)
Definition consistent {W} (t : Resource) (s : State W) : Prop :=
  contents (heap s) (rstore t) = Some (mergeAll ∅ (storesOf (heap s) (backends t))).

(** The key [setVars] stores a fetched key under. *)
Definition storedKey (prefix key : string) : string :=
  pathJoinRoot (TrimPrefix key prefix).

Definition isSpawnChild (e : Event) : bool :=
  match e with EvSpawnChild => true | _ => false end.
(** The calls that reach the child process. *)
Definition isChildCall (e : Event) : bool :=
  match e with
  | EvReloadCall | EvReloadReturn | EvSignalChild _ | EvStopChild => true
  | _ => false
  end.

(** An element of a cleaned path: not empty, not [.] or [..], without a
    slash. *)
Fixpoint hasSlash (s : string) : bool :=
  match s with
  | EmptyString => false
  | String c s => Ascii.eqb c "/"%char || hasSlash s
  end.
Definition cleanElem (e : string) : Prop :=
  e ≠ EmptyString ∧ e ≠ "." ∧ e ≠ ".." ∧ hasSlash e = false.

Definition isReturned {W} (c : @Config W) : bool :=
  match pc c with Returned => true | _ => false end.

(** The life of the child process over a run of [Monitor] that started
    with the trace [tr0]: [SpawnChild] is called once, at the end of the
    retry loop, and it has been called exactly when [StopChild] is
    deferred or the resource has failed; [StopChild] is called at the
    return, if it was deferred; before [SpawnChild] no call reaches the
    child; a failed resource is cancelled; when [Monitor] has returned,
    the goroutines it waits for have returned. *)
Record Life {W} (tr0 : list Event) (c : @Config W) : Prop := {
  life_spawn :
    filter (λ e, isSpawnChild e = true) (trace (state c))
    = filter (λ e, isSpawnChild e = true) tr0
      ++ (if stopDeferred c || Failed (res c) then [EvSpawnChild] else []);
  life_stop :
    filter (λ e, isStopChild e = true) (trace (state c))
    = filter (λ e, isStopChild e = true) tr0
      ++ (if stopDeferred c && isReturned c then [EvStopChild] else []);
  life_before :
    stopDeferred c || Failed (res c) = false →
    filter (λ e, isChildCall e = true) (trace (state c))
    = filter (λ e, isChildCall e = true) tr0;
  life_retry :
    pc c = AtRetrySelect →
    stopDeferred c = false ∧ Failed (res c) = false ∧ waiting c = false ∧ workers c = 0%nat;
  life_started : pc c = AtMainSelect ∨ pc c = AtWait → stopDeferred c || Failed (res c) = true;
  life_waiting : waiting c = true → stopDeferred c || Failed (res c) = true;
  life_returned : pc c = Returned → waiting c = false ∧ workers c = 0%nat;
  life_failed : Failed (res c) = true → ctxDone c = true
}.

(** The line the retry loop logs for an error of [process], lines
    257-265. *)
Definition retryErrorEntry (t : Resource) (err : error) : Entry :=
  {| level := ErrorLevel;
     fields := match err with
               | backendError e => <["backend" := berr.Backend e]> (logger t)
               | _ => logger t
               end;
     message := Error err |}.

(** The line the retry goroutine logs before it sleeps [rn] seconds. *)
(** The line the retry goroutine logs before it sleeps, line 268. *)
Definition retryDelayEntry (t : Resource) (rn : Z) : Entry :=
  {| level := ErrorLevel; fields := logger t;
     message := "not all templates could be rendered, trying again after "
                +:+ pretty rn +:+ " seconds" |}.




(** ** A scripted world

    Every collaborator answers from a script: the next call takes the head
    of the list, and an exhausted script gives the benign answer. *)
Module Sim.
Record World := {
  connect : list Backend + error;
  fetches : list (list (string * string) + error);
  stages : list (option error);
  syncs : list (bool * option error);
  spawn : option error;
  reloads : list (option error);
  draws : list Z
}.

Global Instance storeClient : StoreClient World := {|
  ConnectAll := λ _ w, (connect w, w);
  GetValues := λ _ _ w,
    (default (inl []) (head (fetches w)),
     {| connect := connect w; fetches := tail (fetches w); stages := stages w;
        syncs := syncs w; spawn := spawn w; reloads := reloads w; draws := draws w |});
  Close := λ _ w, w
|}.

Global Instance rendererOps : RendererOps World := {|
  createStageFile := λ _ _ w,
    (default None (head (stages w)),
     {| connect := connect w; fetches := fetches w; stages := tail (stages w);
        syncs := syncs w; spawn := spawn w; reloads := reloads w; draws := draws w |});
  syncFiles := λ _ w,
    (default (false, None) (head (syncs w)),
     {| connect := connect w; fetches := fetches w; stages := stages w;
        syncs := tail (syncs w); spawn := spawn w; reloads := reloads w; draws := draws w |})
|}.

Global Instance executor : Executor World := {|
  SpawnChild := λ w, (spawn w, w);
  Reload := λ w,
    (default None (head (reloads w)),
     {| connect := connect w; fetches := fetches w; stages := stages w;
        syncs := syncs w; spawn := spawn w; reloads := tail (reloads w); draws := draws w |});
  StopChild := λ w, w;
  SignalChild := λ _ w, w
|}.

(** The scripted values at the head of [ds] that exceed [max]. *)
Fixpoint rejected (max : Z) (ds : list Z) : nat :=
  match ds with
  | [] => 0
  | d :: ds => if bool_decide (d `mod` 2 ^ 63 ≤ max)%Z then 0 else S (rejected max ds)
  end.

(** The source yields the scripted values, as 63-bit integers, and 0 when
    the script is exhausted. *)
Global Instance rand : Rand World.
Proof.
  refine {|
    Int63 := λ w,
      ((default 0 (head (draws w)) `mod` 2 ^ 63)%Z,
       {| connect := connect w; fetches := fetches w; stages := stages w;
          syncs := syncs w; spawn := spawn w; reloads := reloads w;
          draws := tail (draws w) |});
    redraws := λ max w, rejected max (draws w)
  |}.
  - intros w. cbn. by apply Z.mod_pos_bound.
  - intros max [c0 fs st sy sp rl [|d ds]] Hmax;
      cbn [draws rejected head tail default fst snd].
    + by rewrite bool_decide_true.
    + reflexivity.
Defined.

Definition backend (c : Conn) (name pfx : string) (interval : Z) (watch : bool) : Backend :=
  {| client := c; Name := name; Onetime := false; Watch := watch; Prefix := pfx;
     Interval := interval; Keys := ["/"]; store := None |}.

Definition renderer (src dst : string) : Renderer :=
  {| Src := src; Dst := dst; ReapLock := None; rlogger := None |}.

Definition init (w : World) : State World :=
  {| heap := ∅; log := []; trace := []; world := w |}.

(** Two backends [A] and [B] under prefixes [/a] and [/b]. *)
Definition twoBackends : list Backend :=
  [backend 1 "A" "/a" 0 false; backend 2 "B" "/b" 30 true].

Definition quiet : World :=
  {| connect := inl twoBackends; fetches := []; stages := []; syncs := [];
     spawn := None; reloads := []; draws := [] |}.

Definition withFetches (fs : list (list (string * string) + error)) (w : World) : World :=
  {| connect := connect w; fetches := fs; stages := stages w; syncs := syncs w;
     spawn := spawn w; reloads := reloads w; draws := draws w |}.
Definition withSyncs (ss : list (bool * option error)) (w : World) : World :=
  {| connect := connect w; fetches := fetches w; stages := stages w; syncs := ss;
     spawn := spawn w; reloads := reloads w; draws := draws w |}.

(** The resource [NewResource] builds from [twoBackends] and one
    renderer, and the state it leaves on the world [w]. *)
Definition backendA : Backend :=
  withInterval 60 (withStore (Some 1%nat) (backend 1 "A" "/a" 0 false)).
Definition backendB : Backend :=
  withStore (Some 2%nat) (backend 2 "B" "/b" 30 true).

Definition t0 : Resource :=
  {| backends := [backendA; backendB]; rstore := Some 0%nat;
     sources := [withLogger {[ "resource" := "res" ]} (renderer "/t.tmpl" "/t.out")];
     logger := {[ "resource" := "res" ]}; Failed := false |}.

Definition s0 (w : World) : State World :=
  {| heap := {[ 0%nat := ∅; 1%nat := ∅; 2%nat := ∅ ]};
     log := [intervalWarning "res"]; trace := []; world := w |}.

(** Both backends answer, and both hold a key that becomes [/k]. *)
Definition colliding : World :=
  withFetches [inl [("/a/k", "v1")]; inl [("/b/k", "v2"); ("/b/j", "w")]] quiet.

(** The first fetch fails. *)
Definition failingFirst : World :=
  withFetches [inr (errorString "boom")] quiet.

(** The second fetch fails. *)
Definition failingSecond : World :=
  withFetches [inl [("/a/k", "v1")]; inr (errorString "boom")] quiet.

(** The initial process changes nothing; the next one changes the
    destination. *)
Definition changing : World :=
  withSyncs [(false, None); (true, None)]
    (withFetches [inl [("/a/k", "v1")]; inl [("/b/k", "v2")]; inl [("/b/k", "v3")]] quiet).

(** The child cannot be started. *)
Definition noChild : World :=
  {| connect := inl twoBackends; fetches := []; stages := []; syncs := [];
     spawn := Some (errorString "exec: not found"); reloads := []; draws := [] |}.

(** A configuration with a renderer that has no template. *)
Definition emptySrc : ResourceConfig.t :=
  {| ResourceConfig.Template := [renderer EmptyString "/t.out"];
     ResourceConfig.Name := "res"; ResourceConfig.Connectors := [1%nat; 2%nat] |}.

(** The state a method leaves, and the configuration a schedule leads to. *)
Definition after {A} (r : option (A * State World)) : State World :=
  match r with Some (_, s) => s | None => init quiet end.
Definition reached (xs : list Step) (w : World) : Config :=
  default (Monitor_enter t0 (s0 w)) (steps xs (Monitor_enter t0 (s0 w))).

Definition s1 : State World :=
  Eval vm_compute in after (process t0 (backends t0) (s0 colliding)).
Definition sA : State World :=
  Eval vm_compute in after (setVarsAll t0 [backendA] (s0 failingSecond)).
Definition sB : State World :=
  Eval vm_compute in after (setVars t0 backendB sA).
Definition sClosed : State World :=
  Eval vm_compute in after (NewResourceFromResourceConfig 0 emptySrc (init quiet)).
(** After the initial process; after the event of [backendB]. *)
Definition cSteady : Config := Eval vm_compute in reached [Main CaseRetry] changing.
Definition cReloaded : Config :=
  Eval vm_compute in reached [Main CaseRetry; Main (CaseProcess backendB)] changing.
(** After the failed initial process; after the cancellation. *)
Definition cWaiting : Config := Eval vm_compute in reached [Main CaseRetry] failingFirst.
Definition cCancelled : Config :=
  Eval vm_compute in reached [Main CaseRetry; Cancel; Retry 0; Main CaseCtxDone] failingFirst.

(** A configuration with one template, and the resource
    [NewResourceFromResourceConfig] builds from it. *)
Definition oneTemplate : ResourceConfig.t :=
  {| ResourceConfig.Template := [renderer "/t.tmpl" "/t.out"];
     ResourceConfig.Name := "res"; ResourceConfig.Connectors := [1%nat; 2%nat] |}.
Definition tBuilt : Resource :=
  {| backends := [backendA; backendB]; rstore := Some 0%nat;
     sources := [withLogger {[ "resource" := "res" ]}
                   (withReapLock (Some 0%nat) (renderer "/t.tmpl" "/t.out"))];
     logger := {[ "resource" := "res" ]}; Failed := false |}.
Definition sBuilt : State World :=
  Eval vm_compute in after (NewResourceFromResourceConfig 0 oneTemplate (init quiet)).

(** The resource with two renderers; the first one changes its
    destination, the second one cannot be synced. *)
Definition rendererA : Renderer :=
  withLogger {[ "resource" := "res" ]} (renderer "/a.tmpl" "/a.out").
Definition rendererB : Renderer :=
  withLogger {[ "resource" := "res" ]} (renderer "/b.tmpl" "/b.out").
Definition t2 : Resource :=
  {| backends := [backendA; backendB]; rstore := Some 0%nat;
     sources := [rendererA; rendererB];
     logger := {[ "resource" := "res" ]}; Failed := false |}.
Definition halfSynced : World :=
  withSyncs [(true, None); (false, Some (errorString "disk full"))] quiet.
Definition sFirst : State World :=
  Eval vm_compute in after (stageAndSync t2 false [rendererA] (s0 halfSynced)).
Definition sHalf : State World :=
  Eval vm_compute in after (createStageFileAndSync t2 (s0 halfSynced)).

(** After the refresh of [backendB] that finds its keys gone. *)
Definition sRefreshed : State World :=
  Eval vm_compute in after (setVars t0 backendB s1).

(** The steady state on the quiet world; the child that cannot be
    started; the main loop after the cancellation, and after the
    goroutines have returned. *)
Definition cQuiet : Config := Eval vm_compute in reached [Main CaseRetry] quiet.
Definition cNoChild : Config := Eval vm_compute in reached [Main CaseRetry] noChild.
Definition cAtWait : Config :=
  Eval vm_compute in reached [Main CaseRetry; Cancel; Main CaseCtxDone] changing.
Definition cReturned : Config :=
  Eval vm_compute in
    reached [Main CaseRetry; Cancel; Main CaseCtxDone; ChildWait false;
             WorkerReturns; WorkerReturns; WorkerReturns; WaitReturns] changing.


(** The source first yields a value above [acceptedMax 30]. *)
Definition redrawing : World :=
  {| connect := inl twoBackends; fetches := [inr (errorString "boom")]; stages := [];
     syncs := []; spawn := None; reloads := [];
     draws := [2 ^ 63 - 1; 47]%Z |}.
(** The stores as [process] left them on [colliding], before a fetch of
    [backendB] whose two keys become the same path. *)
Definition sStale : State World :=
  {| heap := heap s1; log := []; trace := [];
     world := withFetches [inl [("/b/k", "v3"); ("/b//k", "v4")]] quiet |}.
Definition cRedrawing : Config := Eval vm_compute in reached [Main CaseRetry] redrawing.
Definition cSleeping : Config :=
  Eval vm_compute in reached [Main CaseRetry; Retry 0] redrawing.
End Sim.

(** * Properties *)

(** ** Paths, prefixes and the store *)

Example pathJoinRoot_1 : pathJoinRoot "//a/./b/../c/" = "/a/c".
Proof. reflexivity. Qed.
Example pathJoinRoot_2 : pathJoinRoot EmptyString = "/".
Proof. reflexivity. Qed.
Example pathJoinRoot_3 : pathJoinRoot "../x" = "/x".
Proof. reflexivity. Qed.
Example TrimPrefix_1 : TrimPrefix "/a/x" "/a" = "/x".
Proof. reflexivity. Qed.
Example TrimPrefix_2 : TrimPrefix "/b/x" "/a" = "/b/x".
Proof. reflexivity. Qed.
Example GetAllKVs_1 :
  memkv.GetAllKVs (<["/b" := "2"]> (<["/a" := "1"]> ∅))
  = [ {| memkv.Key := "/a"; memkv.Value := "1" |}; {| memkv.Key := "/b"; memkv.Value := "2" |} ].
Proof. vm_compute. reflexivity. Qed.

Section StoreFacts.
Implicit Types (m acc : gmap string string) (kvs : list memkv.KVPair) (k v : string).

Lemma GetAllKVs_Permutation m :
  memkv.GetAllKVs m ≡ₚ memkv.toKV <$> map_to_list m.
Proof. apply merge_sort_Permutation. Qed.

Lemma GetAllKVs_keys m :
  memkv.Key <$> memkv.GetAllKVs m ≡ₚ (map_to_list m).*1.
Proof.
  rewrite GetAllKVs_Permutation, <-list_fmap_compose.
  reflexivity.
Qed.

Lemma GetAllKVs_NoDup m : NoDup (memkv.Key <$> memkv.GetAllKVs m).
Proof. rewrite GetAllKVs_keys. apply NoDup_fst_map_to_list. Qed.

Lemma elem_of_GetAllKVs m kv :
  kv ∈ memkv.GetAllKVs m ↔ m !! memkv.Key kv = Some (memkv.Value kv).
Proof.
  rewrite GetAllKVs_Permutation, list_elem_of_fmap. split.
  - intros [[k v] [-> Hin]]. by apply elem_of_map_to_list in Hin.
  - intros Hk. exists (memkv.Key kv, memkv.Value kv). split; [by destruct kv|].
    by apply elem_of_map_to_list.
Qed.

Lemma mergeKVs_lookup kvs : ∀ acc k,
  NoDup (memkv.Key <$> kvs) →
  mergeKVs acc kvs !! k =
    match list_find (λ kv, memkv.Key kv = k) kvs with
    | Some (_, kv) => Some (memkv.Value kv)
    | None => acc !! k
    end.
Proof.
  induction kvs as [|kv kvs IH]; intros acc k Hnd; [done|].
  apply NoDup_cons in Hnd as [Hnotin Hnd].
  cbn [mergeKVs foldl]. fold (mergeKVs (memkv.Set_ (memkv.Key kv) (memkv.Value kv) acc) kvs).
  rewrite IH by done. cbn [list_find]. 
  destruct (decide (memkv.Key kv = k)) as [<-|Hne].
  - destruct (list_find _ kvs) as [[i kv']|] eqn:Hf.
    + apply list_find_Some in Hf as (Hi & Hk & _).
      exfalso. apply Hnotin. rewrite <-Hk. apply list_elem_of_fmap.
      exists kv'. split; [done|]. by eapply list_elem_of_lookup_2.
    + cbn. unfold memkv.Set_. by rewrite lookup_insert_eq.
  - destruct (list_find _ kvs) as [[i kv']|] eqn:Hf; cbn; [done|].
    unfold memkv.Set_. by rewrite lookup_insert_ne.
Qed.

Lemma mergeKVs_GetAllKVs acc m :
  mergeKVs acc (memkv.GetAllKVs m) = m ∪ acc.
Proof.
  apply map_eq; intros k.
  rewrite mergeKVs_lookup by apply GetAllKVs_NoDup.
  rewrite lookup_union.
  destruct (list_find _ _) as [[i kv]|] eqn:Hf.
  - apply list_find_Some in Hf as (Hi & Hk & _).
    apply list_elem_of_lookup_2, elem_of_GetAllKVs in Hi.
    rewrite Hk in Hi. rewrite Hi. by destruct (acc !! k).
  - destruct (m !! k) as [v|] eqn:Hm; [|by destruct (acc !! k)].
    exfalso. eapply list_find_None in Hf.
    rewrite Forall_forall in Hf.
    apply (Hf {| memkv.Key := k; memkv.Value := v |}); [|done].
    by apply elem_of_GetAllKVs.
Qed.

Lemma mergeAll_cons acc m ms :
  mergeAll acc (m :: ms) = mergeAll (m ∪ acc) ms.
Proof. cbn [mergeAll]. by rewrite mergeKVs_GetAllKVs. Qed.

Lemma mergeAll_lookup ms : ∀ acc k v,
  mergeAll acc ms !! k = Some v ↔
    (∃ i mi, ms !! i = Some mi ∧ mi !! k = Some v ∧
             ∀ j mj, (i < j)%nat → ms !! j = Some mj → mj !! k = None)
    ∨ (acc !! k = Some v ∧ ∀ j mj, ms !! j = Some mj → mj !! k = None).
Proof.
  induction ms as [|m ms IH]; intros acc k v.
  - cbn [mergeAll]. split; [intros ?; right; split; [done|]; by intros ?? [=]|].
    intros [(i & mi & [=] & _)|[? _]]; done.
  - rewrite mergeAll_cons, IH. split.
    + intros [(i & mi & Hi & Hk & Hlast)|[Hk Hnone]].
      * left. exists (S i), mi. split_and!; [done..|].
        intros [|j] mj Hlt Hj; [lia|]. apply (Hlast j); [lia|done].
      * apply lookup_union_Some_raw in Hk as [Hk|[Hm Hk]].
        -- left. exists 0%nat, m. split_and!; [done..|].
           intros [|j] mj Hlt Hj; [lia|]. by apply (Hnone j).
        -- right. split; [done|]. intros [|j] mj Hj; [by injection Hj as <-|].
           by apply (Hnone j).
    + intros [(i & mi & Hi & Hk & Hlast)|[Hk Hnone]].
      * destruct i as [|i].
        -- injection Hi as ->. right. split.
           { apply lookup_union_Some_raw. by left. }
           intros j mj Hj. apply (Hlast (S j)); [lia|done].
        -- left. exists i, mi. split_and!; [done..|].
           intros j mj Hlt Hj. apply (Hlast (S j)); [lia|done].
      * right. split.
        -- apply lookup_union_Some_raw. right. split; [|done]. by apply (Hnone 0%nat).
        -- intros j mj Hj. by apply (Hnone (S j)).
Qed.

Lemma collisions_elem fs kvs : ∀ acc k,
  k ∈ memkv.Key <$> kvs → is_Some (acc !! k) →
  collisionWarning fs k ∈ collisions fs acc kvs.
Proof.
  induction kvs as [|kv kvs IH]; intros acc k Hin Hacc.
  { by apply elem_of_nil in Hin. }
  cbn [collisions]. apply elem_of_app.
  destruct (decide (memkv.Key kv = k)) as [<-|Hne].
  - left. unfold memkv.Exists. rewrite bool_decide_true by done. apply list_elem_of_here.
  - right. apply IH.
    + rewrite fmap_cons in Hin. apply elem_of_cons in Hin as [?|?]; [congruence|done].
    + unfold memkv.Set_. by rewrite lookup_insert_ne.
Qed.

Lemma mergeWarnings_elem fs ms : ∀ acc k,
  (∃ i j mi mj, (i < j)%nat ∧ ms !! i = Some mi ∧ ms !! j = Some mj ∧
                is_Some (mi !! k) ∧ is_Some (mj !! k))
  ∨ (is_Some (acc !! k) ∧ ∃ j mj, ms !! j = Some mj ∧ is_Some (mj !! k)) →
  collisionWarning fs k ∈ mergeWarnings fs acc ms.
Proof.
  induction ms as [|m ms IH]; intros acc k.
  { intros [(i & j & mi & mj & _ & [=] & _)|[_ (j & mj & [=] & _)]]. }
  intros H. cbn [mergeWarnings]. rewrite mergeKVs_GetAllKVs. apply elem_of_app.
  destruct H as [(i & j & mi & mj & Hlt & Hi & Hj & Hki & Hkj)|[Hacc (j & mj & Hj & Hkj)]].
  - destruct j as [|j]; [lia|]. right. apply IH. destruct i as [|i].
    + injection Hi as ->. right. split; [|by exists j, mj].
      destruct Hki as [v Hv]. exists v. apply lookup_union_Some_raw. by left.
    + left. exists i, j, mi, mj. split_and!; [lia|done..].
  - destruct j as [|j].
    + injection Hj as ->. left. apply collisions_elem; [|done].
      destruct Hkj as [v Hv]. apply list_elem_of_fmap.
      exists {| memkv.Key := k; memkv.Value := v |}. split; [done|].
      by apply elem_of_GetAllKVs.
    + right. apply IH. right. split; [|by exists j, mj].
      destruct Hacc as [v Hv]. destruct (m !! k) as [v'|] eqn:Hm.
      * exists v'. apply lookup_union_Some_raw. by left.
      * exists v. apply lookup_union_Some_raw. by right.
Qed.
End StoreFacts.

(** ** The methods of the resource *)

Section MethodFacts.
Context {W : Type} `{!StoreClient W, !RendererOps W, !Executor W, !Rand W}.
Implicit Types (s : State W) (t : Resource) (b : Backend) (h : gmap loc (gmap string string)).

Lemma bind_run {A B} (m : M W A) (f : A → M W B) s :
  (m ≫= f) s = match m s with Some (a, s') => f a s' | None => None end.
Proof. reflexivity. Qed.

Lemma update_run l f s m :
  heap s !! l = Some m →
  update (Some l) f s = Some (tt, setHeap (<[l := f m]> (heap s)) s).
Proof. intros Hl. unfold update. by rewrite Hl. Qed.

Lemma deref_run p s m :
  contents (heap s) p = Some m → deref p s = Some (m, s).
Proof.
  unfold contents, deref. destruct p as [l|]; [|done]. cbn. by intros ->.
Qed.

Lemma contents_insert_ne h l m p :
  p ≠ Some l → contents (<[l := m]> h) p = contents h p.
Proof.
  destruct p as [l'|]; [|done]. intros Hne. cbn.
  apply lookup_insert_ne. congruence.
Qed.

Lemma contents_insert_eq h l m : contents (<[l := m]> h) (Some l) = Some m.
Proof. cbn. apply lookup_insert_eq. Qed.

Lemma is_Some_contents_insert h l m p :
  is_Some (h !! l) → is_Some (contents (<[l := m]> h) p) ↔ is_Some (contents h p).
Proof.
  intros Hl. destruct p as [l'|]; [|done]. cbn.
  destruct (decide (l = l')) as [<-|Hne].
  - rewrite lookup_insert_eq. split; [done|]. by eexists.
  - by rewrite lookup_insert_ne.
Qed.

Lemma storesOf_insert_ne h l m bs :
  Forall (λ b, store b ≠ Some l) bs →
  storesOf (<[l := m]> h) bs = storesOf h bs.
Proof.
  induction 1 as [|b bs Hb _ IH]; [done|].
  unfold storesOf in *. cbn [omap list_omap]. rewrite IH.
  by rewrite contents_insert_ne.
Qed.

Lemma forEach_mergeKV t l kvs : ∀ s acc,
  rstore t = Some l → heap s !! l = Some acc →
  forEach (mergeKV t) kvs s =
    Some (tt, {| heap := <[l := mergeKVs acc kvs]> (heap s);
                 log := log s ++ collisions (logger t) acc kvs;
                 trace := trace s; world := world s |}).
Proof.
  induction kvs as [|kv kvs IH]; intros s acc Hl Hacc.
  - cbn. rewrite insert_id, app_nil_r by done. by destruct s.
  - cbn [forEach]. rewrite bind_run. unfold mergeKV at 1.
    rewrite bind_run, (deref_run _ _ acc) by (rewrite Hl; done).
    rewrite bind_run, Hl.
    destruct (memkv.Exists (memkv.Key kv) acc) eqn:Hex.
    + cbn [logAt]. erewrite update_run by done.
      erewrite IH; [|done|apply lookup_insert_eq].
      cbn. rewrite Hex, insert_insert_eq, <-app_assoc. done.
    + cbn [mret M_ret]. erewrite update_run by done.
      erewrite IH; [|done|apply lookup_insert_eq].
      cbn. rewrite Hex, insert_insert_eq. done.
Qed.

Lemma mergeLoop_run t l bs : ∀ s acc,
  rstore t = Some l → heap s !! l = Some acc →
  Forall (usable t s) bs →
  forEach (λ v : Backend, m ← deref (store v); forEach (mergeKV t) (memkv.GetAllKVs m)) bs s =
    Some (tt, {| heap := <[l := mergeAll acc (storesOf (heap s) bs)]> (heap s);
                 log := log s ++ mergeWarnings (logger t) acc (storesOf (heap s) bs);
                 trace := trace s; world := world s |}).
Proof.
  induction bs as [|b bs IH]; intros s acc Hl Hacc Hbs.
  - cbn. rewrite insert_id, app_nil_r by done. by destruct s.
  - apply Forall_cons in Hbs as [[[mb Hmb] Hne] Hbs].
    cbn [forEach]. rewrite bind_run, bind_run, (deref_run _ _ mb) by done.
    erewrite forEach_mergeKV by done.
    assert (Hrest : Forall (λ b, store b ≠ Some l) bs).
    { eapply Forall_impl; [exact Hbs|]. intros b' [_ Hb']. congruence. }
    erewrite IH; [|done|apply lookup_insert_eq|].
    + cbn [heap log trace world]. unfold storesOf at 3 4. cbn [omap list_omap].
      rewrite Hmb. fold (storesOf (heap s) bs).
      rewrite insert_insert_eq, storesOf_insert_ne by done.
      cbn [mergeAll mergeWarnings]. by rewrite app_assoc.
    + eapply Forall_impl; [exact Hbs|]. intros b' [Hb' Hne']. split; [|done].
      cbn [heap]. rewrite contents_insert_ne; [done|congruence].
Qed.

Lemma mergeStores_run t l s :
  rstore t = Some l → is_Some (heap s !! l) →
  Forall (usable t s) (backends t) →
  mergeStores t s =
    Some (tt, {| heap := <[l := mergeAll ∅ (storesOf (heap s) (backends t))]> (heap s);
                 log := log s ++ mergeWarnings (logger t) ∅ (storesOf (heap s) (backends t));
                 trace := trace s; world := world s |}).
Proof.
  intros Hl [m Hm] Hbs. unfold mergeStores. rewrite bind_run, Hl.
  erewrite update_run by done.
  assert (Hrest : Forall (λ b, store b ≠ Some l) (backends t)).
  { eapply Forall_impl; [exact Hbs|]. intros b' [_ Hb']. congruence. }
  erewrite mergeLoop_run; [|done|apply lookup_insert_eq|].
  - cbn [heap log trace world setHeap].
    by rewrite insert_insert_eq, storesOf_insert_ne.
  - eapply Forall_impl; [exact Hbs|]. intros b' [Hb' Hne']. split; [|done].
    cbn [heap setHeap]. rewrite contents_insert_ne; [done|congruence].
Qed.

Lemma fillLoop_run prefix l result : ∀ s m,
  heap s !! l = Some m →
  forEach (λ '(key, value),
    update (Some l) (memkv.Set_ (pathJoinRoot (TrimPrefix key prefix)) value)) result s =
  Some (tt, setHeap (<[l := fillFrom prefix m result]> (heap s)) s).
Proof.
  induction result as [|[key value] result IH]; intros s m Hm.
  - cbn. rewrite insert_id by done. by destruct s.
  - cbn [forEach]. rewrite bind_run. erewrite update_run by done.
    erewrite IH by apply lookup_insert_eq.
    cbn. by rewrite insert_insert_eq.
Qed.

Lemma setVars_run_err t b s e w :
  GetValues (client b) (appendPrefix (Prefix b) (Keys b)) (world s) = (inr e, w) →
  setVars t b s =
    Some (Some (withMessage e "getValues failed"),
          {| heap := heap s; log := log s ++ [retrieving t b];
             trace := trace s ++ [fetch b]; world := w |}).
Proof.
  intros Hget. unfold setVars. rewrite bind_run. cbn [logAt].
  rewrite bind_run. unfold call. cbn [world addLog]. rewrite Hget. done.
Qed.

Lemma usable_insert t s b l m :
  is_Some (heap s !! l) → usable t s b →
  usable t (setHeap (<[l := m]> (heap s)) s) b.
Proof.
  intros Hl [Hb Hne]. split; [|done]. cbn. by apply is_Some_contents_insert.
Qed.

Lemma setVars_run_ok t b s result w l lb :
  rstore t = Some l → is_Some (heap s !! l) →
  store b = Some lb → is_Some (heap s !! lb) → lb ≠ l →
  Forall (usable t s) (backends t) →
  GetValues (client b) (appendPrefix (Prefix b) (Keys b)) (world s) = (inl result, w) →
  let h := <[lb := fill (Prefix b) result]> (heap s) in
  setVars t b s =
    Some (None,
          {| heap := <[l := mergeAll ∅ (storesOf h (backends t))]> h;
             log := log s ++ [retrieving t b]
                    ++ mergeWarnings (logger t) ∅ (storesOf h (backends t));
             trace := trace s ++ [fetch b]; world := w |}).
Proof.
  intros Hl Hm Hb [mb Hmb] Hne Hbs Hget h. unfold setVars. rewrite bind_run. cbn [logAt].
  rewrite bind_run. unfold call. cbn [world addLog]. rewrite Hget.
  rewrite bind_run, Hb. erewrite update_run by (cbn; done).
  rewrite bind_run. erewrite fillLoop_run by (cbn; apply lookup_insert_eq).
  cbn [heap setHeap setWorld addTrace addLog log trace world]. rewrite insert_insert_eq.
  rewrite bind_run. erewrite mergeStores_run; [| done | |].
  - cbn [heap setHeap setWorld addTrace addLog log trace world].
    unfold memkv.Purge. fold (fillFrom (Prefix b) ∅ result).
    by rewrite <-app_assoc.
  - cbn [heap setHeap setWorld addTrace addLog log trace world].
    rewrite lookup_insert_ne by done. done.
  - eapply Forall_impl; [exact Hbs|]. intros b' [Hb' Hne']. split; [|done].
    cbn [heap setHeap setWorld addTrace addLog log trace world].
    apply is_Some_contents_insert; [by eexists|done].
Qed.

Lemma is_Some_contents h p :
  is_Some (contents h p) ↔ ∃ l, p = Some l ∧ l ∈ dom h.
Proof.
  destruct p as [l|]; cbn.
  - rewrite <-elem_of_dom. naive_solver.
  - split; [by intros [? [=]]|]. by intros (? & [=] & _).
Qed.

Lemma usable_dom t s s' b :
  dom (heap s') = dom (heap s) → usable t s b → usable t s' b.
Proof.
  intros Hdom [Hb Hne]. split; [|done].
  apply is_Some_contents. rewrite Hdom. by apply is_Some_contents.
Qed.

Lemma wf_dom t s s' :
  dom (heap s') = dom (heap s) → wf t s → wf t s'.
Proof.
  intros Hdom [Hne Hr Hbs Hnd]. split; [done| |  |done].
  - apply is_Some_contents. rewrite Hdom. by apply is_Some_contents.
  - eapply Forall_impl; [exact Hbs|]. intros b Hb. by apply (usable_dom t s s' b).
Qed.

Lemma wf_usable t s : wf t s → Forall (usable t s) (backends t).
Proof. by intros []. Qed.

Lemma wf_rstore_loc t s : wf t s → ∃ l, rstore t = Some l ∧ is_Some (heap s !! l).
Proof.
  intros [_ Hr _ _]. apply is_Some_contents in Hr as (l & Hl & Hin).
  exists l. split; [done|]. by apply elem_of_dom.
Qed.

Lemma usable_loc t s b l :
  rstore t = Some l → usable t s b →
  ∃ lb, store b = Some lb ∧ is_Some (heap s !! lb) ∧ lb ≠ l.
Proof.
  intros Hl [Hb Hne]. apply is_Some_contents in Hb as (lb & Hlb & Hin).
  exists lb. split_and!; [done|by apply elem_of_dom|congruence].
Qed.

(** [setVars] on a constructed resource: it does not panic, and its effect
    is decided by the answer of [GetValues]. *)
Lemma setVars_spec t b s :
  wf t s → usable t s b →
  ∃ r s', setVars t b s = Some (r, s')
    ∧ dom (heap s') = dom (heap s)
    ∧ trace s' = trace s ++ [fetch b]
    ∧ match GetValues (client b) (appendPrefix (Prefix b) (Keys b)) (world s) with
      | (inr e, w) =>
          r = Some (withMessage e "getValues failed")
          ∧ heap s' = heap s ∧ log s' = log s ++ [retrieving t b] ∧ world s' = w
      | (inl result, w) =>
          r = None ∧ world s' = w
          ∧ (∃ l lb, rstore t = Some l ∧ store b = Some lb ∧ lb ≠ l ∧
               let h := <[lb := fill (Prefix b) result]> (heap s) in
               heap s' = <[l := mergeAll ∅ (storesOf h (backends t))]> h
               ∧ log s' = log s ++ [retrieving t b]
                          ++ mergeWarnings (logger t) ∅ (storesOf h (backends t)))
      end.
Proof.
  intros Hwf Hb.
  destruct (GetValues (client b) (appendPrefix (Prefix b) (Keys b)) (world s))
    as [[result|e] w] eqn:Hget.
  - destruct (wf_rstore_loc _ _ Hwf) as (l & Hl & Hm).
    destruct (usable_loc _ _ _ _ Hl Hb) as (lb & Hlb & Hmb & Hne).
    eexists _, _. split; [by eapply setVars_run_ok; [..|apply wf_usable|]|].
    cbn [heap log trace world]. split_and!; [|done..| ].
    + rewrite !dom_insert_L.
      apply elem_of_dom in Hm, Hmb. set_solver.
    + exists l, lb. by split_and!.
  - eexists _, _. split; [by apply setVars_run_err|]. by cbn.
Qed.

Lemma stageAndSync_spec t ss : ∀ changed s,
  is_Some (contents (heap s) (rstore t)) →
  ∃ r s' evs, stageAndSync t changed ss s = Some (r, s')
    ∧ heap s' = heap s ∧ log s' = log s
    ∧ trace s' = trace s ++ evs ∧ Forall (λ e, isRender e = true) evs.
Proof.
  induction ss as [|r0 ss IH]; intros changed s [m Hm].
  - exists (changed, None), s, []. by rewrite app_nil_r.
  - cbn [stageAndSync]. rewrite bind_run, (deref_run _ _ m), bind_run by done.
    unfold call at 1.
    destruct (createStageFile r0 m (world s)) as [[e|] w1] eqn:Hstage.
    + eexists _, _, [_]. split; [done|]. cbn. split_and!; [done..|].
      by repeat constructor.
    + rewrite bind_run. unfold call at 1. cbn [world setWorld addTrace].
      destruct (syncFiles r0 w1) as [[c [e|]] w2] eqn:Hsync.
      * eexists _, _, [_; _]. split; [done|]. cbn. rewrite <-app_assoc.
        split_and!; [done..|]. by repeat constructor.
      * edestruct (IH (changed || c)) as (r & s' & evs & -> & Hh & Hlog & Htr & Hevs);
          [|eexists _, _, (_ :: _ :: evs); split; [done|]].
        { cbn. by eexists. }
        cbn in Hh, Hlog, Htr. rewrite Hh, Hlog, Htr, <-!app_assoc.
        split_and!; [done..|]. by repeat constructor.
Qed.

Lemma setVarsAll_spec t bs : ∀ s,
  wf t s → Forall (usable t s) bs →
  ∃ r s' n, setVarsAll t bs s = Some (r, s')
    ∧ dom (heap s') = dom (heap s)
    ∧ trace s' = trace s ++ (fetch <$> take n bs)
    ∧ (bs ≠ [] → (0 < n)%nat).
Proof.
  induction bs as [|b bs IH]; intros s Hwf Hbs.
  - exists None, s, 0%nat. cbn. rewrite app_nil_r. by split_and!.
  - apply Forall_cons in Hbs as [Hb Hbs].
    destruct (setVars_spec t b s Hwf Hb) as (r & s1 & Hrun & Hdom & Htr & _).
    cbn [setVarsAll]. rewrite bind_run, Hrun. destruct r as [e|].
    + eexists _, s1, 1%nat. split; [done|]. split_and!; [done|by rewrite Htr|lia].
    + destruct (IH s1) as (r & s' & n & -> & Hdom' & Htr' & _).
      { by eapply wf_dom. }
      { eapply Forall_impl; [exact Hbs|]. intros b'. by apply usable_dom. }
      exists r, s', (S n). split; [done|].
      split_and!; [congruence| |lia].
      rewrite Htr', Htr, <-app_assoc. done.
Qed.

Lemma setVarsAll_merged t bs : ∀ s s',
  wf t s → Forall (usable t s) bs → bs ≠ [] →
  setVarsAll t bs s = Some (None, s') → merged t s s'.
Proof.
  induction bs as [|b bs IH]; intros s s' Hwf Hbs Hne Hrun; [done|].
  apply Forall_cons in Hbs as [Hb Hbs].
  destruct (setVars_spec t b s Hwf Hb) as (r & s1 & Hrun1 & Hdom & Htr & Hcase).
  cbn [setVarsAll] in Hrun. rewrite bind_run, Hrun1 in Hrun.
  destruct (GetValues _ _ _) as [[result|e] w].
  2:{ destruct Hcase as (-> & _). done. }
  destruct Hcase as (-> & Hw & l & lb & Hl & Hlb & Hlne & Hheap & Hlog).
  assert (Hwf1 : wf t s1) by by eapply wf_dom.
  assert (Hrest : Forall (λ b, store b ≠ Some l) (backends t)).
  { eapply Forall_impl; [apply (wf_usable _ _ Hwf)|]. intros b' [_ Hb']. congruence. }
  destruct bs as [|b' bs].
  - cbn in Hrun. injection Hrun as <-. split.
    + rewrite Hl, Hheap, contents_insert_eq, (storesOf_insert_ne _ l); done.
    + exists [retrieving t b]. rewrite Hlog, Hheap, (storesOf_insert_ne _ l); done.
  - destruct (IH s1 s') as [Hm [pre Hpre]]; [done| |done|done|].
    { eapply Forall_impl; [exact Hbs|]. intros b''. by apply usable_dom. }
    split; [done|].
    exists ([retrieving t b]
            ++ mergeWarnings (logger t) ∅
                 (storesOf (<[lb := fill (Prefix b) result]> (heap s)) (backends t))
            ++ pre).
    rewrite Hpre, Hlog, <-!app_assoc. done.
Qed.

Lemma process_spec t bs s :
  wf t s → Forall (usable t s) bs →
  ∃ r s' n evs, process t bs s = Some (r, s')
    ∧ wf t s'
    ∧ trace s' = trace s ++ (fetch <$> take n bs) ++ evs
    ∧ Forall (λ e, isRender e = true) evs
    ∧ (bs ≠ [] → (0 < n)%nat).
Proof.
  intros Hwf Hbs.
  destruct (setVarsAll_spec t bs s Hwf Hbs) as (r & s1 & n & Hrun & Hdom & Htr & Hn).
  assert (Hwf1 : wf t s1) by by eapply wf_dom.
  unfold process. rewrite bind_run, Hrun. destruct r as [e|].
  - eexists _, s1, n, []. split; [done|]. rewrite app_nil_r. by split_and!.
  - unfold createStageFileAndSync. rewrite bind_run.
    destruct (stageAndSync_spec t (sources t) false s1) as (r & s' & evs & -> & Hh & Hlog & Htr' & Hevs).
    { by destruct Hwf1. }
    assert (wf t s') by (eapply wf_dom; [|done]; by rewrite Hh).
    destruct r as [changed [e|]]; eexists _, s', n, evs;
      (split; [done|]); rewrite Htr', Htr, <-app_assoc; by split_and!.
Qed.

Lemma process_ok_merged t bs s changed s' :
  wf t s → Forall (usable t s) bs → bs ≠ [] →
  process t bs s = Some ((changed, None), s') → merged t s s'.
Proof.
  intros Hwf Hbs Hne Hrun.
  destruct (setVarsAll_spec t bs s Hwf Hbs) as (r & s1 & n & Hrun1 & Hdom & Htr & _).
  unfold process in Hrun. rewrite bind_run, Hrun1 in Hrun. destruct r as [e|]; [done|].
  unfold createStageFileAndSync in Hrun. rewrite bind_run in Hrun.
  destruct (stageAndSync_spec t (sources t) false s1) as (r & s2 & evs & Hrun2 & Hh & Hlog & _).
  { assert (Hwf1 : wf t s1) by by eapply wf_dom. by destruct Hwf1. }
  rewrite Hrun2 in Hrun. destruct r as [c [e|]]; [done|]. injection Hrun as -> ->.
  destruct (setVarsAll_merged t bs s s1) as [Hm [pre Hpre]]; [done..|].
  split; rewrite Hh; [done|]. exists pre. by rewrite Hlog.
Qed.
End MethodFacts.

Section ProcessFacts.
Context {W : Type} `{!StoreClient W, !RendererOps W, !Executor W, !Rand W}.
Implicit Types (s : State W) (t : Resource) (b : Backend) (h : gmap loc (gmap string string)).

Lemma storesOf_lookup h bs i :
  Forall (λ b, is_Some (contents h (store b))) bs →
  storesOf h bs !! i = bs !! i ≫= λ b, contents h (store b).
Proof.
  intros Hbs. revert i. induction Hbs as [|b bs [m Hm] _ IH]; intros i; [done|].
  unfold storesOf in *. cbn [omap list_omap]. rewrite Hm.
  destruct i as [|i]; cbn; [done|apply IH].
Qed.

Lemma wf_storeAt t s i :
  wf t s → storesOf (heap s) (backends t) !! i = storeAt (heap s) t i.
Proof.
  intros Hwf. apply storesOf_lookup.
  eapply Forall_impl; [apply (wf_usable _ _ Hwf)|]. by intros b [].
Qed.

Lemma mergeAll_is_Some ms : ∀ acc k,
  is_Some (mergeAll acc ms !! k) ↔
    is_Some (acc !! k) ∨ ∃ i mi, ms !! i = Some mi ∧ is_Some (mi !! k).
Proof.
  induction ms as [|m ms IH]; intros acc k.
  - cbn. split; [auto|]. intros [?|(i & mi & [=] & _)]. done.
  - rewrite mergeAll_cons, IH, lookup_union_is_Some. split.
    + intros [[Hm|Hacc]|(i & mi & Hi & Hk)].
      * right. by exists 0%nat, m.
      * by left.
      * right. by exists (S i), mi.
    + intros [Hacc|(i & mi & Hi & Hk)]; [auto|].
      destruct i as [|i]; [injection Hi as ->; auto|].
      right. by exists i, mi.
Qed.

(** C1: after a successful [process] over all the backends of a
    constructed resource, the merged store is exactly the union of the
    backends' stores: a key is in it if and only if it is in the store of
    some backend, it maps to the value of the last backend, in the order of
    their declaration, whose store holds it, and the call has logged a
    collision warning for every key held by two backends. *)
Theorem process_merges_all_backends t s changed s' :
  wf t s →
  process t (backends t) s = Some ((changed, None), s') →
  ∃ m added,
    contents (heap s') (rstore t) = Some m
    ∧ (∀ k, is_Some (m !! k) ↔
            ∃ i mi, storeAt (heap s') t i = Some mi ∧ is_Some (mi !! k))
    ∧ (∀ k v, m !! k = Some v ↔
              ∃ i mi, storeAt (heap s') t i = Some mi ∧ mi !! k = Some v ∧
                ∀ j mj, (i < j)%nat → storeAt (heap s') t j = Some mj → mj !! k = None)
    ∧ log s' = log s ++ added
    ∧ (∀ k i j mi mj, (i < j)%nat →
         storeAt (heap s') t i = Some mi → storeAt (heap s') t j = Some mj →
         is_Some (mi !! k) → is_Some (mj !! k) →
         collisionWarning (logger t) k ∈ added).
Proof.
  intros Hwf Hrun.
  destruct (process_spec t (backends t) s Hwf (wf_usable _ _ Hwf))
    as (r & s'' & n & evs & Hrun' & Hwf' & _).
  rewrite Hrun in Hrun'. injection Hrun' as <- <-.
  destruct (process_ok_merged t (backends t) s changed s' Hwf (wf_usable _ _ Hwf))
    as [Hm [pre Hpre]]; [by destruct Hwf|done|].
  eexists _, _. split; [exact Hm|]. split_and!.
  - intros k. rewrite mergeAll_is_Some, lookup_empty. setoid_rewrite (wf_storeAt t s' _ Hwf').
    split; [intros [[? [=]]|?]; done|auto].
  - intros k v. rewrite mergeAll_lookup, lookup_empty. setoid_rewrite (wf_storeAt t s' _ Hwf').
    split; [intros [?|[[=] _]]; done|auto].
  - exact Hpre.
  - intros k i j mi mj Hlt Hi Hj Hki Hkj. apply elem_of_app. right.
    apply mergeWarnings_elem. left. exists i, j, mi, mj.
    rewrite !(wf_storeAt t s' _ Hwf'). done.
Qed.

(** C3: [process] of the single backend [b], the [i]-th of a
    constructed resource, calls [GetValues] once, for [b], and no other
    backend; it leaves the store of every other backend as it was; and
    when the fetch succeeds the merged store is rebuilt from the stores of
    all the backends, those of the others with the contents they had. *)
Theorem process_one_backend_frame t s i b :
  wf t s → backends t !! i = Some b →
  ∃ r s' evs,
    process t [b] s = Some (r, s')
    ∧ trace s' = trace s ++ fetch b :: evs
    ∧ Forall (λ e, isGetValues e = false) evs
    ∧ (∀ j, j ≠ i → storeAt (heap s') t j = storeAt (heap s) t j)
    ∧ match GetValues (client b) (appendPrefix (Prefix b) (Keys b)) (world s) with
      | (inl result, _) =>
          storeAt (heap s') t i = Some (fill (Prefix b) result)
          ∧ storesOf (heap s') (backends t)
            = <[i := fill (Prefix b) result]> (storesOf (heap s) (backends t))
          ∧ contents (heap s') (rstore t)
            = Some (mergeAll ∅ (storesOf (heap s') (backends t)))
      | (inr _, _) => heap s' = heap s
      end.
Proof.
  intros Hwf Hi.
  assert (Hb : usable t s b).
  { eapply (Forall_lookup_1 _ _ _ _ (wf_usable _ _ Hwf) Hi). }
  destruct (setVars_spec t b s Hwf Hb) as (r1 & s1 & Hrun1 & Hdom & Htr & Hcase).
  assert (Hwf1 : wf t s1) by by eapply wf_dom.
  unfold process. cbn [setVarsAll]. rewrite !bind_run, Hrun1.
  destruct (GetValues _ _ _) as [[result|e] w].
  - destruct Hcase as (-> & Hw & l & lb & Hl & Hlb & Hlne & Hheap & Hlog).
    cbn [mret M_ret]. unfold createStageFileAndSync. rewrite bind_run.
    destruct (stageAndSync_spec t (sources t) false s1)
      as (r & s' & evs & -> & Hh & _ & Htr' & Hevs); [by destruct Hwf1|].
    assert (Hrest : Forall (λ b, store b ≠ Some l) (backends t)).
    { eapply Forall_impl; [apply (wf_usable _ _ Hwf)|]. intros b' [_ Hb']. congruence. }
    assert (Hother : ∀ j, j ≠ i → storeAt (heap s') t j = storeAt (heap s) t j).
    { intros j Hj. unfold storeAt. destruct (backends t !! j) as [bj|] eqn:Hbj; [|done]. cbn.
      rewrite Hh, Hheap.
      rewrite contents_insert_ne by (eapply (Forall_lookup_1 _ _ _ _ Hrest Hbj)).
      apply contents_insert_ne. rewrite <-Hlb. intros Heq.
      apply Hj. eapply (NoDup_lookup (store <$> backends t)); [by destruct Hwf| |].
      - by rewrite list_lookup_fmap, Hbj.
      - by rewrite list_lookup_fmap, Hi, Heq. }
    assert (Hself : storeAt (heap s') t i = Some (fill (Prefix b) result)).
    { unfold storeAt. rewrite Hi. cbn. rewrite Hh, Hheap, Hlb. cbn.
      rewrite lookup_insert_ne, lookup_insert_eq; done. }
    assert (Hstores : storesOf (heap s') (backends t)
                      = <[i := fill (Prefix b) result]> (storesOf (heap s) (backends t))).
    { assert (Hwf' : wf t s') by (eapply wf_dom; [|exact Hwf1]; by rewrite Hh).
      apply list_eq. intros j. rewrite (wf_storeAt t s' j Hwf').
      destruct (decide (j = i)) as [->|Hj].
      - rewrite list_lookup_insert_eq; [done|].
        apply lookup_lt_is_Some. rewrite (wf_storeAt t s i Hwf).
        unfold storeAt. rewrite Hi. cbn. by destruct Hb.
      - rewrite list_lookup_insert_ne, (wf_storeAt t s j Hwf) by done. by apply Hother. }
    assert (Hmerged : contents (heap s') (rstore t)
                      = Some (mergeAll ∅ (storesOf (heap s') (backends t)))).
    { rewrite Hh at 1. rewrite Hl, Hheap, contents_insert_eq.
      rewrite Hh, Hheap, (storesOf_insert_ne _ l); done. }
    assert (Hgv : Forall (λ e, isGetValues e = false) evs).
    { eapply Forall_impl; [exact Hevs|]. by intros [] ?. }
    destruct r as [c [e|]]; eexists _, s', evs;
      (split; [done|]); rewrite Htr', Htr, <-app_assoc; by split_and!.
  - destruct Hcase as (-> & Hheap & _ & _). cbn [mret M_ret].
    eexists _, s1, []. split; [done|]. split_and!; [done|done| |done].
    intros j _. unfold storeAt. by rewrite Hheap.
Qed.

(** ** What [setVars] does whatever the state of the stores *)

Lemma update_trace p f s u s' :
  update p f s = Some (u, s') → trace s' = trace s ∧ world s' = world s.
Proof.
  unfold update. destruct p as [l|]; [|done]. destruct (heap s !! l); [|done].
  by intros [= _ <-].
Qed.

Lemma forEach_trace {A} (f : A → M W unit) l :
  (∀ x s u s', f x s = Some (u, s') → trace s' = trace s ∧ world s' = world s) →
  ∀ s u s', forEach f l s = Some (u, s') → trace s' = trace s ∧ world s' = world s.
Proof.
  intros Hf. induction l as [|x l IH]; intros s u s' Hrun.
  - by injection Hrun as _ <-.
  - cbn [forEach] in Hrun. rewrite bind_run in Hrun.
    destruct (f x s) as [[[] s1]|] eqn:Hx; [|done].
    apply Hf in Hx as [<- <-]. by eapply IH.
Qed.

Lemma mergeKV_trace t kv s u s' :
  mergeKV t kv s = Some (u, s') → trace s' = trace s ∧ world s' = world s.
Proof.
  unfold mergeKV. rewrite bind_run. unfold deref.
  destruct (rstore t) as [l|]; [|done]. destruct (heap s !! l) as [m|] eqn:Hm; [|done].
  rewrite bind_run. destruct (memkv.Exists _ _).
  - cbn [logAt]. intros Hup. by apply update_trace in Hup.
  - cbn [mret M_ret]. intros Hup. by apply update_trace in Hup.
Qed.

Lemma mergeStores_trace t s u s' :
  mergeStores t s = Some (u, s') → trace s' = trace s ∧ world s' = world s.
Proof.
  unfold mergeStores. rewrite bind_run.
  destruct (update _ _ s) as [[[] s1]|] eqn:Hup; [|done].
  apply update_trace in Hup as [<- <-].
  apply forEach_trace. intros v s0 u0 s0'. rewrite bind_run.
  destruct (deref _ s0) as [[m s2]|] eqn:Hd; [|done].
  assert (s2 = s0) as ->.
  { unfold deref in Hd. destruct (store v) as [l|]; [|done].
    destruct (heap s0 !! l); [|done]. by injection Hd as _ <-. }
  apply forEach_trace. intros kv. apply mergeKV_trace.
Qed.

Lemma setVars_inv t b s r s' :
  setVars t b s = Some (r, s') →
  trace s' = trace s ++ [fetch b]
  ∧ ∀ err, r = Some err →
      ∃ e w, GetValues (client b) (appendPrefix (Prefix b) (Keys b)) (world s) = (inr e, w)
             ∧ err = withMessage e "getValues failed".
Proof.
  unfold setVars. rewrite bind_run. cbn [logAt]. rewrite bind_run. unfold call.
  cbn [world addLog].
  destruct (GetValues _ _ _) as [[result|e] w].
  - rewrite bind_run.
    destruct (update _ _ _) as [[[] s1]|] eqn:H1; [|done].
    apply update_trace in H1 as [H1 _]. rewrite bind_run.
    destruct (forEach _ result s1) as [[[] s2]|] eqn:H2; [|done].
    apply forEach_trace in H2 as [H2 _].
    2:{ intros [key value] ???. apply update_trace. }
    rewrite bind_run. destruct (mergeStores t s2) as [[[] s3]|] eqn:H3; [|done].
    apply mergeStores_trace in H3 as [H3 _].
    intros [= <- <-]. split; [|done]. by rewrite H3, H2, H1.
  - intros [= <- <-]. split; [done|]. intros err [= <-]. by exists e, w.
Qed.

Lemma setVarsAll_renders t bs : ∀ s r s',
  setVarsAll t bs s = Some (r, s') →
  filter (λ e, isRender e = true) (trace s') = filter (λ e, isRender e = true) (trace s).
Proof.
  induction bs as [|b bs IH]; intros s r s' Hrun.
  - by injection Hrun as _ <-.
  - cbn [setVarsAll] in Hrun. rewrite bind_run in Hrun.
    destruct (setVars t b s) as [[r1 s1]|] eqn:H1; [|done].
    apply setVars_inv in H1 as [Htr _].
    assert (filter (λ e, isRender e = true) (trace s1)
            = filter (λ e, isRender e = true) (trace s)) as <-.
    { rewrite Htr, filter_app. cbn. apply app_nil_r. }
    destruct r1 as [e|]; [by injection Hrun as _ <-|]. by eapply IH.
Qed.

Lemma setVarsAll_app_fail t pre b post err : ∀ s s1 s2,
  setVarsAll t pre s = Some (None, s1) →
  setVars t b s1 = Some (Some err, s2) →
  setVarsAll t (pre ++ b :: post) s =
    Some (Some (backendError {| berr.Message := "setVars failed: " +:+ Error err;
                                berr.Backend := Name b |}), s2).
Proof.
  induction pre as [|a pre IH]; intros s s1 s2 Hpre Hb.
  - injection Hpre as <-. cbn [app setVarsAll]. by rewrite bind_run, Hb.
  - cbn [app setVarsAll] in *. rewrite bind_run in *.
    destruct (setVars t a s) as [[[e|] s0]|]; [done| |done].
    by eapply IH.
Qed.

(** C6: when [setVars] fails for a backend [b] after it succeeded
    for the backends before it, [process] returns at once, with the
    [BackendError] whose [Backend] is the name of [b] and whose [Message]
    wraps the failure of [GetValues]; no renderer is staged or synced in
    the call, and the last fetch of the call is the one of [b]. *)
Theorem process_setVars_failure t pre b post s s1 err s2 :
  setVarsAll t pre s = Some (None, s1) →
  setVars t b s1 = Some (Some err, s2) →
  process t (pre ++ b :: post) s =
    Some ((false,
           Some (backendError {| berr.Message := "setVars failed: " +:+ Error err;
                                 berr.Backend := Name b |})), s2)
  ∧ (∃ e w, GetValues (client b) (appendPrefix (Prefix b) (Keys b)) (world s1) = (inr e, w)
            ∧ err = withMessage e "getValues failed")
  ∧ filter (λ e, isRender e = true) (trace s2) = filter (λ e, isRender e = true) (trace s)
  ∧ filter (λ e, isGetValues e = true) (trace s2)
    = filter (λ e, isGetValues e = true) (trace s1) ++ [fetch b].
Proof.
  intros Hpre Hb. split_and!.
  - unfold process. rewrite bind_run.
    by rewrite (setVarsAll_app_fail t pre b post err s s1 s2).
  - apply setVars_inv in Hb as [_ Hb]. by apply Hb.
  - erewrite <-(setVarsAll_renders t pre s) by done.
    apply setVars_inv in Hb as [-> _]. rewrite filter_app. cbn. apply app_nil_r.
  - apply setVars_inv in Hb as [-> _]. by rewrite filter_app.
Qed.

(** C9: when [GetValues] returns an error, [setVars] returns that
    error, wrapped by [errors.Wrap], and leaves the stores as they were,
    the store of the backend and the merged store among them: the purge
    and the merge come after a successful fetch only. *)
Theorem setVars_error_leaves_stores t b s e w :
  GetValues (client b) (appendPrefix (Prefix b) (Keys b)) (world s) = (inr e, w) →
  ∃ s',
    setVars t b s = Some (Some (withMessage e "getValues failed"), s')
    ∧ Cause (withMessage e "getValues failed") = Cause e
    ∧ heap s' = heap s
    ∧ contents (heap s') (store b) = contents (heap s) (store b)
    ∧ contents (heap s') (rstore t) = contents (heap s) (rstore t).
Proof.
  intros Hget. eexists. split; [by apply setVars_run_err|]. done.
Qed.
End ProcessFacts.

(** ** Construction *)

Section Construction.
Context {W : Type} `{!StoreClient W, !RendererOps W, !Executor W, !Rand W}.
Implicit Types (s : State W) (t : Resource) (b : Backend) (h : gmap loc (gmap string string)).

Lemma initBackends_spec name bs : ∀ s,
  ∃ bs' s',
    initBackends (W := W) {[ "resource" := name ]} bs s = Some (bs', s')
    ∧ trace s' = trace s ∧ world s' = world s
    ∧ log s' = log s ++ replicate (length (filter (λ b, needsInterval b = true) bs))
                                  (intervalWarning name)
    ∧ Forall2 (λ b b', b' = withStore (store b') (upgraded b)) bs bs'
    ∧ dom (heap s) ⊆ dom (heap s')
    ∧ Forall (λ b', ∃ l, store b' = Some l ∧ l ∈ dom (heap s') ∧ l ∉ dom (heap s)) bs'
    ∧ NoDup (store <$> bs').
Proof.
  induction bs as [|b bs IH]; intros s.
  - exists [], s. cbn. rewrite app_nil_r. split_and!; try done; constructor.
  - cbn [initBackends]. rewrite bind_run. unfold new at 1. cbn beta iota zeta.
    set (l := fresh (dom (heap s))).
    assert (Hl : l ∉ dom (heap s)) by apply is_fresh.
    rewrite bind_run.
    assert (Hneeds : needsInterval (withStore (Some l) b) = needsInterval b) by done.
    rewrite Hneeds.
    set (s1 := setHeap (<[l := memkv.New]> (heap s)) s).
    set (s2 := if needsInterval b then addLog (intervalWarning name) s1 else s1).
    set (b1 := withStore (Some l) (upgraded b)).
    assert (Hstep : (if needsInterval b
                     then logAt WarningLevel {[ "resource" := name ]}
                            "interval needs to be > 0: setting interval to 60";;
                          mret (withInterval 60 (withStore (Some l) b))
                     else mret (withStore (Some l) b)) s1 = Some (b1, s2)).
    { unfold b1, s2, upgraded. by destruct (needsInterval b). }
    rewrite Hstep.
    destruct (IH s2) as (bs' & s' & Hrun & Htr & Hw & Hlog & Hall & Hdom & Hfresh & Hnd).
    rewrite bind_run, Hrun. exists (b1 :: bs'), s'. split; [done|].
    assert (Hheap2 : heap s2 = <[l := memkv.New]> (heap s)).
    { unfold s2. by destruct (needsInterval b). }
    assert (Hdom2 : dom (heap s2) = {[l]} ∪ dom (heap s)).
    { by rewrite Hheap2, dom_insert_L. }
    split_and!.
    + rewrite Htr. unfold s2. by destruct (needsInterval b).
    + rewrite Hw. unfold s2. by destruct (needsInterval b).
    + rewrite Hlog. unfold s2. rewrite filter_cons.
      destruct (needsInterval b); cbn.
      * rewrite decide_True by done. cbn. by rewrite <-app_assoc.
      * rewrite decide_False by done. done.
    + constructor; [|done]. by destruct b.
    + set_solver.
    + constructor.
      * exists l. split; [done|]. split; [set_solver|done].
      * eapply Forall_impl; [exact Hfresh|]. intros b' (l' & ? & ? & ?).
        exists l'. split_and!; [done..|]. set_solver.
    + rewrite fmap_cons. apply NoDup_cons. split; [|done].
      intros Hin. apply list_elem_of_fmap in Hin as (b' & Hb' & Hin).
      rewrite Forall_forall in Hfresh. destruct (Hfresh b' Hin) as (l' & Hl' & _ & Hnot).
      cbn in Hb'. assert (l' = l) as -> by congruence. set_solver.
Qed.

Lemma NewResource_error bs tmpl name s res err s' :
  NewResource bs tmpl name s = Some ((res, Some err), s') →
  res = None ∧ s' = s
  ∧ (err = errorString "a valid StoreClient is required" ∨ err = ErrEmptySrc).
Proof.
  unfold NewResource. destruct (decide (length bs = 0%nat)).
  { intros [= <- <- <-]. auto. }
  destruct (checkSources _ tmpl) as [srcs|].
  2:{ intros [= <- <- <-]. auto. }
  rewrite bind_run. unfold new at 1. cbn beta iota zeta. rewrite bind_run.
  destruct (initBackends _ bs _) as [[bs' s2]|]; [|done]. done.
Qed.

Lemma NewResource_ok bs tmpl name s t err s' :
  NewResource bs tmpl name s = Some ((Some t, err), s') →
  err = None
  ∧ checkSources {[ "resource" := name ]} tmpl = Some (sources t)
  ∧ logger t = {[ "resource" := name ]}
  ∧ trace s' = trace s ∧ world s' = world s
  ∧ log s' = log s ++ replicate (length (filter (λ b, needsInterval b = true) bs))
                                (intervalWarning name)
  ∧ Forall2 (λ b b', b' = withStore (store b') (upgraded b)) bs (backends t)
  ∧ wf t s'.
Proof.
  unfold NewResource. destruct (decide (length bs = 0%nat)) as [|Hlen]; [done|].
  destruct (checkSources _ tmpl) as [srcs|]; [|done].
  rewrite bind_run. unfold new at 1. cbn beta iota zeta. rewrite bind_run.
  set (l := fresh (dom (heap s))).
  assert (Hl : l ∉ dom (heap s)) by apply is_fresh.
  destruct (initBackends_spec name bs (setHeap (<[l := memkv.New]> (heap s)) s))
    as (bs' & s2 & -> & Htr & Hw & Hlog & Hall & Hdom & Hfresh & Hnd).
  cbn [heap log trace world setHeap] in *.
  intros [= <- <- <-]. cbn [backends rstore sources logger].
  split_and!; try done.
  split; cbn [backends rstore].
  - intros ->. apply Forall2_nil_inv_r in Hall. by subst bs.
  - apply is_Some_contents. exists l. split; [done|]. apply Hdom. set_solver.
  - eapply Forall_impl; [exact Hfresh|]. intros b' (l' & Hl' & Hin & Hnot). split.
    + apply is_Some_contents. by exists l'.
    + rewrite Hl'. intros [= ->]. set_solver.
  - done.
Qed.

(** C8: in the resource [NewResource] returns, a backend that was
    given with [Interval <= 0], without [Watch] and without [Onetime], has
    the interval 60, and the warning is logged, once for each such
    backend; a backend with [Watch] or [Onetime] set, or with a positive
    interval, keeps its interval; nothing else of a backend changes but
    its store. *)
Theorem NewResource_interval_upgrade bs tmpl name s t err s' :
  NewResource bs tmpl name s = Some ((Some t, err), s') →
  length (backends t) = length bs
  ∧ (∀ i b, bs !! i = Some b →
       ∃ b', backends t !! i = Some b'
         ∧ client b' = client b ∧ Name b' = Name b ∧ Prefix b' = Prefix b
         ∧ Keys b' = Keys b ∧ Watch b' = Watch b ∧ Onetime b' = Onetime b
         ∧ ((Interval b ≤ 0)%Z ∧ Watch b = false ∧ Onetime b = false →
              Interval b' = 60%Z)
         ∧ (Watch b = true ∨ Onetime b = true ∨ (0 < Interval b)%Z →
              Interval b' = Interval b))
  ∧ log s' = log s ++ replicate (length (filter (λ b, needsInterval b = true) bs))
                                (intervalWarning name)
  ∧ (∀ b, b ∈ bs → (Interval b ≤ 0)%Z → Watch b = false → Onetime b = false →
          intervalWarning name ∈ log s').
Proof.
  intros Hrun. apply NewResource_ok in Hrun as (_ & _ & _ & _ & _ & Hlog & Hall & _).
  split_and!.
  - symmetry. by eapply Forall2_length.
  - intros i b Hb. destruct (Forall2_lookup_l _ _ _ _ _ Hall Hb) as (b' & Hb' & Heq).
    exists b'. split; [done|]. rewrite Heq. unfold upgraded, needsInterval.
    destruct (Watch b) eqn:Hw, (Onetime b) eqn:Ho; case_bool_decide; cbn;
      rewrite ?Hw, ?Ho; split_and!; try done; try (intros (? & ? & ?); done);
      try (intros [?|[?|?]]; done || lia).
  - done.
  - intros b Hin Hi Hw Ho. rewrite Hlog. apply elem_of_app. right.
    apply elem_of_replicate. split; [done|].
    assert (Hf : b ∈ filter (λ b, needsInterval b = true) bs).
    { apply list_elem_of_filter. split; [|done]. unfold needsInterval.
      rewrite Hw, Ho, bool_decide_true; done. }
    destruct (filter _ bs); [by apply elem_of_nil in Hf|done].
Qed.

Lemma closeAll_run bl : ∀ s,
  forEach (λ v : Backend, call (EvClose (client v)) (λ w, (tt, Close (client v) w))) bl s
  = Some (tt, {| heap := heap s; log := log s;
                 trace := trace s ++ (EvClose ∘ client <$> bl);
                 world := foldl (λ w v, Close (client v) w) (world s) bl |}).
Proof.
  induction bl as [|v bl IH]; intros s.
  - cbn. rewrite app_nil_r. by destruct s.
  - cbn [forEach]. rewrite bind_run. unfold call at 1. rewrite IH. cbn.
    by rewrite <-app_assoc.
Qed.

(** C10: when [ConnectAll] has connected the backends and
    [NewResource] then fails (no backend, or a renderer without a
    template), [NewResourceFromResourceConfig] calls [Close] on every
    backend of the list, in order, after [ConnectAll] and before it
    returns the error; it returns no resource. *)
Theorem failed_construction_closes_backends reapLock r s backendList w1 res err s' :
  ConnectAll (ResourceConfig.Connectors r) (world s) = (inl backendList, w1) →
  NewResourceFromResourceConfig reapLock r s = Some ((res, Some err), s') →
  res = None
  ∧ (err = errorString "a valid StoreClient is required" ∨ err = ErrEmptySrc)
  ∧ trace s' = trace s ++ EvConnectAll :: (EvClose ∘ client <$> backendList)
  ∧ world s' = foldl (λ w v, Close (client v) w) w1 backendList.
Proof.
  intros Hconn. unfold NewResourceFromResourceConfig. rewrite bind_run. unfold call at 1.
  rewrite Hconn. rewrite bind_run.
  destruct (NewResource _ _ _ _) as [[[res1 [err1|]] s1]|] eqn:Hnew; [| |done].
  - apply NewResource_error in Hnew as (-> & -> & Herr).
    rewrite bind_run, closeAll_run. cbn. intros [= <- <- <-]. by rewrite <-app_assoc.
  - by rewrite bind_run.
Qed.
End Construction.

(** ** The random source *)

Section RandFacts.
Local Open Scope Z_scope.

Lemma acceptedMax_succ n : 0 < n → acceptedMax n + 1 = n * (2 ^ 63 `div` n).
Proof.
  intros Hn. unfold acceptedMax.
  pose proof (Z.div_mod (2 ^ 63) n). lia.
Qed.

(** Every remainder has the same number of accepted draws: the draws that
    [Int63n n] maps to [r] are the [n * q + r] for the [q] below
    [(acceptedMax n + 1) / n], whatever [r]. *)
Lemma Int63n_classes n r v :
  0 < n → 0 ≤ r < n →
  (0 ≤ v ≤ acceptedMax n ∧ v `mod` n = r)
  ↔ ∃ q, 0 ≤ q < (acceptedMax n + 1) `div` n ∧ v = n * q + r.
Proof.
  intros Hn Hr. rewrite acceptedMax_succ by done.
  rewrite (Z.mul_comm n), Z.div_mul by lia.
  pose proof (acceptedMax_succ n Hn) as Hmax.
  set (k := 2 ^ 63 `div` n) in *.
  split.
  - intros [[Hv0 Hv] Hmod]. exists (v `div` n).
    pose proof (Z.div_mod v n ltac:(lia)) as Hdm. rewrite Hmod in Hdm.
    split; [|lia]. split; [apply Z.div_pos; lia|].
    apply Z.div_lt_upper_bound; lia.
  - intros (q & Hq & ->). split; [split; nia|].
    rewrite Z.add_comm, Z.mul_comm, Z.mod_add by lia. by apply Z.mod_small.
Qed.

End RandFacts.

Section RandSource.
Local Open Scope Z_scope.
Context {W : Type} `{!Rand W}.

Lemma land_le a b : 0 ≤ b → Z.land a b ≤ b.
Proof.
  intros Hb.
  assert (H0 : Z.land (Z.ldiff b a) (Z.land b a) = 0).
  { apply Z.bits_inj'. intros n Hn.
    rewrite Z.land_spec, Z.ldiff_spec, Z.land_spec, Z.bits_0.
    by destruct (Z.testbit a n), (Z.testbit b n). }
  pose proof (Z.add_nocarry_lxor _ _ H0) as Hadd.
  rewrite (Z.lxor_lor _ _ H0), Z.lor_ldiff_and in Hadd.
  assert (0 ≤ Z.ldiff b a) by (apply Z.ldiff_nonneg; auto).
  rewrite (Z.land_comm a b). lia.
Qed.

Lemma Int63n_loop_bound k n max : ∀ w : W, 0 < n → 0 ≤ (Int63n_loop k n max w).1 < n.
Proof.
  induction k as [|k IH]; intros w Hn; cbn [Int63n_loop];
    destruct (Int63 w) as [v w']; case_bool_decide; cbn; auto using Z.mod_pos_bound.
Qed.

Lemma Int63n_bound n (w : W) : 0 < n → 0 ≤ (Int63n n w).1 < n.
Proof.
  intros Hn. unfold Int63n. destruct (Z.land n (n - 1) =? 0).
  - pose proof (Int63_range w). destruct (Int63 w) as [v w']. cbn in *. split.
    + apply Z.land_nonneg. lia.
    + pose proof (land_le v (n - 1)). lia.
  - by apply Int63n_loop_bound.
Qed.

Lemma Int63n_loop_spec n max k : ∀ w : W,
  0 ≤ max → redraws max w = k →
  (∀ j, (j < k)%nat → max < (nthDraw j w).1)
  ∧ (nthDraw k w).1 ≤ max
  ∧ Int63n_loop k n max w = ((nthDraw k w).1 `mod` n, (nthDraw k w).2).
Proof.
  induction k as [|k IH]; intros w Hmax Hk.
  - rewrite redraws_spec in Hk by done. cbn [Int63n_loop nthDraw].
    destruct (Int63 w) as [v w'] eqn:Hw. cbn in Hk |- *. case_bool_decide; [|done].
    split_and!; [lia|done|done].
  - rewrite redraws_spec in Hk by done. cbn [Int63n_loop nthDraw].
    destruct (Int63 w) as [v w'] eqn:Hw. cbn in Hk |- *. case_bool_decide; [done|].
    injection Hk as Hk. destruct (IH w' Hmax Hk) as (Hrej & Hacc & Hrun).
    split_and!; [|done|done].
    intros [|j] Hj; cbn [nthDraw]; rewrite Hw; cbn; [lia|]. apply Hrej. lia.
Qed.

Lemma acceptedMax_nonneg n : 0 < n ≤ 2 ^ 63 → 0 ≤ acceptedMax n.
Proof.
  intros Hn. unfold acceptedMax.
  pose proof (Z.mod_pos_bound (2 ^ 63) n ltac:(lia)).
  destruct (decide (n = 2 ^ 63)) as [->|]; [rewrite Z.mod_same by lia; lia|lia].
Qed.

Lemma nthDraw_range k : ∀ w : W, 0 ≤ (nthDraw k w).1 < 2 ^ 63.
Proof. induction k as [|k IH]; intros w; cbn [nthDraw]; [apply Int63_range|apply IH]. Qed.

(** [Int63n n], for an [n] that is no power of two: the values of the
    source above [acceptedMax n] are passed over, and the first one that is
    not is reduced modulo [n]. *)
Lemma Int63n_spec n (w : W) :
  0 < n ≤ 2 ^ 63 → Z.land n (n - 1) ≠ 0 →
  ∃ k, (∀ j, (j < k)%nat → acceptedMax n < (nthDraw j w).1)
    ∧ 0 ≤ (nthDraw k w).1 ≤ acceptedMax n
    ∧ Int63n n w = ((nthDraw k w).1 `mod` n, (nthDraw k w).2).
Proof.
  intros Hn Hpow. unfold Int63n. rewrite (proj2 (Z.eqb_neq _ _) Hpow).
  destruct (Int63n_loop_spec n (acceptedMax n) _ w (acceptedMax_nonneg n Hn) eq_refl)
    as (Hrej & Hacc & Hrun).
  eexists. split; [exact Hrej|]. split; [|exact Hrun].
  split; [apply nthDraw_range|done].
Qed.
End RandSource.

(** ** [Monitor] *)

Section MonitorFacts.
Context {W : Type} `{!StoreClient W, !RendererOps W, !Executor W, !Rand W}.
Implicit Types (s : State W) (t : Resource) (b : Backend) (c : @Config W).

Lemma stageAndSync_inv t ss : ∀ changed s r s',
  stageAndSync t changed ss s = Some (r, s') →
  heap s' = heap s ∧ log s' = log s
  ∧ ∃ evs, trace s' = trace s ++ evs ∧ Forall (λ e, isRender e = true) evs.
Proof.
  induction ss as [|r0 ss IH]; intros changed s r s' Hrun.
  - injection Hrun as _ <-. split_and!; [done..|]. exists []. by rewrite app_nil_r.
  - cbn [stageAndSync] in Hrun. rewrite bind_run in Hrun.
    destruct (deref (rstore t) s) as [[m s0]|] eqn:Hd; [|done].
    assert (s0 = s) as ->.
    { unfold deref in Hd. destruct (rstore t) as [l|]; [|done].
      destruct (heap s !! l); [|done]. by injection Hd as _ <-. }
    rewrite bind_run in Hrun. unfold call at 1 in Hrun.
    destruct (createStageFile r0 m (world s)) as [[e|] w1].
    + injection Hrun as _ <-. cbn. split_and!; [done..|].
      exists [EvCreateStageFile (Src r0)]. split; [done|]. by repeat constructor.
    + rewrite bind_run in Hrun. unfold call at 1 in Hrun. cbn [world setWorld addTrace] in Hrun.
      destruct (syncFiles r0 w1) as [[c0 [e|]] w2].
      * injection Hrun as _ <-. cbn. split_and!; [done..|].
        exists [EvCreateStageFile (Src r0); EvSyncFiles (Src r0)].
        rewrite <-app_assoc. split; [done|]. by repeat constructor.
      * apply IH in Hrun as (Hh & Hl & evs & Htr & Hevs). cbn in Hh, Hl, Htr.
        split_and!; [done..|].
        exists (EvCreateStageFile (Src r0) :: EvSyncFiles (Src r0) :: evs).
        rewrite Htr, <-!app_assoc. split; [done|]. by repeat constructor.
Qed.

Lemma setVarsAll_inv t bs : ∀ s r s',
  setVarsAll t bs s = Some (r, s') →
  ∃ n, trace s' = trace s ++ (fetch <$> take n bs).
Proof.
  induction bs as [|b bs IH]; intros s r s' Hrun.
  - injection Hrun as _ <-. exists 0%nat. by rewrite app_nil_r.
  - cbn [setVarsAll] in Hrun. rewrite bind_run in Hrun.
    destruct (setVars t b s) as [[r1 s1]|] eqn:H1; [|done].
    apply setVars_inv in H1 as [Htr _]. destruct r1 as [e|].
    + injection Hrun as _ <-. by exists 1%nat.
    + apply IH in Hrun as [n Hn]. exists (S n). by rewrite Hn, Htr, <-app_assoc.
Qed.

Lemma process_inv t bs s r s' :
  process t bs s = Some (r, s') →
  ∃ evs, trace s' = trace s ++ evs ∧ Forall (λ e, isProcessEvent e = true) evs.
Proof.
  unfold process. rewrite bind_run.
  destruct (setVarsAll t bs s) as [[r1 s1]|] eqn:H1; [|done].
  apply setVarsAll_inv in H1 as [n Hn].
  assert (Hf : Forall (λ e, isProcessEvent e = true) (fetch <$> take n bs)).
  { apply Forall_fmap, Forall_true. by intros b. }
  destruct r1 as [e|].
  - intros [= <- <-]. eauto.
  - unfold createStageFileAndSync. rewrite bind_run.
    destruct (stageAndSync t false (sources t) s1) as [[[ch err] s2]|] eqn:H2; [|done].
    apply stageAndSync_inv in H2 as (_ & _ & evs & Htr & Hevs).
    assert (trace s2 = trace s ++ (fetch <$> take n bs) ++ evs)
      by by rewrite Htr, Hn, <-app_assoc.
    assert (Forall (λ e, isProcessEvent e = true) ((fetch <$> take n bs) ++ evs)).
    { apply Forall_app. split; [done|]. eapply Forall_impl; [exact Hevs|].
      intros e He. unfold isProcessEvent. rewrite He. by destruct (isGetValues e). }
    destruct err; intros [= <- <-]; eauto.
Qed.

Lemma Monitor_process_run t b s changed err s1 :
  process t [b] s = Some ((changed, err), s1) →
  ∃ s', Monitor_process t b s = Some (tt, s')
    ∧ heap s' = heap s1
    ∧ (if changed && bool_decide (err = None)
       then trace s' = trace s1 ++ [EvReloadCall; EvReloadReturn]
            ∧ world s' = (Reload (world s1)).2
            ∧ log s' = log s1 ++ match (Reload (world s1)).1 with
                                 | Some e => [errorEntry t e]
                                 | None => []
                                 end
       else trace s' = trace s1 ∧ world s' = world s1).
Proof.
  intros Hrun. unfold Monitor_process. rewrite bind_run, Hrun.
  destruct err as [e|].
  - rewrite andb_false_r. destruct e; eexists; (split; [done|]); done.
  - destruct changed; cbn [andb].
    + rewrite bool_decide_true by done. rewrite bind_run. unfold callReload.
      rewrite !bind_run. unfold call at 1.
      destruct (Reload (world s1)) as [[e|] w] eqn:HR; cbn;
        eexists; (split; [done|]); cbn; rewrite <-?app_assoc, ?app_nil_r; done.
    + eexists. split; [done|]. done.
Qed.

Lemma process_wf t bs s r s' :
  wf t s → Forall (usable t s) bs → process t bs s = Some (r, s') → wf t s'.
Proof.
  intros Hwf Hbs Hrun.
  destruct (process_spec t bs s Hwf Hbs) as (r1 & s1 & n & evs & Hrun1 & Hwf1 & _).
  congruence.
Qed.

Lemma Monitor_process_wf t b s u s' :
  wf t s → b ∈ backends t → Monitor_process t b s = Some (u, s') → wf t s'.
Proof.
  intros Hwf Hb Hrun.
  assert (Hbs : Forall (usable t s) [b]).
  { constructor; [|done]. by apply (proj1 (Forall_forall _ _) (wf_usable _ _ Hwf)). }
  destruct (process_spec t [b] s Hwf Hbs) as ([ch err] & s1 & n & evs & Hrun1 & Hwf1 & _).
  destruct (Monitor_process_run t b s ch err s1 Hrun1) as (s2 & Hrun2 & Hh & _).
  assert (s' = s2) as -> by congruence.
  eapply wf_dom; [|exact Hwf1]. by rewrite Hh.
Qed.

Local Arguments process : simpl never.
Local Arguments Monitor_process : simpl never.
Local Arguments Int63n : simpl never.

Ltac step_inv H :=
  unfold step, stepMain, stepRetry, Monitor_retry, Monitor_start, Monitor_return, run,
    canReceive, logRetryError, logAt, call in H;
  cbn in H; repeat (case_match; simplify_eq/=; try done); simplify_eq/=.

Lemma wf_withFailed f t s : wf t s → wf (withFailed f t) s.
Proof. by intros []. Qed.

(** The first move of the retry goroutine: the draw and the log line. *)
Lemma retryDraw_run t s :
  (rn ← draw 30;
   logAt ErrorLevel (logger t)
     ("not all templates could be rendered, trying again after "
        +:+ pretty rn +:+ " seconds");;
   mret rn) s
  = Some ((Int63n 30 (world s)).1,
          {| heap := heap s;
             log := log s ++ [ {| level := ErrorLevel; fields := logger t;
                                  message := "not all templates could be rendered, trying again after "
                                             +:+ pretty (Int63n 30 (world s)).1 +:+ " seconds" |} ];
             trace := trace s; world := (Int63n 30 (world s)).2 |}).
Proof.
  rewrite bind_run. unfold draw. destruct (Int63n 30 (world s)) as [rn w]. done.
Qed.

Lemma Inv_enter t s : wf t s → Inv t (Monitor_enter t s).
Proof.
  intros Hwf. split; cbn; try done; try lia.
  by apply wf_withFailed.
Qed.

Ltac solve_wf Hwf :=
  repeat apply wf_withFailed;
  first
    [ exact Hwf
    | by (eapply wf_dom; [|exact Hwf])
    | match goal with
      | H : process _ _ _ = Some _ |- wf _ _ =>
          eapply wf_dom; [|eapply process_wf; [exact Hwf|by apply wf_usable|exact H]]; done
      | H : Monitor_process _ _ _ = Some _, H' : _ && _ = true |- wf _ _ =>
          eapply Monitor_process_wf; [exact Hwf| |exact H];
          apply andb_true_iff in H' as [_ H']; by apply bool_decide_eq_true in H'
      end ].

Lemma Inv_step t0 x c c' : Inv t0 c → step x c = Some c' → Inv t0 c'.
Proof.
  intros [Hwf Hbs Hle Hpend Hdelay HA] Hstep.
  destruct c as [r st p cd rc rs sd wt wk]. cbn in *.
  destruct x.
  6: { step_inv Hstep. split; cbn; try done. intros Hp. destruct (HA Hp) as (? & ? & ?). congruence. }
  5: { step_inv Hstep; (split; cbn; [try solve_wf Hwf|try done..]).
       all: intros Hp; destruct (HA Hp) as (? & ? & ?); congruence. }
  4: { unfold step, stepRetry in Hstep. cbn [retries res state ctxDone retryChan] in Hstep.
       destruct (rs !! i) as [g|] eqn:Hg; [|done].
       assert (Hlen : length rs = 1%nat ∧ rc = 0%nat).
       { apply lookup_lt_Some in Hg. lia. }
       destruct Hlen as [Hlen ->].
       destruct g as [|rn|].
       - unfold run in Hstep. cbn [state] in Hstep. rewrite retryDraw_run in Hstep.
         simplify_eq/=. split; cbn; rewrite ?length_insert; try done.
         + by eapply wf_dom; [|exact Hwf].
         + apply Forall_insert; [done|]. intros rn [= <-]. by apply Int63n_bound.
       - destruct cd; simplify_eq/=; (split; cbn; rewrite ?length_insert; try done).
         + rewrite length_delete by eauto. lia.
         + by apply Forall_delete.
         + by apply Forall_insert.
       - simplify_eq/=. split; cbn; try done.
         + rewrite length_delete by eauto. lia.
         + rewrite length_delete by eauto. lia.
         + by apply Forall_delete. }
  3: { step_inv Hstep; (split; cbn; [try solve_wf Hwf|try done..]). }
  1: { step_inv Hstep. split; cbn; try done. }
  step_inv Hstep; (split; cbn -[process Monitor_process]; [try solve_wf Hwf|try done..]);
    rewrite ?length_app; cbn [length]; try lia.
  all: try (apply Forall_app; split; [done|]; by repeat constructor).
Qed.

Lemma steps_Inv t0 xs : ∀ c c', Inv t0 c → steps xs c = Some c' → Inv t0 c'.
Proof.
  induction xs as [|x xs IH]; intros c c' HI Hrun; [by injection Hrun as <-|].
  cbn [steps] in Hrun. destruct (step x c) as [c1|] eqn:Hx; [|done].
  eapply IH; [|done]. by eapply Inv_step.
Qed.

Lemma processEvent_not_reload evs :
  Forall (λ e, isProcessEvent e = true) evs →
  filter (λ e, isReload e = true) evs = [] ∧ filter (λ e, isStopChild e = true) evs = [].
Proof.
  induction 1 as [|e evs He _ [IH1 IH2]]; [done|].
  rewrite !filter_cons, IH1, IH2. by destruct e.
Qed.

Lemma Monitor_process_events t b s u s' :
  Monitor_process t b s = Some (u, s') →
  ∃ evs, Forall (λ e, isProcessEvent e = true) evs
    ∧ (trace s' = trace s ++ evs ∨ trace s' = trace s ++ evs ++ [EvReloadCall; EvReloadReturn]).
Proof.
  intros Hrun.
  destruct (process t [b] s) as [[[ch err] s1]|] eqn:Hp.
  2:{ unfold Monitor_process in Hrun. by rewrite bind_run, Hp in Hrun. }
  destruct (process_inv _ _ _ _ _ Hp) as (evs & Htr & Hevs).
  destruct (Monitor_process_run t b s ch err s1 Hp) as (s2 & Hrun2 & _ & Hcase).
  assert (s' = s2) as -> by congruence.
  exists evs. split; [done|].
  destruct (ch && bool_decide (err = None)).
  - right. destruct Hcase as (-> & _). by rewrite Htr, <-app_assoc.
  - left. destruct Hcase as (-> & _). done.
Qed.

Lemma step_events x c c' :
  step x c = Some c' →
  ∃ evs, trace (state c') = trace (state c) ++ evs
    ∧ (filter (λ e, isReload e = true) evs = []
       ∨ filter (λ e, isReload e = true) evs = [EvReloadCall; EvReloadReturn])
    ∧ (stopDeferred c = false → filter (λ e, isStopChild e = true) evs = []).
Proof.
  intros Hstep. destruct c as [r st p cd rc rs sd wt wk]. cbn in *.
  destruct x.
  4: { unfold step, stepRetry in Hstep. cbn [retries res state ctxDone retryChan] in Hstep.
       destruct (rs !! i) as [[|rn|]|]; [| | |done].
       - unfold run in Hstep. cbn [state] in Hstep. rewrite retryDraw_run in Hstep.
         simplify_eq/=. exists []. rewrite app_nil_r. auto.
       - destruct cd; simplify_eq/=; exists []; rewrite app_nil_r; auto.
       - destruct rc; simplify_eq/=. exists []. rewrite app_nil_r. auto. }
  all: step_inv Hstep; cbn -[process Monitor_process].
  all: try (exists []; rewrite app_nil_r; by auto).
  all: try (eexists [_]; split; [done|]; split; [by left|done]).
  all: try match goal with
    | H : process _ _ _ = Some _ |- _ =>
        destruct (process_inv _ _ _ _ _ H) as (evs & -> & Hevs);
        destruct (processEvent_not_reload _ Hevs) as [HR HS]
    end.
  1-3: by (exists evs; auto).
  1-2: by (exists (evs ++ [EvSpawnChild]);
           rewrite app_assoc, !filter_app, HR, HS; cbn; auto).
  match goal with
  | H : Monitor_process _ _ _ = Some _ |- _ =>
      destruct (Monitor_process_events _ _ _ _ _ H) as (evs & Hevs & [-> | ->]);
      destruct (processEvent_not_reload _ Hevs) as [HR HS]
  end.
  - exists evs. auto.
  - exists (evs ++ [EvReloadCall; EvReloadReturn]).
    rewrite !filter_app, HR, HS. cbn. auto.
Qed.

Lemma concat_replicate_snoc {A} n (x : list A) :
  concat (replicate n x) ++ x = concat (replicate (S n) x).
Proof. by rewrite replicate_S_end, concat_app; cbn; rewrite app_nil_r. Qed.

Lemma steps_app xs ys c :
  steps (xs ++ ys) c = steps xs c ≫= steps ys.
Proof.
  revert c. induction xs as [|x xs IH]; intros c; [done|].
  cbn [app steps]. destruct (step x c); [apply IH|done].
Qed.

Lemma steps_events xs : ∀ c c',
  steps xs c = Some c' →
  ∃ evs n, trace (state c') = trace (state c) ++ evs
    ∧ filter (λ e, isReload e = true) evs = concat (replicate n [EvReloadCall; EvReloadReturn]).
Proof.
  induction xs as [|x xs IH]; intros c c' Hrun.
  - injection Hrun as <-. exists [], 0%nat. by rewrite app_nil_r.
  - cbn [steps] in Hrun. destruct (step x c) as [c1|] eqn:Hx; [|done].
    destruct (step_events _ _ _ Hx) as (evs1 & Htr1 & Hr1 & _).
    destruct (IH _ _ Hrun) as (evs & n & Htr & Hr).
    destruct Hr1 as [Hr1|Hr1].
    + exists (evs1 ++ evs), n. rewrite Htr, Htr1, <-app_assoc, filter_app, Hr1. done.
    + exists (evs1 ++ evs), (S n). rewrite Htr, Htr1, <-app_assoc, filter_app, Hr1, Hr. done.
Qed.

(** C2: when the main loop of [Monitor] receives a backend on
    [processChan], it calls [exec.Reload()] if and only if [process] of
    that backend returned [changed] and no error; the call comes after
    every call [process] made; a failure of [Reload] is logged and the
    loop goes on in every case; and over the whole run each reload has
    returned before the next one is called. *)
Theorem reload_iff_changed t s xs c b c' :
  steps xs (Monitor_enter t s) = Some c →
  step (Main (CaseProcess b)) c = Some c' →
  ∃ changed err s1 pevs,
    process (res c) [b] (state c) = Some ((changed, err), s1)
    ∧ trace s1 = trace (state c) ++ pevs
    ∧ Forall (λ e, isProcessEvent e = true) pevs
    ∧ (if changed && bool_decide (err = None)
       then trace (state c') = trace s1 ++ [EvReloadCall; EvReloadReturn]
            ∧ log (state c') = log s1 ++ match (Reload (world s1)).1 with
                                         | Some e => [errorEntry (res c) e]
                                         | None => []
                                         end
       else trace (state c') = trace s1)
    ∧ pc c = AtMainSelect ∧ pc c' = AtMainSelect
    ∧ ∃ evs n, trace (state c') = trace s ++ evs
        ∧ filter (λ e, isReload e = true) evs
          = concat (replicate n [EvReloadCall; EvReloadReturn]).
Proof.
  intros Hreach Hstep.
  assert (Hall : steps (xs ++ [Main (CaseProcess b)]) (Monitor_enter t s) = Some c').
  { rewrite steps_app, Hreach. cbn [mbind option_bind steps]. by rewrite Hstep. }
  apply steps_events in Hall as (evs & n & Hevs & Hn).
  cbn [step] in Hstep. unfold stepMain in Hstep.
  destruct (pc c) eqn:Hpc; try done.
  match type of Hstep with context [if ?b then _ else _] => destruct b; [|done] end.
  unfold run in Hstep.
  destruct (Monitor_process (res c) b (state c)) as [[[] s2]|] eqn:Hmp; [|done].
  injection Hstep as <-.
  destruct (process (res c) [b] (state c)) as [[[ch err] s1]|] eqn:Hp.
  2:{ unfold Monitor_process in Hmp. by rewrite bind_run, Hp in Hmp. }
  destruct (process_inv _ _ _ _ _ Hp) as (pevs & Htr & Hpevs).
  destruct (Monitor_process_run _ _ _ _ _ _ Hp) as (s2' & Hmp' & _ & Hcase).
  assert (s2' = s2) as -> by congruence.
  exists ch, err, s1, pevs. split_and!; try done.
  - cbn. destruct (ch && bool_decide (err = None)); [|by destruct Hcase].
    by destruct Hcase as (? & _ & ?).
  - by exists evs, n.
Qed.

Lemma Monitor_retry_total c :
  wf (res c) (state c) → is_Some (Monitor_retry c).
Proof.
  intros Hwf. unfold Monitor_retry, run.
  destruct (process_spec _ _ _ Hwf (wf_usable _ _ Hwf)) as ([ch err] & s1 & _ & _ & -> & _).
  destruct err as [err|].
  - unfold logRetryError. destruct err; cbn; eauto.
  - unfold Monitor_start, run, call. cbn.
    destruct (SpawnChild (world s1)) as [[e|] w]; cbn; eauto.
Qed.

(** The retry goroutine, left alone, puts its value on [retryChan]. *)
Lemma retry_goroutine_sends c g :
  retries c = [g] → retryChan c = 0%nat → ctxDone c = false →
  ∃ ys c1, Forall isRetryStep ys ∧ steps ys c = Some c1
    ∧ retryChan c1 = 1%nat ∧ pc c1 = pc c.
Proof.
  intros Hg Hrc Hcd. destruct c as [r st p cd rc rs sd wt wk]. cbn in *. subst.
  assert (Hsend : ∀ st', ∃ c1,
    steps [Retry 0] {| res := r; state := st'; pc := p; ctxDone := false; retryChan := 0;
                       retries := [RetrySending]; stopDeferred := sd; waiting := wt;
                       workers := wk |} = Some c1
    ∧ retryChan c1 = 1%nat ∧ pc c1 = p).
  { intros st'. eexists. split; [reflexivity|]. done. }
  assert (Hsleep : ∀ st' rn, ∃ c1,
    steps [Retry 0; Retry 0]
      {| res := r; state := st'; pc := p; ctxDone := false; retryChan := 0;
         retries := [RetrySleeping rn]; stopDeferred := sd; waiting := wt;
         workers := wk |} = Some c1
    ∧ retryChan c1 = 1%nat ∧ pc c1 = p).
  { intros st' rn. eexists. split; [reflexivity|]. done. }
  destruct g as [|rn|].
  - exists [Retry 0; Retry 0; Retry 0].
    destruct (Hsleep
      {| heap := heap st;
         log := log st ++ [ {| level := ErrorLevel; fields := logger r;
                               message := "not all templates could be rendered, trying again after "
                                          +:+ pretty (Int63n 30 (world st)).1 +:+ " seconds" |} ];
         trace := trace st; world := (Int63n 30 (world st)).2 |}
      (Int63n 30 (world st)).1) as (c1 & Hrun & ? & ?).
    exists c1. split; [repeat constructor; by eexists|]. split; [|done].
    cbn [steps step stepRetry retries lookup list_lookup]. unfold run. cbn [state res].
    rewrite retryDraw_run. exact Hrun.
  - destruct (Hsleep st rn) as (c1 & Hrun & ? & ?).
    exists [Retry 0; Retry 0], c1. split; [repeat constructor; by eexists|]. done.
  - destruct (Hsend st) as (c1 & Hrun & ? & ?).
    exists [Retry 0], c1. split; [repeat constructor; by eexists|]. done.
Qed.

Lemma Cancelled_step tr h y c c' :
  Cancelled tr h c → step y c = Some c' →
  Cancelled tr h c' ∧ y ≠ Main CaseRetry ∧ ∀ b, y ≠ Main (CaseProcess b).
Proof.
  intros [Hcd Hrc Hrs Hpc Hsd Hwt Hwk Htr Hh] Hstep.
  destruct c as [r st p cd rc rs sd wt wk]. cbn in *. subst.
  destruct y.
  4: { split; [|done]. unfold step, stepRetry in Hstep.
       cbn [retries res state ctxDone retryChan] in Hstep.
       destruct Hrs as [->|[->|[rn ->]]]; [done| |].
       - destruct i as [|i]; [|done]. cbn [lookup list_lookup] in Hstep.
         unfold run in Hstep. cbn [state] in Hstep. rewrite retryDraw_run in Hstep.
         simplify_eq/=. split; cbn; eauto.
       - destruct i as [|i]; [|done]. simplify_eq/=. split; cbn; eauto. }
  all: destruct Hpc as [-> | ->]; step_inv Hstep.
  all: split; [|done]; split; cbn; eauto.
Qed.

Lemma Cancelled_steps tr h ys : ∀ c c',
  Cancelled tr h c → steps ys c = Some c' →
  Cancelled tr h c' ∧ ∀ y, y ∈ ys → y ≠ Main CaseRetry ∧ ∀ b, y ≠ Main (CaseProcess b).
Proof.
  induction ys as [|y ys IH]; intros c c' HC Hrun.
  - injection Hrun as <-. split; [done|]. by intros y ?%elem_of_nil.
  - cbn [steps] in Hrun. destruct (step y c) as [c1|] eqn:Hy; [|done].
    destruct (Cancelled_step _ _ _ _ _ HC Hy) as (HC1 & Hy1 & Hy2).
    destruct (IH _ _ HC1 Hrun) as [HC' Hys]. split; [done|].
    intros y' [->|Hin]%elem_of_cons; [done|by apply Hys].
Qed.

(** C5: when the context is cancelled while the retry goroutine has
    not finished its sleep, whatever happens next, no [process] is called
    any more, neither the trace nor the stores change, and [Monitor] has
    returned or its only possible move is to return through
    [<-ctx.Done()]. *)
Theorem cancel_during_retry_delay t s xs c g ys c' :
  wf t s →
  steps xs (Monitor_enter t s) = Some c →
  pc c = AtRetrySelect →
  retries c = [g] → (g = RetryStarted ∨ ∃ rn, g = RetrySleeping rn) →
  steps (Cancel :: ys) c = Some c' →
  (∀ y, y ∈ ys → y ≠ Main CaseRetry ∧ ∀ b, y ≠ Main (CaseProcess b))
  ∧ trace (state c') = trace (state c)
  ∧ heap (state c') = heap (state c)
  ∧ (pc c' = Returned
     ∨ pc c' = AtRetrySelect
       ∧ (∀ sel, is_Some (step (Main sel) c') → sel = CaseCtxDone)
       ∧ ∃ c'', step (Main CaseCtxDone) c' = Some c'' ∧ pc c'' = Returned
                ∧ trace (state c'') = trace (state c)).
Proof.
  intros Hwf Hreach Hpc Hrs Hg Hrun.
  assert (HI : Inv t c) by (eapply steps_Inv; [by apply Inv_enter|done]).
  destruct HI as [_ _ Hle _ _ HA]. destruct (HA Hpc) as (Hsd & Hwt & Hwk).
  rewrite Hrs in Hle. cbn in Hle.
  assert (HC : Cancelled (trace (state c)) (heap (state c)) (cancel c)).
  { split; cbn; try done; [lia| |by left].
    rewrite Hrs. destruct Hg as [->|[rn ->]]; eauto. }
  cbn [steps step] in Hrun.
  destruct (Cancelled_steps _ _ _ _ _ HC Hrun) as [HC' Hys].
  destruct HC' as [Hcd' Hrc' Hrs' Hpc' Hsd' Hwt' Hwk' Htr' Hh'].
  split_and!; [done..|].
  destruct Hpc' as [Hpc'|Hpc']; [right|by left].
  split; [done|]. split.
  - intros sel [c'' Hsel]. cbn [step] in Hsel. unfold stepMain in Hsel.
    rewrite Hpc', Hrc' in Hsel. by destruct sel.
  - cbn [step]. unfold stepMain, Monitor_return. rewrite Hpc', Hcd', Hsd'.
    eexists. split; [done|]. done.
Qed.



Lemma workers_return n : ∀ c,
  workers c = n → steps (replicate n WorkerReturns) c = Some (withWorkers 0 c).
Proof.
  induction n as [|n IH]; intros c Hn.
  - cbn. destruct c. cbn in Hn. by subst.
  - cbn [replicate steps step]. rewrite Hn. rewrite IH by done. by destruct c.
Qed.


Lemma shutdown_path c :
  pc c = AtMainSelect → ctxDone c = true → stopDeferred c = false → waiting c = true →
  ∃ c2, steps (ChildWait false :: replicate (workers c) WorkerReturns
               ++ [Main CaseCtxDone; WaitReturns]) c = Some c2
    ∧ pc c2 = Returned ∧ res c2 = res c ∧ state c2 = state c.
Proof.
  intros Hpc Hcd Hsd Hwt. destruct c as [r st p cd rc rs sd wt wk]. cbn in *. subst.
  cbn [steps step waiting]. rewrite steps_app.
  rewrite workers_return by done. eexists. split; [reflexivity|]. done.
Qed.

End MonitorFacts.

(** ** The retry loop, move by move *)

Section RetryFacts.
Context {W : Type} `{!StoreClient W, !RendererOps W, !Executor W, !Rand W}.
Implicit Types (s : State W) (t : Resource) (b : Backend) (c : @Config W).

Local Arguments process : simpl never.
Local Arguments Monitor_process : simpl never.
Local Arguments Int63n : simpl never.

(** The case [<-retryChan]: what it needs, and what it leaves. *)
Lemma retry_case c c' :
  step (Main CaseRetry) c = Some c' →
  pc c = AtRetrySelect ∧ (0 < retryChan c)%nat
  ∧ ∃ changed err s1,
      process (res c) (backends (res c)) (state c) = Some ((changed, err), s1)
      ∧ match err with
        | Some e =>
            state c' = addLog (retryErrorEntry (res c) e) s1
            ∧ res c' = res c ∧ pc c' = AtRetrySelect
            ∧ retryChan c' = pred (retryChan c)
            ∧ retries c' = retries c ++ [RetryStarted]
            ∧ ctxDone c' = ctxDone c
        | None =>
            pc c' = AtMainSelect
            ∧ heap (state c') = heap s1
            ∧ trace (state c') = trace s1 ++ [EvSpawnChild]
        end.
Proof.
  intros Hstep. cbn [step] in Hstep. unfold stepMain in Hstep.
  destruct (pc c) eqn:Hpc; try done.
  destruct (retryChan c) as [|n] eqn:Hrc; [done|].
  split; [done|]. split; [lia|].
  unfold Monitor_retry, run in Hstep. cbn [state res withRetryChan] in Hstep.
  destruct (process (res c) (backends (res c)) (state c)) as [[[ch err] s1]|]; [|done].
  exists ch, err, s1. split; [done|]. destruct err as [err|].
  - unfold logRetryError, logAt in Hstep.
    destruct err; simplify_eq/=; done.
  - unfold Monitor_start, run, call in Hstep. cbn in Hstep.
    destruct (SpawnChild (world s1)) as [[e|] w]; simplify_eq/=; done.
Qed.

(** The moves of the goroutine of lines 266-276. *)
Lemma retry_move i g c c' :
  retries c !! i = Some g → step (Retry i) c = Some c' →
  pc c' = pc c ∧ res c' = res c ∧ ctxDone c' = ctxDone c
  ∧ match g with
    | RetryStarted =>
        let d := Int63n 30 (world (state c)) in
        retries c' = <[i := RetrySleeping d.1]> (retries c)
        ∧ retryChan c' = retryChan c
        ∧ state c' = {| heap := heap (state c);
                        log := log (state c) ++ [retryDelayEntry (res c) d.1];
                        trace := trace (state c); world := d.2 |}
    | RetrySleeping rn =>
        state c' = state c ∧ retryChan c' = retryChan c
        ∧ retries c' = (if ctxDone c then delete i (retries c)
                        else <[i := RetrySending]> (retries c))
    | RetrySending =>
        state c' = state c ∧ retryChan c = 0%nat ∧ retryChan c' = 1%nat
        ∧ retries c' = delete i (retries c)
    end.
Proof.
  intros Hg Hstep. unfold step, stepRetry in Hstep. rewrite Hg in Hstep.
  destruct g as [|rn|].
  - unfold run in Hstep. rewrite retryDraw_run in Hstep. by simplify_eq/=.
  - destruct (ctxDone c) eqn:Hcd; simplify_eq/=; by rewrite ?Hcd.
  - destruct (retryChan c) eqn:Hrc; simplify_eq/=; done.
Qed.

(** A value comes on [retryChan] by the send of a retry goroutine only. *)
Lemma retryChan_grows x c c' :
  step x c = Some c' → (retryChan c < retryChan c')%nat →
  ∃ i, x = Retry i ∧ retries c !! i = Some RetrySending.
Proof.
  intros Hstep Hlt. destruct x.
  4: { exists i. split; [done|]. unfold step, stepRetry in Hstep.
       destruct (retries c !! i) as [[|rn|]|] eqn:Hg; [| |done|done]; exfalso.
       - destruct (retry_move i _ c c' Hg) as (_ & _ & _ & _ & Hrc & _).
         { unfold step, stepRetry. by rewrite Hg. }
         lia.
       - destruct (retry_move i _ c c' Hg) as (_ & _ & _ & _ & Hrc & _).
         { unfold step, stepRetry. by rewrite Hg. }
         lia. }
  all: exfalso; destruct c as [r st p cd rc rs sd wt wk];
    unfold step, stepMain, Monitor_retry, Monitor_start, Monitor_return, run,
      canReceive, logRetryError, logAt, call in Hstep;
    cbn in Hstep; repeat (case_match; simplify_eq/=; try done); simplify_eq/=; lia.
Qed.

(** C4: in every configuration [Monitor] reaches on a constructed
    resource the backends are those it was given, and: the case
    [<-retryChan] of the retry loop runs [process] over all of them, and
    when [process] fails it logs the error on the state [process] left,
    starts one retry goroutine and is back at its select with [retryChan]
    empty; the goroutine passes over the values of the source above
    [acceptedMax 30], logs and sleeps the first accepted value modulo 30,
    a delay in [0, 30), and after its sleep returns if the context is
    cancelled and sends otherwise; a value comes on [retryChan] by this
    send only, so not before the draw and the sleep; the accepted values
    fall evenly on the 30 delays, so that a uniform source gives a uniform
    delay; and as long as the loop runs and the context is not cancelled
    exactly one retry is pending and leads to the next [process] over all
    the backends: no number of failures ends the retries. *)
Theorem retry_with_all_backends t s xs c :
  wf t s →
  steps xs (Monitor_enter t s) = Some c →
  backends (res c) = backends t
  ∧ Forall (λ g, ∀ rn, g = RetrySleeping rn → (0 ≤ rn < 30)%Z) (retries c)
  ∧ (∀ c', step (Main CaseRetry) c = Some c' →
       pc c = AtRetrySelect ∧ retryChan c = 1%nat ∧ retries c = []
       ∧ ∃ changed err s1 n evs,
           process (res c) (backends t) (state c) = Some ((changed, err), s1)
           ∧ (0 < n)%nat
           ∧ trace s1 = trace (state c) ++ (fetch <$> take n (backends t)) ++ evs
           ∧ Forall (λ e, isRender e = true) evs
           ∧ ∀ e, err = Some e →
               state c' = addLog (retryErrorEntry (res c) e) s1
               ∧ res c' = res c ∧ pc c' = AtRetrySelect ∧ ctxDone c' = ctxDone c
               ∧ retryChan c' = 0%nat ∧ retries c' = [RetryStarted])
  ∧ (∀ i g c', retries c !! i = Some g → step (Retry i) c = Some c' →
       i = 0%nat ∧ retries c = [g] ∧ retryChan c = 0%nat
       ∧ pc c' = pc c ∧ res c' = res c ∧ ctxDone c' = ctxDone c
       ∧ match g with
         | RetryStarted =>
             ∃ k v,
               (∀ j, (j < k)%nat → (acceptedMax 30 < (nthDraw j (world (state c))).1)%Z)
               ∧ v = (nthDraw k (world (state c))).1
               ∧ (0 ≤ v ≤ acceptedMax 30)%Z ∧ (0 ≤ v `mod` 30 < 30)%Z
               ∧ retries c' = [RetrySleeping (v `mod` 30)]
               ∧ retryChan c' = 0%nat
               ∧ state c' = {| heap := heap (state c);
                               log := log (state c)
                                        ++ [retryDelayEntry (res c) (v `mod` 30)];
                               trace := trace (state c);
                               world := (nthDraw k (world (state c))).2 |}
         | RetrySleeping rn =>
             (0 ≤ rn < 30)%Z ∧ state c' = state c ∧ retryChan c' = 0%nat
             ∧ retries c' = (if ctxDone c then [] else [RetrySending])
         | RetrySending =>
             state c' = state c ∧ retryChan c' = 1%nat ∧ retries c' = []
         end)
  ∧ (∀ x c', step x c = Some c' → (retryChan c < retryChan c')%nat →
       ∃ i, x = Retry i ∧ retries c !! i = Some RetrySending)
  ∧ (∀ r v, (0 ≤ r < 30)%Z →
       (0 ≤ v ≤ acceptedMax 30 ∧ v `mod` 30 = r)%Z
       ↔ ∃ q, (0 ≤ q < (acceptedMax 30 + 1) `div` 30)%Z ∧ v = (30 * q + r)%Z)
  ∧ (pc c = AtRetrySelect → ctxDone c = false →
       (retryChan c + length (retries c) = 1)%nat
       ∧ ∃ ys c1, Forall isRetryStep ys ∧ steps ys c = Some c1
           ∧ is_Some (step (Main CaseRetry) c1)).
Proof.
  intros Hwf Hreach.
  assert (HI : Inv t c) by (eapply steps_Inv; [by apply Inv_enter|done]).
  pose proof HI as [Hwfc Hbs Hle Hpend Hdelay HA].
  split; [done|]. split; [done|]. split; [|split; [|split; [|split]]].
  - intros c' Hstep.
    destruct (retry_case c c' Hstep) as (Hpc & Hrc & ch & err & s1 & Hrun & Hout).
    assert (Hrs : retryChan c = 1%nat ∧ retries c = []).
    { destruct (retries c); [split; [lia|done]|]. cbn in Hle. lia. }
    destruct Hrs as [Hrc1 Hrs]. split_and!; [done..|].
    rewrite Hbs in Hrun.
    destruct (process_spec (res c) (backends t) (state c) Hwfc)
      as (r' & s' & n & evs & Hrun' & _ & Htr & Hevs & Hn).
    { rewrite <-Hbs. by apply wf_usable. }
    rewrite Hrun in Hrun'. injection Hrun' as <- <-.
    exists ch, err, s1, n, evs. split_and!; [done| |done|done|].
    { apply Hn. rewrite <-Hbs. by destruct Hwfc. }
    intros e ->. destruct Hout as (Hst & Hres & Hpc' & Hrc' & Hrs' & Hcd').
    rewrite Hrc1 in Hrc'. rewrite Hrs in Hrs'. by split_and!.
  - intros i g c' Hg Hstep.
    assert (Hlen : i = 0%nat ∧ retries c = [g] ∧ retryChan c = 0%nat).
    { pose proof (lookup_lt_Some _ _ _ Hg) as Hlt.
      destruct (retries c) as [|g0 [|??]] eqn:Hrs; cbn in Hlt, Hle; try lia.
      destruct i as [|i]; [|cbn in Hlt; lia]. injection Hg as ->.
      split_and!; [done..|lia]. }
    destruct Hlen as (-> & Hrs & Hrc).
    destruct (retry_move 0 g c c' Hg Hstep) as (Hpc' & Hres' & Hcd' & Hmove).
    split_and!; [done..|]. rewrite Hrs in Hmove, Hdelay. destruct g as [|rn|].
    + destruct (Int63n_spec 30 (world (state c))) as (k & Hrej & Hacc & Hd); [lia|done|].
      cbn zeta in Hmove. rewrite Hd in Hmove. cbn [fst snd] in Hmove.
      destruct Hmove as (Hrs' & Hrc' & Hst').
      exists k, (nthDraw k (world (state c))).1.
      repeat (split; [first [done|lia|congruence|by apply Z.mod_pos_bound]|]).
      done.
    + destruct Hmove as (Hst' & Hrc' & Hrs').
      split; [apply Forall_cons in Hdelay as [Hrn _]; by apply Hrn|].
      split; [done|]. split; [congruence|].
      rewrite Hrs'. by destruct (ctxDone c).
    + destruct Hmove as (Hst' & _ & Hrc' & Hrs'). by split_and!.
  - intros x c'. apply retryChan_grows.
  - intros r v Hr. by apply Int63n_classes.
  - intros Hpc Hcd. split; [by apply Hpend|].
    specialize (Hpend Hpc Hcd).
    assert (Hgo : ∀ c1, Inv t c1 → pc c1 = AtRetrySelect → retryChan c1 = 1%nat →
                        is_Some (step (Main CaseRetry) c1)).
    { intros c1 HI1 Hpc1 Hrc1. cbn [step]. unfold stepMain. rewrite Hpc1, Hrc1.
      apply Monitor_retry_total. by destruct HI1. }
    destruct (retryChan c) as [|n] eqn:Hrc.
    + destruct (retries c) as [|g [|??]] eqn:Hrs; cbn in Hpend; try lia.
      destruct (retry_goroutine_sends c g Hrs Hrc Hcd) as (ys & c1 & Hys & Hrun & Hrc1 & Hpc1).
      exists ys, c1. split_and!; [done..|]. apply Hgo; [|congruence|done].
      eapply steps_Inv; [exact HI|exact Hrun].
    + exists [], c. split_and!; [done..|]. apply Hgo; [exact HI|done|].
      destruct (retries c); cbn in Hpend; lia.
Qed.
End RetryFacts.

(** ** More on the construction and on [Close] *)

Section ConstructionMore.
Context {W : Type} `{!StoreClient W, !RendererOps W, !Executor W, !Rand W}.
Implicit Types (s : State W) (t : Resource) (b : Backend).

Lemma checkSources_None l tmpl :
  checkSources l tmpl = None ↔ Exists (λ r, Src r = EmptyString) tmpl.
Proof.
  induction tmpl as [|r tmpl IH]; cbn [checkSources].
  - split; [done|]. by intros ?%Exists_nil.
  - rewrite Exists_cons. destruct (decide (Src r = EmptyString)) as [He|He].
    + split; auto.
    + destruct (checkSources l tmpl) as [rs|]; cbn.
      * split; [done|]. intros [?|H]; [done|]. by apply IH in H.
      * split; [|done]. intros _. right. by apply IH.
Qed.

Lemma checkSources_Some l tmpl rs :
  checkSources l tmpl = Some rs → rs = withLogger l <$> tmpl.
Proof.
  revert rs. induction tmpl as [|r tmpl IH]; intros rs; cbn [checkSources].
  - by intros [= <-].
  - destruct (decide (Src r = EmptyString)); [done|].
    destruct (checkSources l tmpl) as [rs'|]; [|done]. cbn.
    intros [= <-]. by rewrite (IH rs').
Qed.

Lemma NewResource_cases bs tmpl name s :
  ∃ r s',
    NewResource bs tmpl name s = Some (r, s')
    ∧ match r with
      | (Some t, None) =>
          bs ≠ [] ∧ Forall (λ r, Src r ≠ EmptyString) tmpl
          ∧ sources t = withLogger {[ "resource" := name ]} <$> tmpl
          ∧ Failed t = false
      | (None, Some e) =>
          s' = s
          ∧ (bs = [] ∧ e = errorString "a valid StoreClient is required"
             ∨ bs ≠ [] ∧ Exists (λ r, Src r = EmptyString) tmpl ∧ e = ErrEmptySrc)
      | _ => False
      end.
Proof.
  unfold NewResource. destruct (decide (length bs = 0%nat)) as [Hlen|Hlen].
  { eexists _, _. split; [done|]. cbn. split; [done|]. left.
    split; [|done]. by destruct bs. }
  assert (Hbs : bs ≠ []) by (by intros ->).
  destruct (checkSources _ tmpl) as [rs|] eqn:Hcs.
  - rewrite bind_run. unfold new at 1. cbn beta iota zeta. rewrite bind_run.
    edestruct (initBackends_spec (W:=W) name bs) as (bs' & s2 & -> & _).
    eexists _, _. split; [done|]. cbn. split_and!; [done| |by apply checkSources_Some|done].
    apply Forall_forall. intros r Hr He.
    assert (Hex : Exists (λ r, Src r = EmptyString) tmpl).
    { apply Exists_exists. eauto. }
    apply (checkSources_None {[ "resource" := name ]}) in Hex. congruence.
  - eexists _, _. split; [done|]. cbn. split; [done|]. right.
    split_and!; [done| |done]. by eapply checkSources_None.
Qed.

(** X1: [NewResource] always returns, with a resource and no error or
    with an error and no resource. Without a backend the error is
    ["a valid StoreClient is required"], whatever the templates are; with
    a backend and a template whose [Src] is empty it is [ErrEmptySrc]; on
    an error the state is as it was. On success every template carries the
    logger of the resource, [Failed] is unset, the resource is a
    constructed one and no collaborator was called. *)
Theorem NewResource_outcome bs tmpl name s :
  ∃ r s',
    NewResource bs tmpl name s = Some (r, s')
    ∧ match r with
      | (Some t, None) =>
          bs ≠ [] ∧ Forall (λ r, Src r ≠ EmptyString) tmpl
          ∧ sources t = withLogger {[ "resource" := name ]} <$> tmpl
          ∧ Failed t = false
          ∧ wf t s' ∧ trace s' = trace s ∧ world s' = world s
      | (None, Some e) =>
          s' = s
          ∧ (bs = [] ∧ e = errorString "a valid StoreClient is required"
             ∨ bs ≠ [] ∧ Exists (λ r, Src r = EmptyString) tmpl ∧ e = ErrEmptySrc)
      | _ => False
      end.
Proof.
  destruct (NewResource_cases bs tmpl name s) as ([[t|] [e|]] & s' & Hrun & Hout); try done.
  - eexists (Some t, None), s'. split; [done|].
    destruct Hout as (? & ? & ? & ?).
    apply NewResource_ok in Hrun as (_ & _ & _ & ? & ? & _ & _ & ?). by split_and!.
  - by eexists (None, Some e), s'.
Qed.

Lemma initBackends_heap name bs : ∀ s bs' s',
  initBackends (W := W) {[ "resource" := name ]} bs s = Some (bs', s') →
  (∀ l, l ∈ dom (heap s) → heap s' !! l = heap s !! l)
  ∧ Forall (λ b', contents (heap s') (store b') = Some ∅) bs'.
Proof.
  induction bs as [|b bs IH]; intros s bs' s'.
  - intros [= <- <-]. by split.
  - cbn [initBackends]. rewrite bind_run. unfold new at 1. cbn beta iota zeta.
    set (l := fresh (dom (heap s))).
    assert (Hl : l ∉ dom (heap s)) by apply is_fresh.
    rewrite bind_run.
    set (s1 := setHeap (<[l := memkv.New]> (heap s)) s).
    set (s2 := if needsInterval (withStore (Some l) b)
               then addLog (intervalWarning name) s1 else s1).
    set (b1 := withStore (Some l) (upgraded b)).
    assert (Hstep : (if needsInterval (withStore (Some l) b)
                     then logAt WarningLevel {[ "resource" := name ]}
                            "interval needs to be > 0: setting interval to 60";;
                          mret (withInterval 60 (withStore (Some l) b))
                     else mret (withStore (Some l) b)) s1 = Some (b1, s2)).
    { unfold b1, s2, upgraded.
      assert (needsInterval (withStore (Some l) b) = needsInterval b) as -> by done.
      by destruct (needsInterval b). }
    rewrite Hstep, bind_run.
    destruct (initBackends _ bs s2) as [[bs1 s3]|] eqn:Hrest; [|done].
    intros [= <- <-].
    destruct (IH _ _ _ Hrest) as [Hold Hnew].
    assert (Hheap2 : heap s2 = <[l := memkv.New]> (heap s)).
    { unfold s2. by destruct (needsInterval _). }
    rewrite Hheap2 in Hold.
    assert (Hdom1 : dom (<[l := memkv.New]> (heap s)) = {[l]} ∪ dom (heap s))
      by apply dom_insert_L.
    split.
    + intros l0 Hl0. rewrite Hold by set_solver.
      apply lookup_insert_ne. set_solver.
    + constructor; [|done]. cbn. rewrite Hold by set_solver. apply lookup_insert_eq.
Qed.

Lemma NewResource_heap bs tmpl name s t err s' :
  NewResource bs tmpl name s = Some ((Some t, err), s') →
  (∀ l, l ∈ dom (heap s) → heap s' !! l = heap s !! l)
  ∧ contents (heap s') (rstore t) = Some ∅
  ∧ Forall (λ b, contents (heap s') (store b) = Some ∅) (backends t)
  ∧ (∃ l, rstore t = Some l ∧ l ∉ dom (heap s))
  ∧ Forall (λ b, ∃ l, store b = Some l ∧ l ∉ dom (heap s)) (backends t)
  ∧ NoDup (rstore t :: (store <$> backends t)).
Proof.
  unfold NewResource. destruct (decide (length bs = 0%nat)) as [|Hlen]; [done|].
  destruct (checkSources _ tmpl) as [srcs|]; [|done].
  rewrite bind_run. unfold new at 1. cbn beta iota zeta. rewrite bind_run.
  set (l := fresh (dom (heap s))).
  assert (Hl : l ∉ dom (heap s)) by apply is_fresh.
  set (s1 := setHeap (<[l := memkv.New]> (heap s)) s).
  destruct (initBackends_spec (W := W) name bs s1)
    as (bs' & s2 & Hrun & Htr & Hw & _ & _ & Hdom & Hfresh & Hnd).
  rewrite Hrun. intros [= <- <- <-]. cbn [backends rstore].
  destruct (initBackends_heap _ _ _ _ _ Hrun) as [Hold Hnew].
  cbn [heap s1 setHeap] in Hold, Hfresh, Hdom.
  assert (Hdom1 : dom (<[l := memkv.New]> (heap s)) = {[l]} ∪ dom (heap s))
    by apply dom_insert_L.
  split_and!; try done.
  - intros l0 Hl0. rewrite Hold by set_solver. apply lookup_insert_ne. set_solver.
  - cbn. rewrite Hold by set_solver. apply lookup_insert_eq.
  - by exists l.
  - eapply Forall_impl; [exact Hfresh|]. intros b' (l' & ? & _ & ?).
    exists l'. split; [done|]. set_solver.
  - apply NoDup_cons. split; [|done].
    intros Hin. apply list_elem_of_fmap in Hin as (b' & Hb' & Hin).
    rewrite Forall_forall in Hfresh. destruct (Hfresh b' Hin) as (l' & Hl' & _ & Hnot).
    assert (l' = l) as -> by congruence. set_solver.
Qed.

(** X2: the merged store and the store of every backend of a new
    resource are fresh allocations, empty and pairwise distinct, whatever
    store the backends were given with; the stores that existed before
    are untouched, and no collaborator is called. *)
Theorem NewResource_fresh_stores bs tmpl name s t err s' :
  NewResource bs tmpl name s = Some ((Some t, err), s') →
  (∀ l, l ∈ dom (heap s) → heap s' !! l = heap s !! l)
  ∧ contents (heap s') (rstore t) = Some ∅
  ∧ Forall (λ b, contents (heap s') (store b) = Some ∅) (backends t)
  ∧ (∃ l, rstore t = Some l ∧ l ∉ dom (heap s))
  ∧ Forall (λ b, ∃ l, store b = Some l ∧ l ∉ dom (heap s)) (backends t)
  ∧ NoDup (rstore t :: (store <$> backends t))
  ∧ trace s' = trace s ∧ world s' = world s.
Proof.
  intros Hrun. pose proof (NewResource_heap _ _ _ _ _ _ _ Hrun) as (? & ? & ? & ? & ? & ?).
  apply NewResource_ok in Hrun as (_ & _ & _ & ? & ? & _). by split_and!.
Qed.

Lemma mergeAll_empty ms : ∀ acc,
  Forall (λ m, m = ∅) ms → mergeAll acc ms = acc.
Proof.
  induction ms as [|m ms IH]; intros acc Hms; [done|].
  apply Forall_cons in Hms as [-> Hms]. rewrite mergeAll_cons, IH by done.
  apply (left_id_L ∅ (∪)).
Qed.

Lemma NewResource_consistent bs tmpl name s t err s' :
  NewResource bs tmpl name s = Some ((Some t, err), s') → consistent t s'.
Proof.
  intros Hrun. pose proof (NewResource_heap _ _ _ _ _ _ _ Hrun) as (_ & Hr & Hbs & _).
  unfold consistent. rewrite Hr. f_equal. symmetry. apply mergeAll_empty.
  unfold storesOf. induction Hbs as [|b bs' Hb _ IH]; [done|].
  cbn. rewrite Hb. by constructor.
Qed.

Lemma initBackends_clients name bs : ∀ s bs' s',
  initBackends (W := W) {[ "resource" := name ]} bs s = Some (bs', s') →
  client <$> bs' = client <$> bs.
Proof.
  intros s bs' s' Hrun.
  destruct (initBackends_spec (W := W) name bs s) as (bs1 & s1 & Hrun1 & _ & _ & _ & Hall & _).
  assert (bs1 = bs') as -> by congruence.
  clear -Hall. induction Hall as [|b b' bs bs' Hb _ IH]; [done|].
  rewrite !fmap_cons, IH, Hb. unfold upgraded. by destruct (needsInterval b).
Qed.

Lemma Resource_Close_run t : ∀ s,
  Resource_Close t s
  = Some (tt, {| heap := heap s; log := log s ++ (closing t <$> backends t);
                 trace := trace s ++ (EvClose ∘ client <$> backends t);
                 world := foldl (λ w v, Close (client v) w) (world s) (backends t) |}).
Proof.
  unfold Resource_Close. generalize (backends t) as bs.
  induction bs as [|v bs IH]; intros s.
  - cbn. rewrite !app_nil_r. by destruct s.
  - cbn [forEach]. rewrite bind_run, bind_run. cbn [logAt]. unfold call at 1.
    rewrite IH. cbn. by rewrite <-!app_assoc.
Qed.

(** X3: [NewResourceFromResourceConfig] always returns. When
    [ConnectAll] fails, its error comes back wrapped with
    ["connectAll failed"]: no store is allocated, nothing is logged and no
    connection is closed. When the resource is built, its backends are the
    connected ones, in order, with their new stores and the interval
    upgrade, every template carries the reap lock and the logger of the
    resource, and [ConnectAll] is the only call. When [NewResource] fails,
    the stores are as before and every connection is closed. *)
Theorem NewResourceFromResourceConfig_outcome reapLock r s :
  ∃ res err s',
    NewResourceFromResourceConfig reapLock r s = Some ((res, err), s')
    ∧ match ConnectAll (ResourceConfig.Connectors r) (world s), res, err with
      | (inr e, w1), None, Some err =>
          err = withMessage e "connectAll failed"
          ∧ heap s' = heap s ∧ log s' = log s
          ∧ trace s' = trace s ++ [EvConnectAll] ∧ world s' = w1
      | (inl bl, w1), Some t, None =>
          Forall2 (λ b b', b' = withStore (store b') (upgraded b)) bl (backends t)
          ∧ sources t = withLogger {[ "resource" := ResourceConfig.Name r ]}
                          <$> (withReapLock (Some reapLock) <$> ResourceConfig.Template r)
          ∧ trace s' = trace s ++ [EvConnectAll] ∧ world s' = w1
      | (inl bl, w1), None, Some err =>
          heap s' = heap s
          ∧ trace s' = trace s ++ EvConnectAll :: (EvClose ∘ client <$> bl)
      | _, _, _ => False
      end.
Proof.
  unfold NewResourceFromResourceConfig. rewrite bind_run. unfold call at 1.
  destruct (ConnectAll _ (world s)) as [[bl|e] w1] eqn:Hc; cbn beta iota zeta.
  2:{ eexists None, (Some _), _. split; [reflexivity|]. by cbn. }
  rewrite bind_run.
  set (s1 := setWorld w1 (addTrace EvConnectAll s)).
  destruct (NewResource_cases bl (withReapLock (Some reapLock) <$> ResourceConfig.Template r)
              (ResourceConfig.Name r) s1) as ([res err] & s2 & Hrun & Hout).
  rewrite Hrun. cbn beta iota zeta.
  destruct res as [t|], err as [e|]; try done.
  - destruct Hout as (_ & _ & Hsrc & _).
    apply NewResource_ok in Hrun as (_ & _ & _ & Htr & Hw & _ & Hall & _).
    rewrite bind_run. cbn [mret M_ret]. cbn beta iota zeta.
    eexists (Some t), None, _. split; [reflexivity|]. by split_and!.
  - destruct Hout as [-> _]. rewrite bind_run, closeAll_run. cbn beta iota zeta.
    eexists None, (Some e), _. split; [reflexivity|]. cbn. by rewrite <-app_assoc.
Qed.

(** X4: [Close] on a resource [NewResourceFromResourceConfig] has
    built closes exactly the connections [ConnectAll] returned, each once
    and in their order, logs one line for each backend and leaves every
    store as it is. *)
Theorem Close_after_construction reapLock r s t err s' :
  NewResourceFromResourceConfig reapLock r s = Some ((Some t, err), s') →
  ∃ bl w1 s'',
    ConnectAll (ResourceConfig.Connectors r) (world s) = (inl bl, w1)
    ∧ Resource_Close t s' = Some (tt, s'')
    ∧ trace s'' = trace s ++ EvConnectAll :: (EvClose ∘ client <$> bl)
    ∧ world s'' = foldl (λ w v, Close (client v) w) w1 bl
    ∧ heap s'' = heap s'
    ∧ log s'' = log s' ++ (closing t <$> backends t)
    ∧ Name <$> backends t = Name <$> bl.
Proof.
  unfold NewResourceFromResourceConfig. rewrite bind_run. unfold call at 1.
  destruct (ConnectAll _ (world s)) as [[bl|e] w1]; cbn beta iota zeta; [|done].
  rewrite bind_run.
  destruct (NewResource bl _ _ _) as [[[res1 [e|]] s1]|] eqn:Hnew; [| |done];
    cbn beta iota zeta.
  { apply NewResource_error in Hnew as (-> & _).
    rewrite bind_run, closeAll_run. cbn. by intros [=]. }
  rewrite bind_run. cbn [mret M_ret]. cbn beta iota zeta. intros [= -> <- <-].
  apply NewResource_ok in Hnew as (_ & _ & _ & Htr & Hw & _ & Hall & _).
  cbn [trace world setWorld addTrace] in Htr, Hw.
  assert (Hcl : client <$> backends t = client <$> bl ∧ Name <$> backends t = Name <$> bl).
  { clear -Hall. induction Hall as [|b b' bs bs' Hb _ [IH1 IH2]]; [done|].
    rewrite !fmap_cons, IH1, IH2, Hb. unfold upgraded. by destruct (needsInterval b). }
  destruct Hcl as [Hcl Hnm].
  exists bl, w1. eexists. split; [done|]. split; [apply Resource_Close_run|].
  cbn [trace world heap log]. split_and!; try done.
  - rewrite Htr, <-app_assoc. cbn. do 2 f_equal.
    by rewrite !list_fmap_compose, Hcl.
  - rewrite Hw. clear -Hcl. revert w1 bl Hcl.
    induction (backends t) as [|v vs IH]; intros w1 [|b bl] Heq; try done.
    injection Heq as Hc Heq. cbn. rewrite Hc. by apply IH.
Qed.
End ConstructionMore.

(** ** More on [createStageFileAndSync], [process] and [setVars] *)

Section Rendering.
Context {W : Type} `{!StoreClient W, !RendererOps W, !Executor W, !Rand W}.
Implicit Types (s : State W) (t : Resource) (b : Backend).

Lemma stageAndSync_outcome t ss : ∀ ch s c err s',
  stageAndSync t ch ss s = Some ((c, err), s') →
  match err with
  | None => trace s' = trace s ++ (ss ≫= renderEvents)
  | Some err =>
      ∃ pre r post e, ss = pre ++ r :: post
        ∧ (err = withMessage e "create stage file failed"
             ∧ trace s' = trace s ++ (pre ≫= renderEvents) ++ [EvCreateStageFile (Src r)]
           ∨ err = withMessage e "sync files failed"
             ∧ trace s' = trace s ++ (pre ≫= renderEvents) ++ renderEvents r)
  end.
Proof.
  induction ss as [|r ss IH]; intros ch s c err s'.
  - intros [= <- <- <-]. cbn. by rewrite app_nil_r.
  - cbn [stageAndSync]. rewrite bind_run.
    destruct (deref (rstore t) s) as [[m s0]|] eqn:Hd; [|done].
    assert (s0 = s) as ->.
    { unfold deref in Hd. repeat case_match; simplify_eq; done. }
    rewrite bind_run. unfold call at 1.
    destruct (createStageFile r m (world s)) as [[e|] w1].
    { intros [= <- <- <-]. exists [], r, ss, e. split; [done|]. left. by split. }
    rewrite bind_run. unfold call at 1. cbn [world setWorld addTrace].
    destruct (syncFiles r w1) as [[c0 [e|]] w2]; cbn beta iota zeta.
    { intros [= <- <- <-]. exists [], r, ss, e. split; [done|]. right. split; [done|].
      simpl. by rewrite <-app_assoc. }
    intros Hrest. apply IH in Hrest. destruct err as [err|].
    + destruct Hrest as (pre & r' & post & e & -> & Hcase).
      exists (r :: pre), r', post, e. split; [done|]. cbn in Hcase |- *.
      rewrite <-!app_assoc in Hcase. cbn in Hcase. exact Hcase.
    + cbn in Hrest |- *. rewrite Hrest, <-!app_assoc. done.
Qed.

Lemma stageAndSync_sticky t ss : ∀ s c err s',
  stageAndSync t true ss s = Some ((c, err), s') → c = true.
Proof.
  induction ss as [|r ss IH]; intros s c err s'.
  - by intros [= <- <- <-].
  - cbn [stageAndSync]. rewrite bind_run.
    destruct (deref (rstore t) s) as [[m s0]|]; [|done].
    rewrite bind_run. unfold call at 1.
    destruct (createStageFile r m (world s0)) as [[e|] w1].
    { by intros [= <- <- <-]. }
    rewrite bind_run. unfold call at 1. cbn [world setWorld addTrace].
    destruct (syncFiles r w1) as [[c0 [e|]] w2]; cbn beta iota zeta.
    { by intros [= <- <- <-]. }
    apply IH.
Qed.

Lemma stageAndSync_app t ss1 ss2 : ∀ ch s,
  stageAndSync t ch (ss1 ++ ss2) s =
  match stageAndSync t ch ss1 s with
  | Some ((c1, None), s1) => stageAndSync t c1 ss2 s1
  | r => r
  end.
Proof.
  induction ss1 as [|r ss1 IH]; intros ch s; [done|].
  cbn [app stageAndSync]. rewrite !bind_run.
  destruct (deref (rstore t) s) as [[m s0]|]; [|done].
  rewrite !bind_run. unfold call at 1 3.
  destruct (createStageFile r m (world s0)) as [[e|] w1]; [done|].
  rewrite !bind_run. unfold call at 1 2. cbn [world setWorld addTrace].
  destruct (syncFiles r w1) as [[c0 [e|]] w2]; cbn beta iota zeta; [done|].
  apply IH.
Qed.

(** X5: [createStageFileAndSync] touches no store and logs
    nothing. On success it has staged and then synced every renderer, in
    the order of [t.sources]. On an error it has done so for the renderers
    before the failing one, has staged the failing one, has synced it only
    if the error is the one of [syncFiles], and has touched no renderer
    after it; the error is wrapped with the name of the step that
    failed. *)
Theorem createStageFileAndSync_order t s changed err s' :
  createStageFileAndSync t s = Some ((changed, err), s') →
  heap s' = heap s ∧ log s' = log s
  ∧ match err with
    | None => trace s' = trace s ++ (sources t ≫= renderEvents)
    | Some err =>
        ∃ pre r post e, sources t = pre ++ r :: post
          ∧ (err = withMessage e "create stage file failed"
               ∧ trace s' = trace s ++ (pre ≫= renderEvents) ++ [EvCreateStageFile (Src r)]
             ∨ err = withMessage e "sync files failed"
               ∧ trace s' = trace s ++ (pre ≫= renderEvents) ++ renderEvents r)
    end.
Proof.
  unfold createStageFileAndSync. intros Hrun.
  destruct (stageAndSync_inv _ _ _ _ _ _ Hrun) as (Hh & Hl & _).
  split; [done|]. split; [done|]. by apply stageAndSync_outcome in Hrun.
Qed.

(** X6: once a renderer has reported a change,
    [createStageFileAndSync] returns [changed = true], also when a later
    renderer fails: the run is the loop over the remaining renderers,
    started with [changed = true]. *)
Theorem changed_survives_failure t pre post s s1 changed err s' :
  sources t = pre ++ post →
  stageAndSync t false pre s = Some ((true, None), s1) →
  createStageFileAndSync t s = Some ((changed, err), s') →
  changed = true ∧ stageAndSync t true post s1 = Some ((changed, err), s').
Proof.
  unfold createStageFileAndSync. intros -> Hpre. rewrite stageAndSync_app, Hpre.
  intros Hpost. split; [|done]. by apply stageAndSync_sticky in Hpost.
Qed.

Lemma setVarsAll_ok_trace t bs : ∀ s s',
  setVarsAll t bs s = Some (None, s') → trace s' = trace s ++ (fetch <$> bs).
Proof.
  induction bs as [|b bs IH]; intros s s'.
  - intros [= <-]. by rewrite app_nil_r.
  - cbn [setVarsAll]. rewrite bind_run.
    destruct (setVars t b s) as [[[e|] s1]|] eqn:Hb; [done| |done].
    intros Hrest. apply IH in Hrest. apply setVars_inv in Hb as [Hb _].
    rewrite Hrest, Hb, <-app_assoc. done.
Qed.

Lemma setVarsAll_err t bs : ∀ s err s',
  setVarsAll t bs s = Some (Some err, s') →
  ∃ pre b post e w s1,
    bs = pre ++ b :: post
    ∧ setVarsAll t pre s = Some (None, s1)
    ∧ GetValues (client b) (appendPrefix (Prefix b) (Keys b)) (world s1) = (inr e, w)
    ∧ err = backendError {| berr.Message := "setVars failed: getValues failed: " +:+ Error e;
                             berr.Backend := Name b |}
    ∧ trace s' = trace s ++ (fetch <$> pre ++ [b]).
Proof.
  induction bs as [|b bs IH]; intros s err s'; [done|].
  cbn [setVarsAll]. rewrite bind_run.
  destruct (setVars t b s) as [[[e|] s1]|] eqn:Hb; [| |done].
  - intros [= <- <-]. apply setVars_inv in Hb as [Htr Hb].
    destruct (Hb e eq_refl) as (e0 & w & Hget & ->).
    exists [], b, bs, e0, w, s. split_and!; done.
  - intros Hrest. apply IH in Hrest as (pre & b' & post & e & w & s2 & -> & Hpre & Hget & -> & Htr).
    exists (b :: pre), b', post, e, w, s2. split_and!; try done.
    + cbn [setVarsAll]. by rewrite bind_run, Hb.
    + apply setVars_inv in Hb as [Hb _]. rewrite Htr, Hb, <-app_assoc. done.
Qed.

(** X7: a successful [process] has fetched every backend it was
    given, in order, has then staged and synced every renderer, in order,
    and has made no other call. A [BackendError] means that the fetch of
    one of the backends failed: it is named after that backend, no call
    follows the failed fetch and [changed] is false. Any other error is
    wrapped with ["createStageFileAndSync failed"]: every backend was
    fetched, and the rendering stopped at the failing renderer. *)
Theorem process_order t bs s changed err s' :
  process t bs s = Some ((changed, err), s') →
  match err with
  | None => trace s' = trace s ++ (fetch <$> bs) ++ (sources t ≫= renderEvents)
  | Some (backendError e) =>
      changed = false
      ∧ ∃ pre b post, bs = pre ++ b :: post ∧ berr.Backend e = Name b
          ∧ trace s' = trace s ++ (fetch <$> pre ++ [b])
  | Some (withMessage cause msg) =>
      msg = "createStageFileAndSync failed"
      ∧ ∃ pre r post, sources t = pre ++ r :: post
          ∧ (trace s' = trace s ++ (fetch <$> bs) ++ (pre ≫= renderEvents)
                          ++ [EvCreateStageFile (Src r)]
             ∨ trace s' = trace s ++ (fetch <$> bs) ++ (pre ≫= renderEvents)
                            ++ renderEvents r)
  | Some (errorString _) => False
  end.
Proof.
  unfold process. rewrite bind_run.
  destruct (setVarsAll t bs s) as [[[e|] s1]|] eqn:Hall; [| |done].
  - intros [= <- <- <-].
    apply setVarsAll_err in Hall as (pre & b & post & e0 & w & s2 & -> & _ & _ & -> & Htr).
    split; [done|]. by exists pre, b, post.
  - apply setVarsAll_ok_trace in Hall. rewrite bind_run.
    destruct (createStageFileAndSync t s1) as [[[c [e|]] s2]|] eqn:Hr; [| |done].
    + intros [= <- <- <-].
      apply stageAndSync_outcome in Hr as (pre & r & post & e0 & Hsrc & Hcase).
      split; [done|]. exists pre, r, post. split; [done|].
      rewrite Hall in Hcase. rewrite <-!app_assoc in Hcase.
      destruct Hcase as [[_ ?]|[_ ?]]; auto.
    + intros [= <- <- <-].
      apply stageAndSync_outcome in Hr.
      rewrite Hr, Hall, <-app_assoc. done.
Qed.

(** The renderer an error of the loop comes from: the renderers before it
    were staged and synced without error, and the error is the answer of
    [createStageFile] on the merged store, or of [syncFiles] after it. *)
Lemma stageAndSync_err t ss : ∀ ch s c err s',
  stageAndSync t ch ss s = Some ((c, Some err), s') →
  ∃ pre r post c1 s1 m e,
    ss = pre ++ r :: post
    ∧ stageAndSync t ch pre s = Some ((c1, None), s1)
    ∧ contents (heap s1) (rstore t) = Some m
    ∧ (err = withMessage e "create stage file failed"
         ∧ (createStageFile r m (world s1)).1 = Some e ∧ c = c1
       ∨ err = withMessage e "sync files failed"
         ∧ (createStageFile r m (world s1)).1 = None
         ∧ ∃ c0, (syncFiles r (createStageFile r m (world s1)).2).1 = (c0, Some e)
             ∧ c = c1 || c0).
Proof.
  induction ss as [|r ss IH]; intros ch s c err s'; [done|].
  cbn [stageAndSync]. rewrite bind_run.
  destruct (deref (rstore t) s) as [[m s0]|] eqn:Hd; [|done].
  assert (s0 = s ∧ contents (heap s) (rstore t) = Some m) as [-> Hm].
  { unfold deref in Hd. unfold contents. destruct (rstore t) as [l|]; [|done]. cbn.
    destruct (heap s !! l); [|done]. by injection Hd as <- <-. }
  rewrite bind_run. unfold call at 1.
  destruct (createStageFile r m (world s)) as [[e|] w1] eqn:Hc.
  { intros [= <- <- <-]. exists [], r, ss, ch, s, m, e. split_and!; [done..|].
    left. rewrite Hc. by split_and!. }
  rewrite bind_run. unfold call at 1. cbn [world setWorld addTrace].
  destruct (syncFiles r w1) as [[c0 [e|]] w2] eqn:Hs; cbn beta iota zeta.
  { intros [= <- <- <-]. exists [], r, ss, ch, s, m, e. split_and!; [done..|].
    right. rewrite Hc. cbn [fst snd]. rewrite Hs. split_and!; [done..|]. by exists c0. }
  intros Hrest.
  apply IH in Hrest as (pre & r' & post & c1 & s1 & m' & e & -> & Hpre & Hm' & Hcase).
  exists (r :: pre), r', post, c1, s1, m', e. split_and!; [done| |done..].
  cbn [stageAndSync]. rewrite bind_run, Hd, bind_run. unfold call at 1. rewrite Hc.
  rewrite bind_run. unfold call at 1. cbn [world setWorld addTrace]. rewrite Hs.
  cbn beta iota zeta. exact Hpre.
Qed.

(** X8: an error of [process] is either a [BackendError]: then
    the backends before one of the given backends were fetched without
    error, [GetValues] of that backend answered an error on the world they
    left, the [BackendError] holds the name of that backend and the text
    ["setVars failed: getValues failed: "] before that error, and [changed]
    is false; or it is the error of a renderer under two wrappers: then all
    the given backends were fetched, the renderers before one of
    [t.sources] were staged and synced without error, and the error is the
    answer of [createStageFile] of that renderer on the merged store, or of
    its [syncFiles] after a successful [createStageFile]; [errors.Cause]
    finds the cause of that answer, and the text starts with
    ["createStageFileAndSync failed: "] and the name of the step. *)
Theorem process_error_shape t bs s changed err s' :
  process t bs s = Some ((changed, Some err), s') →
  (∃ pre b post s1 e w,
     bs = pre ++ b :: post
     ∧ setVarsAll t pre s = Some (None, s1)
     ∧ GetValues (client b) (appendPrefix (Prefix b) (Keys b)) (world s1) = (inr e, w)
     ∧ b ∈ bs ∧ changed = false
     ∧ err = backendError
               {| berr.Message := "setVars failed: getValues failed: " +:+ Error e;
                  berr.Backend := Name b |})
  ∨ (∃ pre r post s1 c1 s2 m e msg,
       sources t = pre ++ r :: post
       ∧ setVarsAll t bs s = Some (None, s1)
       ∧ stageAndSync t false pre s1 = Some ((c1, None), s2)
       ∧ contents (heap s2) (rstore t) = Some m
       ∧ (msg = "create stage file failed"
            ∧ (createStageFile r m (world s2)).1 = Some e ∧ changed = c1
          ∨ msg = "sync files failed"
            ∧ (createStageFile r m (world s2)).1 = None
            ∧ ∃ c0, (syncFiles r (createStageFile r m (world s2)).2).1 = (c0, Some e)
                ∧ changed = c1 || c0)
       ∧ err = withMessage (withMessage e msg) "createStageFileAndSync failed"
       ∧ Cause err = Cause e
       ∧ Error err = "createStageFileAndSync failed: " +:+ msg +:+ ": " +:+ Error e).
Proof.
  unfold process. rewrite bind_run.
  destruct (setVarsAll t bs s) as [[[e|] s1]|] eqn:Hall; [| |done].
  - intros [= <- <- <-].
    apply setVarsAll_err in Hall as (pre & b & post & e0 & w & s2 & -> & Hpre & Hget & -> & _).
    left. exists pre, b, post, s2, e0, w. split_and!; [done..| |done|done].
    apply elem_of_app. right. by left.
  - rewrite bind_run.
    destruct (createStageFileAndSync t s1) as [[[c [e|]] s2]|] eqn:Hr; [| |done]; [|done].
    intros [= <- <- <-]. unfold createStageFileAndSync in Hr.
    apply stageAndSync_err in Hr
      as (pre & r & post & c1 & s3 & m & e0 & Hsrc & Hpre & Hm & Hcase).
    right. destruct Hcase as [(-> & Hc & ->)|(-> & Hc & c0 & Hs & ->)].
    + exists pre, r, post, s1, c1, s3, m, e0, "create stage file failed".
      split_and!; auto.
    + exists pre, r, post, s1, c1, s3, m, e0, "sync files failed".
      split_and!; eauto 6.
Qed.
End Rendering.

Section Consistency.
Context {W : Type} `{!StoreClient W, !RendererOps W, !Executor W, !Rand W}.
Implicit Types (s : State W) (t : Resource) (b : Backend).

Lemma setVars_keeps t b s r s' :
  wf t s → usable t s b → setVars t b s = Some (r, s') →
  wf t s'
  ∧ (consistent t s → consistent t s')
  ∧ (r = None → consistent t s')
  ∧ (∀ l, rstore t ≠ Some l → store b ≠ Some l → heap s' !! l = heap s !! l).
Proof.
  intros Hwf Hb Hrun.
  destruct (setVars_spec t b s Hwf Hb) as (r1 & s1 & Hrun1 & Hdom & _ & Hcase).
  rewrite Hrun in Hrun1. injection Hrun1 as <- <-.
  split; [by eapply wf_dom|].
  destruct (GetValues _ _ _) as [[result|e] w].
  - destruct Hcase as (-> & _ & l & lb & Hl & Hlb & Hlne & Hheap & _).
    assert (Hrest : Forall (λ b, store b ≠ Some l) (backends t)).
    { eapply Forall_impl; [apply (wf_usable _ _ Hwf)|]. intros b' [_ Hb']. congruence. }
    assert (Hc : consistent t s').
    { unfold consistent. rewrite Hl, Hheap, contents_insert_eq, (storesOf_insert_ne _ l); done. }
    split_and!; [done..|].
    intros l0 Hl0 Hb0. rewrite Hheap, !lookup_insert_ne; congruence.
  - destruct Hcase as (-> & Hheap & _). unfold consistent. rewrite Hheap. by split_and!.
Qed.

Lemma setVarsAll_keeps t bs : ∀ s r s',
  wf t s → Forall (usable t s) bs → setVarsAll t bs s = Some (r, s') →
  wf t s'
  ∧ (consistent t s → consistent t s')
  ∧ (∀ l, rstore t ≠ Some l → Some l ∉ store <$> bs → heap s' !! l = heap s !! l).
Proof.
  induction bs as [|b bs IH]; intros s r s' Hwf Hbs.
  - by intros [= <- <-].
  - apply Forall_cons in Hbs as [Hb Hbs]. cbn [setVarsAll]. rewrite bind_run.
    destruct (setVars t b s) as [[r1 s1]|] eqn:Hrun1; [|done].
    destruct (setVars_keeps _ _ _ _ _ Hwf Hb Hrun1) as (Hwf1 & Hc1 & _ & Hf1).
    assert (Hframe1 : ∀ l, rstore t ≠ Some l → Some l ∉ store <$> b :: bs →
                           heap s1 !! l = heap s !! l).
    { intros l Hl Hnot. apply Hf1; [done|]. intros Heq. apply Hnot.
      rewrite fmap_cons, Heq. by left. }
    destruct r1 as [e|].
    + intros [= <- <-]. by split_and!.
    + intros Hrest.
      assert (Hdom : dom (heap s1) = dom (heap s)).
      { destruct (setVars_spec t b s Hwf Hb) as (? & ? & Hrun' & Hdom & _).
        rewrite Hrun1 in Hrun'. by injection Hrun' as <- <-. }
      destruct (IH s1 r s' Hwf1) as (Hwf' & Hc' & Hf'); [|done|].
      { eapply Forall_impl; [exact Hbs|]. intros b'. by apply usable_dom. }
      split_and!; [done|auto|].
      intros l Hl Hnot. rewrite Hf', Hframe1; [done..|].
      intros Hin. apply Hnot. rewrite fmap_cons. by right.
Qed.

Lemma subseteq_usable t s bs :
  wf t s → bs ⊆ backends t → Forall (usable t s) bs.
Proof.
  intros Hwf Hsub. apply Forall_forall. intros b Hb.
  by apply (proj1 (Forall_forall _ _) (wf_usable _ _ Hwf)), Hsub.
Qed.

Lemma process_keeps t bs s :
  wf t s → bs ⊆ backends t →
  ∃ r s', process t bs s = Some (r, s')
    ∧ wf t s'
    ∧ dom (heap s') = dom (heap s)
    ∧ (consistent t s → consistent t s')
    ∧ (∀ l, rstore t ≠ Some l → Some l ∉ store <$> bs → heap s' !! l = heap s !! l).
Proof.
  intros Hwf Hsub. pose proof (subseteq_usable _ _ _ Hwf Hsub) as Hbs.
  destruct (setVarsAll_spec t bs s Hwf Hbs) as (r & s1 & n & Hrun & Hdom & _).
  destruct (setVarsAll_keeps _ _ _ _ _ Hwf Hbs Hrun) as (Hwf1 & Hc1 & Hf1).
  unfold process. rewrite bind_run, Hrun. destruct r as [e|].
  - eexists _, s1. split; [done|]. by split_and!.
  - unfold createStageFileAndSync. rewrite bind_run.
    destruct (stageAndSync_spec t (sources t) false s1)
      as (r & s' & evs & -> & Hh & _); [by destruct Hwf1|].
    assert (Hwf' : wf t s') by (eapply wf_dom; [|done]; by rewrite Hh).
    assert (Hc' : consistent t s → consistent t s').
    { intros Hc. unfold consistent. rewrite Hh. by apply Hc1. }
    destruct r as [changed [e|]]; eexists _, s'; (split; [done|]);
      rewrite Hh; by split_and!.
Qed.

(** X9: on a constructed resource [process] over any of its
    backends always returns (no nil store is dereferenced); it leaves the
    resource constructed, allocates no store, and changes no store but
    the merged one and those of the backends it was given. *)
Theorem process_safe t bs s :
  wf t s → bs ⊆ backends t →
  ∃ r s', process t bs s = Some (r, s')
    ∧ wf t s'
    ∧ dom (heap s') = dom (heap s)
    ∧ (∀ l, rstore t ≠ Some l → Some l ∉ store <$> bs → heap s' !! l = heap s !! l).
Proof.
  intros Hwf Hsub.
  destruct (process_keeps t bs s Hwf Hsub) as (r & s' & ? & ? & ? & _ & ?).
  by exists r, s'.
Qed.

(** X10: if the merged store holds the merge of the backends'
    stores before [process], it does so after it, wherever [process]
    stops: a failed fetch leaves the merged store in step with the
    stores. *)
Theorem process_consistent t bs s r s' :
  wf t s → bs ⊆ backends t → consistent t s →
  process t bs s = Some (r, s') → consistent t s'.
Proof.
  intros Hwf Hsub Hc Hrun.
  destruct (process_keeps t bs s Hwf Hsub) as (r1 & s1 & Hrun1 & _ & _ & Hc1 & _).
  rewrite Hrun in Hrun1. injection Hrun1 as <- <-. auto.
Qed.

Lemma fillFrom_lookup prefix result : ∀ (m : gmap string string) k v,
  fillFrom prefix m result !! k = Some v ↔
    (∃ i key, result !! i = Some (key, v) ∧ storedKey prefix key = k
       ∧ ∀ j key' v', (i < j)%nat → result !! j = Some (key', v') →
           storedKey prefix key' ≠ k)
    ∨ (m !! k = Some v
       ∧ ∀ j key' v', result !! j = Some (key', v') → storedKey prefix key' ≠ k).
Proof.
  unfold fillFrom.
  induction result as [|[key0 v0] result IH]; intros m k v.
  - cbn [foldl]. split; [intros ?; right; split; [done|]; by intros ??? [=]|].
    intros [(i & key & [=] & _)|[? _]]; done.
  - cbn [foldl]. rewrite IH. unfold memkv.Set_. fold (storedKey prefix key0). split.
    + intros [(i & key & Hi & Hk & Hlast)|[Hk Hnone]].
      * left. exists (S i), key. split_and!; [done..|].
        intros [|j] key' v' Hlt Hj; [lia|]. apply (Hlast j key' v'); [lia|done].
      * apply lookup_insert_Some in Hk as [[<- <-]|[Hne Hk]].
        -- left. exists 0%nat, key0. split_and!; [done..|].
           intros [|j] key' v' Hlt Hj; [lia|]. by apply (Hnone j key' v').
        -- right. split; [done|]. intros [|j] key' v' Hj.
           ++ by injection Hj as <- <-.
           ++ by apply (Hnone j key' v').
    + intros [(i & key & Hi & Hk & Hlast)|[Hk Hnone]].
      * destruct i as [|i].
        -- injection Hi as -> ->. right. split.
           { rewrite <-Hk. apply lookup_insert_eq. }
           intros j key' v' Hj. apply (Hlast (S j) key' v'); [lia|done].
        -- left. exists i, key. split_and!; [done..|].
           intros j key' v' Hlt Hj. apply (Hlast (S j) key' v'); [lia|done].
      * right. split.
        -- rewrite lookup_insert_ne; [done|]. by apply (Hnone 0%nat key0 v0).
        -- intros j key' v' Hj. by apply (Hnone (S j) key' v').
Qed.

Lemma setVars_refresh t s i b result w :
  wf t s → backends t !! i = Some b →
  GetValues (client b) (appendPrefix (Prefix b) (Keys b)) (world s) = (inl result, w) →
  ∃ s', setVars t b s = Some (None, s')
    ∧ wf t s'
    ∧ storesOf (heap s') (backends t)
      = <[i := fill (Prefix b) result]> (storesOf (heap s) (backends t))
    ∧ consistent t s'.
Proof.
  intros Hwf Hi Hget.
  assert (Hb : usable t s b).
  { eapply (Forall_lookup_1 _ _ _ _ (wf_usable _ _ Hwf) Hi). }
  destruct (setVars_spec t b s Hwf Hb) as (r1 & s' & Hrun & Hdom & _ & Hcase).
  rewrite Hget in Hcase.
  destruct Hcase as (-> & _ & l & lb & Hl & Hlb & Hlne & Hheap & _).
  assert (Hwf' : wf t s') by by eapply wf_dom.
  exists s'. split; [done|]. split; [done|].
  assert (Hrest : Forall (λ b, store b ≠ Some l) (backends t)).
  { eapply Forall_impl; [apply (wf_usable _ _ Hwf)|]. intros b' [_ Hb']. congruence. }
  destruct (setVars_keeps _ _ _ _ _ Hwf Hb Hrun) as (_ & _ & Hc & Hframe).
  split; [|by apply Hc].
  apply list_eq. intros j. rewrite (wf_storeAt t s' j Hwf').
  destruct (decide (j = i)) as [->|Hj].
  - rewrite list_lookup_insert_eq.
    + unfold storeAt. rewrite Hi. cbn. rewrite Hheap, Hlb. cbn.
      rewrite lookup_insert_ne, lookup_insert_eq; done.
    + apply lookup_lt_is_Some. rewrite (wf_storeAt t s i Hwf).
      unfold storeAt. rewrite Hi. cbn. by destruct Hb.
  - rewrite list_lookup_insert_ne, (wf_storeAt t s j Hwf) by done.
    unfold storeAt. destruct (backends t !! j) as [bj|] eqn:Hbj; [|done]. cbn.
    rewrite Hheap.
    rewrite contents_insert_ne by (eapply (Forall_lookup_1 _ _ _ _ Hrest Hbj)).
    apply contents_insert_ne. rewrite <-Hlb. intros Heq.
    apply Hj. eapply (NoDup_lookup (store <$> backends t)); [by destruct Hwf| |].
    + by rewrite list_lookup_fmap, Hbj.
    + by rewrite list_lookup_fmap, Hi, Heq.
Qed.

(** X11: when [GetValues] answers a result for a backend of a
    constructed resource, [setVars] succeeds, and afterwards the store of
    that backend maps [k] to [v] exactly when the result holds a pair with
    the value [v] whose key, cut and cleaned, is [k], and no later pair of
    the result has such a key: whatever the store held before is gone, and
    of two fetched keys that become the same path the last one wins. *)
Theorem setVars_store_lookup t s i b result w :
  wf t s → backends t !! i = Some b →
  GetValues (client b) (appendPrefix (Prefix b) (Keys b)) (world s) = (inl result, w) →
  ∃ s' m, setVars t b s = Some (None, s')
    ∧ contents (heap s') (store b) = Some m
    ∧ ∀ k v, m !! k = Some v ↔
        ∃ n key, result !! n = Some (key, v) ∧ storedKey (Prefix b) key = k
          ∧ ∀ j key' v', (n < j)%nat → result !! j = Some (key', v') →
              storedKey (Prefix b) key' ≠ k.
Proof.
  intros Hwf Hi Hget.
  destruct (setVars_refresh t s i b result w Hwf Hi Hget) as (s' & Hrun & Hwf' & Hst & _).
  exists s', (fill (Prefix b) result). split; [done|]. split.
  - assert (Hlt : (i < length (storesOf (heap s) (backends t)))%nat).
    { apply lookup_lt_is_Some. rewrite (wf_storeAt t s i Hwf).
      unfold storeAt. rewrite Hi. cbn.
      by destruct (Forall_lookup_1 _ _ _ _ (wf_usable _ _ Hwf) Hi). }
    pose proof (wf_storeAt t s' i Hwf') as Hat.
    rewrite Hst, list_lookup_insert_eq in Hat by done.
    unfold storeAt in Hat. rewrite Hi in Hat. cbn in Hat. done.
  - intros k v. unfold fill. rewrite fillFrom_lookup, lookup_empty. split; [|auto].
    by intros [?|[[=] _]].
Qed.

(** X12: when the fetch of a backend succeeds and no fetched key
    becomes [k], and no other backend holds [k], then [k] is not in the
    merged store after [setVars], whether it was there before or not. *)
Theorem refresh_drops_stale_key t s i b result w k :
  wf t s → backends t !! i = Some b →
  GetValues (client b) (appendPrefix (Prefix b) (Keys b)) (world s) = (inl result, w) →
  (∀ key v, (key, v) ∈ result → storedKey (Prefix b) key ≠ k) →
  (∀ j mj, j ≠ i → storeAt (heap s) t j = Some mj → mj !! k = None) →
  ∃ s' m, setVars t b s = Some (None, s')
    ∧ contents (heap s') (rstore t) = Some m ∧ m !! k = None.
Proof.
  intros Hwf Hi Hget Hgone Hothers.
  destruct (setVars_refresh t s i b result w Hwf Hi Hget) as (s' & Hrun & Hwf' & Hst & Hc).
  eexists s', _. split; [done|]. split; [exact Hc|].
  apply eq_None_not_Some. rewrite mergeAll_is_Some, lookup_empty.
  intros [[? [=]]|(j & mj & Hj & Hk)]. rewrite Hst in Hj.
  destruct (decide (j = i)) as [->|Hne].
  - apply list_lookup_insert_Some in Hj as [(_ & <- & _)|[? _]]; [|done].
    destruct Hk as [v Hk].
    unfold fill in Hk. apply (proj1 (fillFrom_lookup (Prefix b) result ∅ k v)) in Hk.
    destruct Hk as [(n & key & Hn & Hk & _)|[[=] _]].
    apply (Hgone key v); [|done]. by eapply list_elem_of_lookup_2.
  - rewrite list_lookup_insert_ne, (wf_storeAt t s j Hwf) in Hj by done.
    rewrite (Hothers j mj Hne Hj) in Hk. by destruct Hk.
Qed.
End Consistency.

(** ** The keys [setVars] stores *)

Section PathFacts.
Implicit Types (s p k e cur : string) (es acc : list string).

Lemma string_app_cons a s k : String a s +:+ k = String a (s +:+ k).
Proof. reflexivity. Qed.

Lemma stripPrefix_app p : ∀ k, stripPrefix (p +:+ k) p = Some k.
Proof.
  induction p as [|a p IH]; intros k; [by destruct k|].
  rewrite string_app_cons. cbn [stripPrefix]. by rewrite Ascii.eqb_refl.
Qed.

Lemma stripPrefix_Some p : ∀ s k, stripPrefix s p = Some k → s = p +:+ k.
Proof.
  induction p as [|a p IH]; intros s k.
  - destruct s; by intros [= <-].
  - destruct s as [|b s]; [done|]. cbn [stripPrefix].
    destruct (Ascii.eqb a b) eqn:Hab; [|done].
    apply Ascii.eqb_eq in Hab as ->. intros Hs. by rewrite (IH s k Hs).
Qed.

Lemma TrimPrefix_spec s p :
  (∃ k, s = p +:+ k ∧ TrimPrefix s p = k)
  ∨ ((∀ k, s ≠ p +:+ k) ∧ TrimPrefix s p = s).
Proof.
  unfold TrimPrefix. destruct (stripPrefix s p) as [k|] eqn:Hs.
  - left. exists k. split; [|done]. by apply stripPrefix_Some.
  - right. split; [|done]. intros k ->. by rewrite stripPrefix_app in Hs.
Qed.

Lemma TrimPrefix_app p k : TrimPrefix (p +:+ k) p = k.
Proof. unfold TrimPrefix. by rewrite stripPrefix_app. Qed.

Lemma string_app_nil_r s : s +:+ EmptyString = s.
Proof. induction s as [|a s IH]; [done|]. by rewrite string_app_cons, IH. Qed.

Lemma rev_app_rev_app e : ∀ cur k,
  String.rev_app (String.rev_app e cur) k = String.rev_app cur (e +:+ k).
Proof.
  induction e as [|a e IH]; intros cur k; [done|].
  rewrite string_app_cons. cbn [String.rev_app]. by rewrite IH.
Qed.

Lemma rev_rev_app e : String.rev (String.rev_app e EmptyString) = e.
Proof. unfold String.rev. rewrite rev_app_rev_app. cbn. apply string_app_nil_r. Qed.

Lemma hasSlash_rev_app cur : ∀ k,
  hasSlash (String.rev_app cur k) = hasSlash cur || hasSlash k.
Proof.
  induction cur as [|a cur IH]; intros k; [done|].
  cbn [String.rev_app hasSlash]. rewrite IH. cbn [hasSlash].
  by destruct (Ascii.eqb a "/"), (hasSlash cur), (hasSlash k).
Qed.

Lemma splitSlash_noSlash s : ∀ cur,
  hasSlash cur = false → Forall (λ e, hasSlash e = false) (splitSlash cur s).
Proof.
  induction s as [|c s IH]; intros cur Hcur.
  - constructor; [|done]. unfold String.rev. by rewrite hasSlash_rev_app, Hcur.
  - cbn. destruct (Ascii.eqb c "/") eqn:Hc.
    + constructor; [|by apply IH]. unfold String.rev. by rewrite hasSlash_rev_app, Hcur.
    + apply IH. cbn. by rewrite Hc.
Qed.

Lemma splitSlash_elem e : ∀ cur s,
  hasSlash e = false →
  splitSlash cur (e +:+ String "/" s)
  = String.rev (String.rev_app e cur) :: splitSlash EmptyString s.
Proof.
  induction e as [|c e IH]; intros cur s He; [done|].
  rewrite string_app_cons. cbn [splitSlash hasSlash String.rev_app] in He |- *.
  apply orb_false_iff in He as [-> He]. by apply IH.
Qed.

Lemma splitSlash_last e : ∀ cur,
  hasSlash e = false → splitSlash cur e = [String.rev (String.rev_app e cur)].
Proof.
  induction e as [|c e IH]; intros cur He; [done|].
  cbn [splitSlash hasSlash String.rev_app] in He |- *.
  apply orb_false_iff in He as [-> He]. by apply IH.
Qed.

Lemma splitSlash_concat es :
  Forall (λ e, hasSlash e = false) es → es ≠ [] →
  splitSlash EmptyString (String.concat "/" es) = es.
Proof.
  induction 1 as [|e es He Hes IH]; intros Hne; [done|].
  destruct es as [|e' es].
  - cbn. by rewrite splitSlash_last, rev_rev_app.
  - cbn [String.concat]. change ("/" +:+ ?x) with (String "/" x).
    rewrite splitSlash_elem, rev_rev_app by done. f_equal. by apply IH.
Qed.

Lemma cleanElem_noSlash es :
  Forall cleanElem es → Forall (λ e, hasSlash e = false) es.
Proof. intros Hes. eapply Forall_impl; [exact Hes|]. by intros e (_ & _ & _ & ?). Qed.

Lemma cleanRooted_clean es : ∀ acc,
  Forall cleanElem es → cleanRooted acc es = rev acc ++ es.
Proof.
  induction es as [|e es IH]; intros acc Hes.
  - cbn. by rewrite app_nil_r.
  - apply Forall_cons in Hes as [(He1 & He2 & He3 & _) Hes]. cbn.
    rewrite decide_False by (intros [?|?]; done).
    rewrite decide_False by done.
    rewrite IH by done. cbn. by rewrite <-app_assoc.
Qed.

Lemma cleanRooted_empty acc es :
  cleanRooted acc (EmptyString :: es) = cleanRooted acc es.
Proof. cbn [cleanRooted]. by rewrite decide_True by (by left). Qed.

Lemma cleanRooted_cleanElem es : ∀ acc,
  Forall cleanElem acc → Forall (λ e, hasSlash e = false) es →
  Forall cleanElem (cleanRooted acc es).
Proof.
  induction es as [|e es IH]; intros acc Hacc Hes.
  - cbn. by apply Forall_rev.
  - apply Forall_cons in Hes as [He Hes]. cbn.
    destruct (decide (e = EmptyString ∨ e = ".")) as [|Hne]; [by apply IH|].
    destruct (decide (e = "..")) as [|Hne'].
    + apply IH; [|done]. destruct acc; [done|]. by apply Forall_cons in Hacc as [_ ?].
    + apply IH; [|done]. constructor; [|done]. unfold cleanElem. tauto.
Qed.

Lemma pathJoinRoot_clean s :
  ∃ es, pathJoinRoot s = "/" +:+ String.concat "/" es ∧ Forall cleanElem es.
Proof.
  eexists. split; [reflexivity|].
  apply cleanRooted_cleanElem; [done|]. by apply splitSlash_noSlash.
Qed.

Lemma pathJoinRoot_fixed es :
  Forall cleanElem es →
  pathJoinRoot ("/" +:+ String.concat "/" es) = "/" +:+ String.concat "/" es.
Proof.
  intros Hes. unfold pathJoinRoot at 1. f_equal. f_equal.
  change ("/" +:+ ?x) with (String "/" x). cbn [splitSlash].
  change (Ascii.eqb "/" "/") with true. cbn iota.
  destruct es as [|e es]; [done|].
  rewrite splitSlash_concat; [|by apply cleanElem_noSlash|done].
  cbn [String.rev String.rev_app].
  by rewrite cleanRooted_empty, cleanRooted_clean.
Qed.

(** X13: the path under which [setVars] stores a key is a fixed
    point of the cleaning: [path.Join("/", _)] applied to it gives it
    back. *)
Theorem pathJoinRoot_idempotent s :
  pathJoinRoot (pathJoinRoot s) = pathJoinRoot s.
Proof.
  destruct (pathJoinRoot_clean s) as (es & -> & Hes). by apply pathJoinRoot_fixed.
Qed.

(** X14: [setVars] cuts the prefix of the backend only from a key
    that starts with it; any other key is stored under its whole path,
    cleaned. *)
Theorem storedKey_prefix_cases p key :
  (∃ k, key = p +:+ k ∧ storedKey p key = pathJoinRoot k)
  ∨ ((∀ k, key ≠ p +:+ k) ∧ storedKey p key = pathJoinRoot key).
Proof.
  unfold storedKey.
  destruct (TrimPrefix_spec key p) as [(k & Hk & ->)|[Hno ->]].
  - left. by exists k.
  - right. by split.
Qed.

(** X15: every key [setVars] stores is a rooted path whose
    elements are not empty, are neither [.] nor [..], and hold no
    slash. *)
Theorem storedKey_clean p key :
  ∃ es, storedKey p key = "/" +:+ String.concat "/" es ∧ Forall cleanElem es.
Proof.
  unfold storedKey, pathJoinRoot. eexists. split; [reflexivity|].
  apply cleanRooted_cleanElem; [done|]. by apply splitSlash_noSlash.
Qed.

(** X16: a key made of the prefix and a clean rooted path is
    stored under that path. *)
Theorem storedKey_under_prefix p es :
  Forall cleanElem es →
  storedKey p (p +:+ "/" +:+ String.concat "/" es) = "/" +:+ String.concat "/" es.
Proof.
  intros Hes. unfold storedKey. rewrite TrimPrefix_app. by apply pathJoinRoot_fixed.
Qed.
End PathFacts.

(** ** The life of the child and the shutdown of [Monitor] *)

Section MonitorLife.
Context {W : Type} `{!StoreClient W, !RendererOps W, !Executor W, !Rand W}.
Implicit Types (s : State W) (t : Resource) (b : Backend) (c : @Config W).

Local Arguments process : simpl never.
Local Arguments Monitor_process : simpl never.
Local Arguments Int63n : simpl never.

Ltac step_cases H :=
  unfold step, stepMain, stepRetry, Monitor_retry, Monitor_start, Monitor_return, run,
    canReceive, logRetryError, logAt, call in H;
  cbn in H; repeat (case_match; simplify_eq/=; try done); simplify_eq/=.

Lemma processEvents_filter (P : Event → bool) evs :
  (∀ e, isProcessEvent e = true → P e = false) →
  Forall (λ e, isProcessEvent e = true) evs →
  filter (λ e, P e = true) evs = [].
Proof.
  intros HP Hevs. induction Hevs as [|e evs He _ IH]; [done|].
  rewrite filter_cons_False; [done|]. rewrite (HP e He). done.
Qed.

Lemma process_filter (P : Event → bool) t bs s r s' :
  (∀ e, isProcessEvent e = true → P e = false) →
  process t bs s = Some (r, s') →
  filter (λ e, P e = true) (trace s') = filter (λ e, P e = true) (trace s).
Proof.
  intros HP Hrun. apply process_inv in Hrun as (evs & -> & Hevs).
  by rewrite filter_app, (processEvents_filter P evs), app_nil_r.
Qed.

Lemma Monitor_process_filter (P : Event → bool) t b s u s' :
  (∀ e, isProcessEvent e = true → P e = false) →
  P EvReloadCall = false → P EvReloadReturn = false →
  Monitor_process t b s = Some (u, s') →
  filter (λ e, P e = true) (trace s') = filter (λ e, P e = true) (trace s).
Proof.
  intros HP H1 H2 Hrun. apply Monitor_process_events in Hrun as (evs & Hevs & [->| ->]).
  - by rewrite filter_app, (processEvents_filter P evs), app_nil_r.
  - rewrite !filter_app, (processEvents_filter P evs) by done.
    rewrite filter_cons_False, filter_cons_False by (by rewrite ?H1, ?H2).
    by rewrite app_nil_r.
Qed.

Lemma spawn_not_process e : isProcessEvent e = true → isSpawnChild e = false.
Proof. by destruct e. Qed.
Lemma stop_not_process e : isProcessEvent e = true → isStopChild e = false.
Proof. by destruct e. Qed.
Lemma childCall_not_process e : isProcessEvent e = true → isChildCall e = false.
Proof. by destruct e. Qed.

Lemma Life_enter t s : Life (trace s) (Monitor_enter t s).
Proof. split; cbn; rewrite ?app_nil_r; try done; try (by intros [?|?]). Qed.

Ltac use_process :=
  repeat match goal with
  | H : (draw _ ≫= _) _ = Some _ |- _ =>
      rewrite bind_run in H; unfold draw in H;
      destruct (Int63n _ _); rewrite ?bind_run in H; unfold mret, M_ret in H;
      cbn in H; simplify_eq/=
  | H : process _ _ _ = Some _ |- _ =>
      pose proof (process_filter isSpawnChild _ _ _ _ _ spawn_not_process H);
      pose proof (process_filter isStopChild _ _ _ _ _ stop_not_process H);
      pose proof (process_filter isChildCall _ _ _ _ _ childCall_not_process H);
      clear H
  | H : Monitor_process _ _ _ = Some _ |- _ =>
      pose proof (Monitor_process_filter isSpawnChild _ _ _ _ _ spawn_not_process eq_refl eq_refl H);
      pose proof (Monitor_process_filter isStopChild _ _ _ _ _ stop_not_process eq_refl eq_refl H);
      clear H
  end.

Ltac life_simpl :=
  first
  [ progress (repeat match goal with
      | H : ?a = ?a → _ |- _ => specialize (H eq_refl)
      | H : ?a = ?a ∨ _ → _ |- _ => specialize (H (or_introl eq_refl))
      | H : _ ∨ ?a = ?a → _ |- _ => specialize (H (or_intror eq_refl))
      end)
  | progress (destruct_and?; destruct_or?; simplify_eq/=; rewrite ?app_nil_r in * )
  | match goal with
    | H : context [Failed ?r] |- _ => is_var r; destruct (Failed r)
    | |- context [Failed ?r] => is_var r; destruct (Failed r)
    | H : context [if ?b then _ else _] |- _ => is_var b; destruct b
    | |- context [if ?b then _ else _] => is_var b; destruct b
    | H : context [?b || _] |- _ => is_var b; destruct b
    | |- context [?b || _] => is_var b; destruct b
    | H : context [?b && _] |- _ => is_var b; destruct b
    | |- context [?b && _] => is_var b; destruct b
    | |- context [match ?p with AtRetrySelect => _ | _ => _ end] => is_var p; destruct p
    | H : context [match ?p with AtRetrySelect => _ | _ => _ end] |- _ => is_var p; destruct p
    end
  | match goal with
    | H : _ && _ = true |- _ => apply andb_true_iff in H as [? ?]
    | H : bool_decide _ = true |- _ => apply bool_decide_eq_true in H
    | H : negb ?b = true |- _ => destruct b
    end
  | congruence ].

Lemma Life_step tr0 x c c' : Life tr0 c → step x c = Some c' → Life tr0 c'.
Proof.
  intros HL Hstep.
  destruct c as [r st p cd rc rs sd wt wk].
  destruct x; step_cases Hstep;
    destruct HL as [Hsp Hst Hbe Hre Hsd Hwt Hrt Hfl]; unfold isReturned in *; cbn in *;
    use_process; cbn in *.
  all: split; unfold isReturned; cbn; rewrite ?filter_app; cbn.
  all: repeat case_decide; try done.
  all: intros;
    repeat match goal with
    | H : filter ?P (trace ?s) = filter ?P (trace ?st) |- _ => rewrite ?H in *; clear H
    end.
  all: repeat (life_simpl; try done).
Qed.

Lemma steps_Life tr0 xs : ∀ c c', Life tr0 c → steps xs c = Some c' → Life tr0 c'.
Proof.
  induction xs as [|x xs IH]; intros c c' HL Hrun; [by injection Hrun as <-|].
  cbn [steps] in Hrun. destruct (step x c) as [c1|] eqn:Hx; [|done].
  eapply IH; [|done]. by eapply Life_step.
Qed.

Lemma steps_trace xs c c' :
  steps xs c = Some c' → ∃ evs, trace (state c') = trace (state c) ++ evs.
Proof. intros Hrun. apply steps_events in Hrun as (evs & _ & ? & _). by exists evs. Qed.

(** X17: over a run of [Monitor], [SpawnChild] is called at most
    once; it has been called exactly when [StopChild] is deferred or the
    resource has failed, not while the retry loop runs, and always when
    [Monitor] is in its main loop or waits for its goroutines. *)
Theorem SpawnChild_once t s xs c :
  steps xs (Monitor_enter t s) = Some c →
  ∃ evs, trace (state c) = trace s ++ evs
    ∧ filter (λ e, isSpawnChild e = true) evs
      = (if stopDeferred c || Failed (res c) then [EvSpawnChild] else [])
    ∧ (pc c = AtRetrySelect → stopDeferred c || Failed (res c) = false)
    ∧ (pc c = AtMainSelect ∨ pc c = AtWait → stopDeferred c || Failed (res c) = true).
Proof.
  intros Hrun. destruct (steps_trace _ _ _ Hrun) as [evs Hevs]. exists evs.
  pose proof (steps_Life _ _ _ _ (Life_enter t s) Hrun) as [Hsp _ _ Hre Hsd _ _ _].
  split; [done|]. rewrite Hevs, filter_app in Hsp. apply app_inv_head in Hsp.
  split; [done|]. split; [|done].
  intros Hp. destruct (Hre Hp) as (-> & -> & _). done.
Qed.

(** X18: over a run of [Monitor], [StopChild] is called once if
    [Monitor] has returned and the call was deferred, that is if
    [SpawnChild] had succeeded, and not at all otherwise; a deferred
    [StopChild] follows a call of [SpawnChild]. *)
Theorem StopChild_at_return t s xs c :
  steps xs (Monitor_enter t s) = Some c →
  ∃ evs, trace (state c) = trace s ++ evs
    ∧ filter (λ e, isStopChild e = true) evs
      = (if stopDeferred c && isReturned c then [EvStopChild] else [])
    ∧ (stopDeferred c = true → EvSpawnChild ∈ evs).
Proof.
  intros Hrun. destruct (steps_trace _ _ _ Hrun) as [evs Hevs]. exists evs.
  pose proof (steps_Life _ _ _ _ (Life_enter t s) Hrun) as [Hsp Hst _ _ _ _ _ _].
  split; [done|]. rewrite Hevs, filter_app in Hst, Hsp.
  apply app_inv_head in Hst, Hsp. split; [done|].
  intros Hsd. rewrite Hsd in Hsp. cbn in Hsp.
  assert (Hin : EvSpawnChild ∈ filter (λ e, isSpawnChild e = true) evs).
  { rewrite Hsp. by left. }
  by apply list_elem_of_filter in Hin as [_ ?].
Qed.

(** X19: as long as [SpawnChild] has not been called in a run of
    [Monitor], neither [Reload] nor [SignalChild] nor [StopChild] has
    been called. *)
Theorem no_child_call_before_spawn t s xs c :
  steps xs (Monitor_enter t s) = Some c →
  ∃ evs, trace (state c) = trace s ++ evs
    ∧ (EvSpawnChild ∉ evs → Forall (λ e, isChildCall e = false) evs).
Proof.
  intros Hrun. destruct (steps_trace _ _ _ Hrun) as [evs Hevs]. exists evs.
  pose proof (steps_Life _ _ _ _ (Life_enter t s) Hrun) as [Hsp _ Hbe _ _ _ _ _].
  split; [done|]. intros Hnot. rewrite Hevs, filter_app in Hsp. apply app_inv_head in Hsp.
  destruct (stopDeferred c || Failed (res c)).
  { exfalso. apply Hnot.
    assert (Hin : EvSpawnChild ∈ filter (λ e, isSpawnChild e = true) evs).
    { rewrite Hsp. by left. }
    by apply list_elem_of_filter in Hin as [_ ?]. }
  specialize (Hbe eq_refl). rewrite Hevs, filter_app in Hbe.
  assert (Hnil : filter (λ e, isChildCall e = true) evs = []).
  { eapply app_inv_head. rewrite app_nil_r. exact Hbe. }
  apply Forall_forall. intros e He. destruct (isChildCall e) eqn:Hc; [|done].
  assert (Hin : e ∈ filter (λ e, isChildCall e = true) evs) by by apply list_elem_of_filter.
  rewrite Hnil in Hin. by apply elem_of_nil in Hin.
Qed.

Lemma Failed_step tr0 x c c' :
  Life tr0 c → step x c = Some c' → Failed (res c') = true →
  x = ChildWait true ∨ stopDeferred c' = false
  ∨ (Failed (res c) = true ∧ stopDeferred c' = stopDeferred c).
Proof.
  intros HL Hstep.
  destruct c as [r st p cd rc rs sd wt wk].
  destruct x; step_cases Hstep;
    destruct HL as [_ _ _ Hre _ _ _ _]; cbn in *; intros HF; auto.
  all: destruct (Hre eq_refl) as (? & ? & _); auto; congruence.
Qed.

(** X20: [Monitor] unsets [Failed] when it starts, and when
    [Failed] is set afterwards the context is cancelled and either
    [exec.Wait] has reported a failure or no [StopChild] is deferred,
    which is the case where [SpawnChild] failed. *)
Theorem Failed_cause t s xs c :
  steps xs (Monitor_enter t s) = Some c →
  Failed (res c) = true →
  ctxDone c = true ∧ (ChildWait true ∈ xs ∨ stopDeferred c = false).
Proof.
  intros Hrun HF. split.
  { pose proof (steps_Life _ _ _ _ (Life_enter t s) Hrun) as HL. by apply (life_failed _ _ HL). }
  revert c Hrun HF. induction xs as [|x xs IH] using rev_ind; intros c Hrun HF.
  { injection Hrun as <-. done. }
  rewrite steps_app in Hrun.
  destruct (steps xs (Monitor_enter t s)) as [c1|] eqn:Hxs; [|done].
  cbn in Hrun. destruct (step x c1) as [c2|] eqn:Hx; [|done]. injection Hrun as ->.
  pose proof (steps_Life _ _ _ _ (Life_enter t s) Hxs) as HL.
  destruct (Failed_step _ _ _ _ HL Hx HF) as [->|[?|[HF1 Hsd]]].
  - left. apply elem_of_app. right. by left.
  - by right.
  - destruct (IH c1 eq_refl HF1) as [?|?].
    + left. apply elem_of_app. by left.
    + right. congruence.
Qed.

Lemma quiet_step x c c' :
  pc c = AtWait ∨ pc c = Returned → step x c = Some c' →
  (pc c' = AtWait ∨ pc c' = Returned)
  ∧ (pc c = Returned → pc c' = Returned)
  ∧ stopDeferred c' = stopDeferred c
  ∧ heap (state c') = heap (state c)
  ∧ (trace (state c') = trace (state c)
     ∨ pc c = AtWait ∧ pc c' = Returned ∧ stopDeferred c = true
       ∧ trace (state c') = trace (state c) ++ [EvStopChild]).
Proof.
  intros Hp Hstep.
  destruct c as [r st p cd rc rs sd wt wk]. cbn in Hp.
  destruct x; destruct Hp as [-> | ->]; step_cases Hstep; use_process; cbn; auto 10.
Qed.

(** X21: once [Monitor] has left its main loop through
    [<-ctx.Done()], or has returned, it stays there, no store changes any
    more, and the only call that can still be made is the deferred
    [StopChild], at the return from [wg.Wait()]. *)
Theorem shutdown_is_quiet ys : ∀ (c c' : @Config W),
  pc c = AtWait ∨ pc c = Returned →
  steps ys c = Some c' →
  (pc c' = AtWait ∨ pc c' = Returned)
  ∧ (pc c = Returned → pc c' = Returned)
  ∧ stopDeferred c' = stopDeferred c
  ∧ heap (state c') = heap (state c)
  ∧ (trace (state c') = trace (state c)
     ∨ pc c = AtWait ∧ pc c' = Returned ∧ stopDeferred c = true
       ∧ trace (state c') = trace (state c) ++ [EvStopChild]).
Proof.
  induction ys as [|y ys IH]; intros c c' Hp Hrun.
  { injection Hrun as <-. auto 10. }
  cbn [steps] in Hrun. destruct (step y c) as [c1|] eqn:Hy; [|done].
  destruct (quiet_step _ _ _ Hp Hy) as (Hp1 & Hr1 & Hs1 & Hh1 & Ht1).
  destruct (IH c1 c' Hp1 Hrun) as (Hp' & Hr' & Hs' & Hh' & Ht').
  split; [done|]. split; [auto|]. split; [congruence|]. split; [congruence|].
  destruct Ht1 as [Ht1|(? & Hc1 & ? & Ht1)], Ht' as [Ht'|(Hw & ? & ? & Ht')].
  - left. congruence.
  - right. split_and!; [|done|congruence|congruence].
    destruct Hp as [?|Hp]; [done|]. specialize (Hr1 Hp). congruence.
  - right. split_and!; [done|auto|done|congruence].
  - congruence.
Qed.

(** X22: in a run of [Monitor] on a constructed resource at
    most one retry goroutine lives, and it can always move on: it draws a
    delay below 30 seconds, after its sleep it returns if the context is
    cancelled and goes to send otherwise, and when it sends [retryChan] is
    empty, so that the send does not block. *)
Theorem retry_goroutine_never_blocks t s xs c i g :
  wf t s →
  steps xs (Monitor_enter t s) = Some c →
  retries c !! i = Some g →
  retries c = [g]
  ∧ ∃ c', step (Retry i) c = Some c'
      ∧ match g with
        | RetryStarted => ∃ rn, retries c' = [RetrySleeping rn] ∧ (0 ≤ rn < 30)%Z
        | RetrySleeping _ => retries c' = if ctxDone c then [] else [RetrySending]
        | RetrySending => retries c' = [] ∧ retryChan c = 0%nat ∧ retryChan c' = 1%nat
        end.
Proof.
  intros Hwf Hrun Hg.
  pose proof (steps_Inv t xs _ _ (Inv_enter t s Hwf) Hrun) as [_ _ Hle _ _ _].
  assert (Hlen : length (retries c) = 1%nat ∧ retryChan c = 0%nat ∧ i = 0%nat).
  { apply lookup_lt_Some in Hg. lia. }
  destruct Hlen as (Hlen & Hrc & ->).
  destruct (retries c) as [|g' [|? ?]] eqn:Hrs; try done.
  injection Hg as ->. split; [done|].
  unfold step, stepRetry. rewrite Hrs. cbn [lookup list_lookup].
  destruct g as [|rn|].
  - unfold run. rewrite retryDraw_run. eexists. split; [done|]. cbn.
    rewrite Hrs. eexists. split; [done|]. by apply Int63n_bound.
  - destruct (ctxDone c); eexists; (split; [done|]); cbn; rewrite ?Hrs; done.
  - rewrite Hrc. eexists. split; [done|]. cbn. rewrite ?Hrs. done.
Qed.

Lemma retries_finish c :
  (retryChan c + length (retries c) ≤ 1)%nat → ctxDone c = true →
  ∃ ys c1, steps ys c = Some c1 ∧ Forall isRetryStep ys ∧ retries c1 = []
    ∧ pc c1 = pc c ∧ ctxDone c1 = true ∧ stopDeferred c1 = stopDeferred c
    ∧ waiting c1 = waiting c ∧ workers c1 = workers c
    ∧ heap (state c1) = heap (state c) ∧ trace (state c1) = trace (state c).
Proof.
  destruct c as [r st p cd rc rs sd wt wk]. cbn. intros Hle ->.
  destruct rs as [|g [|g' rs]]; cbn in Hle; [| |lia].
  { exists [], {| res := r; state := st; pc := p; ctxDone := true; retryChan := rc;
                  retries := []; stopDeferred := sd; waiting := wt; workers := wk |}.
    by split_and!. }
  assert (rc = 0%nat) as -> by lia.
  destruct g as [|rn|].
  - exists [Retry 0; Retry 0]. eexists. split.
    { cbn [steps step stepRetry retries lookup list_lookup]. unfold run. cbn [state].
      rewrite retryDraw_run. cbn. reflexivity. }
    split_and!; try done. repeat constructor; by eexists.
  - exists [Retry 0]. eexists. split; [reflexivity|].
    split_and!; try done. repeat constructor; by eexists.
  - exists [Retry 0]. eexists. split; [reflexivity|].
    split_and!; try done. repeat constructor; by eexists.
Qed.

Lemma goroutines_return c :
  ∃ ys c1, steps ys c = Some c1
    ∧ Forall (λ y, y = ChildWait false ∨ y = WorkerReturns) ys
    ∧ waiting c1 = false ∧ workers c1 = 0%nat
    ∧ pc c1 = pc c ∧ ctxDone c1 = ctxDone c ∧ stopDeferred c1 = stopDeferred c
    ∧ retries c1 = retries c ∧ state c1 = state c.
Proof.
  destruct (waiting c) eqn:Hw.
  - exists (ChildWait false :: replicate (workers c) WorkerReturns). eexists. split.
    { cbn [steps step]. rewrite Hw. by apply workers_return. }
    split_and!; try done.
    constructor; [by left|]. apply Forall_replicate. by right.
  - exists (replicate (workers c) WorkerReturns). eexists. split.
    { by apply workers_return. }
    split_and!; try done. apply Forall_replicate. by right.
Qed.

Lemma wait_returns c :
  pc c = AtWait → waiting c = false → workers c = 0%nat →
  ∃ c1, step WaitReturns c = Some c1 ∧ pc c1 = Returned
    ∧ retries c1 = retries c ∧ waiting c1 = false ∧ workers c1 = 0%nat
    ∧ heap (state c1) = heap (state c).
Proof.
  destruct c as [r st p cd rc rs sd wt wk]. cbn. intros -> -> ->.
  destruct sd; eexists; (split; [reflexivity|]); done.
Qed.

(** X23: from every configuration a run of [Monitor] on a
    constructed resource reaches, the cancellation of the context can be
    followed by moves after which [Monitor] has returned and no goroutine
    it started is left; on the way the stores do not change and [Monitor]
    leaves its selects through [<-ctx.Done()] only. *)
Theorem cancel_leads_to_return t s xs c :
  wf t s →
  steps xs (Monitor_enter t s) = Some c →
  ∃ ys c', steps (Cancel :: ys) c = Some c'
    ∧ pc c' = Returned
    ∧ retries c' = [] ∧ waiting c' = false ∧ workers c' = 0%nat
    ∧ heap (state c') = heap (state c)
    ∧ (∀ sel, Main sel ∈ ys → sel = CaseCtxDone).
Proof.
  intros Hwf Hrun.
  pose proof (steps_Inv t xs _ _ (Inv_enter t s Hwf) Hrun) as [_ _ Hle _ _ HA].
  pose proof (steps_Life _ _ _ _ (Life_enter t s) Hrun) as HL.
  destruct (retries_finish (cancel c)) as
    (ys1 & c1 & Hr1 & Hys1 & Hrs1 & Hpc1 & Hcd1 & Hsd1 & Hwt1 & Hwk1 & Hh1 & _);
    [done|done|]. cbn in Hpc1, Hsd1, Hwt1, Hwk1, Hh1.
  assert (Hno1 : ∀ sel, Main sel ∈ ys1 → False).
  { intros sel Hin. apply (proj1 (Forall_forall _ _) Hys1) in Hin as [? [=]]. }
  destruct (pc c) eqn:Hpc.
  - destruct (HA eq_refl) as (Hsd & Hwt & Hwk).
    exists (ys1 ++ [Main CaseCtxDone]). eexists. split.
    { cbn [steps step]. rewrite steps_app, Hr1. cbn [mbind option_bind steps step].
      unfold stepMain. rewrite Hpc1, Hcd1. unfold Monitor_return. rewrite Hsd1, Hsd.
      reflexivity. }
    cbn. split_and!; try done; try congruence.
    intros sel [Hin|Hin]%elem_of_app; [by destruct (Hno1 sel)|].
    apply list_elem_of_singleton in Hin. by injection Hin as ->.
  - destruct (goroutines_return c1) as
      (ys2 & c2 & Hr2 & Hys2 & Hwt2 & Hwk2 & Hpc2 & Hcd2 & Hsd2 & Hrs2 & Hst2).
    assert (Hsel : step (Main CaseCtxDone) c2 = Some (withPc AtWait c2)).
    { cbn [step]. unfold stepMain. by rewrite Hpc2, Hpc1, Hcd2, Hcd1. }
    destruct (wait_returns (withPc AtWait c2)) as (c3 & Hr3 & Hpc3 & Hrs3 & Hwt3 & Hwk3 & Hh3);
      [done..|].
    exists (ys1 ++ ys2 ++ [Main CaseCtxDone; WaitReturns]), c3. split.
    { cbn [steps step]. rewrite steps_app, Hr1. cbn [mbind option_bind].
      rewrite steps_app, Hr2. cbn [mbind option_bind steps]. by rewrite Hsel, Hr3. }
    cbn in Hrs3, Hh3. split_and!; try done; try congruence.
    intros sel [Hin|[Hin|Hin]%elem_of_app]%elem_of_app.
    + by destruct (Hno1 sel).
    + apply (proj1 (Forall_forall _ _) Hys2) in Hin as [[=]|[=]].
    + apply elem_of_cons in Hin as [[= ->]|Hin]; [done|].
      by apply list_elem_of_singleton in Hin.
  - destruct (goroutines_return c1) as
      (ys2 & c2 & Hr2 & Hys2 & Hwt2 & Hwk2 & Hpc2 & Hcd2 & Hsd2 & Hrs2 & Hst2).
    destruct (wait_returns c2) as (c3 & Hr3 & Hpc3 & Hrs3 & Hwt3 & Hwk3 & Hh3);
      [congruence|done..|].
    exists (ys1 ++ ys2 ++ [WaitReturns]), c3. split.
    { cbn [steps step]. rewrite steps_app, Hr1. cbn [mbind option_bind].
      rewrite steps_app, Hr2. cbn [mbind option_bind steps]. by rewrite Hr3. }
    split_and!; try done; try congruence.
    intros sel [Hin|[Hin|Hin]%elem_of_app]%elem_of_app.
    + by destruct (Hno1 sel).
    + apply (proj1 (Forall_forall _ _) Hys2) in Hin as [[=]|[=]].
    + by apply list_elem_of_singleton in Hin.
  - destruct (life_returned _ _ HL Hpc) as [Hwt Hwk].
    exists ys1, c1. split.
    { cbn [steps step]. exact Hr1. }
    split_and!; try done; try congruence.
    intros sel Hin. by destruct (Hno1 sel).
Qed.

Lemma Monitor_process_keeps t b s :
  wf t s → b ∈ backends t →
  ∃ u s', Monitor_process t b s = Some (u, s')
    ∧ (consistent t s → consistent t s').
Proof.
  intros Hwf Hb.
  assert (Hsub : [b] ⊆ backends t).
  { intros b' Hb'. apply list_elem_of_singleton in Hb'. by subst. }
  destruct (process_keeps t [b] s Hwf Hsub) as ([ch err] & s1 & Hrun & _ & _ & Hc & _).
  destruct (Monitor_process_run t b s ch err s1 Hrun) as (s2 & Hrun2 & Hh & _).
  exists tt, s2. split; [done|]. intros Hcs. unfold consistent. rewrite Hh. by apply Hc.
Qed.

Lemma consistent_step t0 x c c' :
  Inv t0 c → consistent (res c) (state c) → step x c = Some c' →
  consistent (res c') (state c').
Proof.
  intros [Hwf _ _ _ _ _] Hc Hstep.
  destruct c as [r st p cd rc rs sd wt wk]. cbn in Hwf, Hc.
  assert (Hall : ∀ x s1, process r (backends r) st = Some (x, s1) → consistent r s1).
  { intros x0 s1 Hrun.
    destruct (process_keeps r (backends r) st Hwf) as (r1 & s2 & Hrun1 & _ & _ & Hc1 & _);
      [done|].
    rewrite Hrun in Hrun1. injection Hrun1 as <- <-. auto. }
  assert (Hone : ∀ b u s1, b ∈ backends r → Monitor_process r b st = Some (u, s1) →
                           consistent r s1).
  { intros b u s1 Hb Hrun.
    destruct (Monitor_process_keeps r b st Hwf Hb) as (u1 & s2 & Hrun1 & Hc1).
    rewrite Hrun in Hrun1. injection Hrun1 as <- <-. auto. }
  destruct x; step_cases Hstep; unfold consistent in *; cbn in *; try done.
  all: try (match goal with
            | H : process _ _ _ = Some _ |- _ => by apply Hall in H
            end).
  all: try (match goal with
            | H : Monitor_process _ _ _ = Some _, H' : _ && _ = true |- _ =>
                apply andb_true_iff in H' as [_ H']; apply bool_decide_eq_true in H';
                by apply (Hone _ _ _ H') in H
            end).
  all: try (match goal with
       | H : (draw _ ≫= _) _ = Some _ |- _ =>
           rewrite bind_run in H; unfold draw in H;
           destruct (Int63n _ _); rewrite ?bind_run in H; unfold mret, M_ret in H;
           cbn in H; simplify_eq/=
       end; done).
  all: try (by eapply Hall).
  all: match goal with
       | H' : _ && _ = true |- _ =>
           apply andb_true_iff in H' as [_ H']; apply bool_decide_eq_true in H';
           by eapply (Hone _ _ _ H')
       end.
Qed.

(** X24: from the construction of the resource on, and at every
    point a run of [Monitor] reaches, the merged store holds the merge of
    the stores of the backends. *)
Theorem merged_store_consistent bs tmpl name s t err s1 xs c :
  NewResource bs tmpl name s = Some ((Some t, err), s1) →
  steps xs (Monitor_enter t s1) = Some c →
  consistent (res c) (state c).
Proof.
  intros Hnew Hrun.
  pose proof (NewResource_consistent _ _ _ _ _ _ _ Hnew) as Hc.
  apply NewResource_ok in Hnew as (_ & _ & _ & _ & _ & _ & _ & Hwf).
  pose proof (Inv_enter t s1 Hwf) as HI.
  assert (Hc0 : consistent (res (Monitor_enter t s1)) (state (Monitor_enter t s1))) by done.
  revert Hrun HI Hc0. generalize (Monitor_enter t s1). clear Hc Hwf.
  induction xs as [|x xs IH]; intros c0 Hrun HI Hc0; [by injection Hrun as <-|].
  cbn [steps] in Hrun. destruct (step x c0) as [c1|] eqn:Hx; [|done].
  apply (IH c1 Hrun); [by eapply Inv_step|by eapply consistent_step].
Qed.

Lemma Monitor_process_frame t b s u s' l :
  wf t s → b ∈ backends t → Monitor_process t b s = Some (u, s') →
  rstore t ≠ Some l → Some l ∉ store <$> backends t →
  heap s' !! l = heap s !! l.
Proof.
  intros Hwf Hb Hrun Hl Hnot.
  assert (Hsub : [b] ⊆ backends t).
  { intros b' Hb'. apply list_elem_of_singleton in Hb'. by subst. }
  destruct (process_keeps t [b] s Hwf Hsub) as ([ch err] & s1 & Hrun1 & _ & _ & _ & Hf).
  destruct (Monitor_process_run t b s ch err s1 Hrun1) as (s2 & Hrun2 & Hh & _).
  assert (s' = s2) as -> by congruence. rewrite Hh. apply Hf; [done|].
  intros Hin. apply Hnot. apply list_elem_of_fmap in Hin as (b' & -> & Hb').
  apply list_elem_of_singleton in Hb' as ->. apply list_elem_of_fmap. by exists b.
Qed.

Lemma frame_step t0 x c c' l :
  Inv t0 c → step x c = Some c' →
  rstore (res c) ≠ Some l → Some l ∉ store <$> backends (res c) →
  heap (state c') !! l = heap (state c) !! l
  ∧ rstore (res c') = rstore (res c) ∧ backends (res c') = backends (res c).
Proof.
  intros [Hwf _ _ _ _ _] Hstep Hl Hnot.
  destruct c as [r st p cd rc rs sd wt wk]. cbn in Hwf, Hl, Hnot.
  assert (Hall : ∀ x s1, process r (backends r) st = Some (x, s1) →
                         heap s1 !! l = heap st !! l).
  { intros x0 s1 Hrun.
    destruct (process_keeps r (backends r) st Hwf) as (r1 & s2 & Hrun1 & _ & _ & _ & Hf);
      [done|].
    rewrite Hrun in Hrun1. injection Hrun1 as <- <-. auto. }
  assert (Hone : ∀ b u s1, b ∈ backends r → Monitor_process r b st = Some (u, s1) →
                           heap s1 !! l = heap st !! l).
  { intros b u s1 Hb Hrun. by eapply Monitor_process_frame. }
  destruct x; step_cases Hstep; cbn in *; try done.
  all: try (match goal with
       | H : (draw _ ≫= _) _ = Some _ |- _ =>
           rewrite bind_run in H; unfold draw in H;
           destruct (Int63n _ _); rewrite ?bind_run in H; unfold mret, M_ret in H;
           cbn in H; simplify_eq/=
       end; done).
  all: try (split; [|done]; by eapply Hall).
  all: match goal with
       | H' : _ && _ = true |- _ =>
           apply andb_true_iff in H' as [_ H']; apply bool_decide_eq_true in H';
           split; [|done]; by eapply (Hone _ _ _ H')
       end.
Qed.

(** X25: a run of [Monitor] on a constructed resource allocates no
    store and changes no store but the merged store and the stores of the
    backends of the resource. *)
Theorem Monitor_frame t s xs c l :
  wf t s →
  steps xs (Monitor_enter t s) = Some c →
  rstore t ≠ Some l → Some l ∉ store <$> backends t →
  heap (state c) !! l = heap s !! l
  ∧ dom (heap (state c)) = dom (heap s).
Proof.
  intros Hwf Hrun Hl Hnot.
  pose proof (Inv_enter t s Hwf) as HI.
  assert (Hgen : ∀ c0, Inv t c0 → rstore (res c0) = rstore t →
            steps xs c0 = Some c →
            heap (state c) !! l = heap (state c0) !! l).
  { clear Hrun HI. induction xs as [|x xs IH]; intros c0 HI Hr Hrun.
    { by injection Hrun as <-. }
    cbn [steps] in Hrun. destruct (step x c0) as [c1|] eqn:Hx; [|done].
    pose proof HI as [_ Hbs _ _ _ _].
    destruct (frame_step t x c0 c1 l HI Hx) as (Hh & Hr1 & _); [congruence..|].
    rewrite <-Hh. apply IH; [by eapply Inv_step|congruence|done]. }
  split; [by apply (Hgen _ HI)|].
  assert (Hdom : ∀ c0, steps xs c0 = Some c → Inv t c0 →
            dom (heap (state c)) = dom (heap (state c0))).
  { clear. induction xs as [|x xs IH]; intros c0 Hrun HI.
    { by injection Hrun as <-. }
    cbn [steps] in Hrun. destruct (step x c0) as [c1|] eqn:Hx; [|done].
    rewrite (IH c1 Hrun) by by eapply Inv_step.
    clear IH Hrun. destruct HI as [Hwf _ _ _ _ _].
    destruct c0 as [r st p cd rc rs sd wt wk]. cbn in Hwf.
    assert (Hall : ∀ x s1, process r (backends r) st = Some (x, s1) →
                           dom (heap s1) = dom (heap st)).
    { intros x0 s1 Hrun.
      destruct (process_keeps r (backends r) st Hwf) as (r1 & s2 & Hrun1 & _ & Hd & _);
        [done|].
      rewrite Hrun in Hrun1. by injection Hrun1 as <- <-. }
    assert (Hone : ∀ b u s1, b ∈ backends r → Monitor_process r b st = Some (u, s1) →
                             dom (heap s1) = dom (heap st)).
    { intros b u s1 Hb Hrun.
      assert (Hsub : [b] ⊆ backends r).
      { intros b' Hb'. apply list_elem_of_singleton in Hb'. by subst. }
      destruct (process_keeps r [b] st Hwf Hsub) as ([ch err] & s2 & Hrun1 & _ & Hd & _).
      destruct (Monitor_process_run r b st ch err s2 Hrun1) as (s3 & Hrun2 & Hh & _).
      assert (s1 = s3) as -> by congruence. by rewrite Hh. }
    destruct x; step_cases Hx; cbn in *; try done.
    all: try (match goal with
         | H : (draw _ ≫= _) _ = Some _ |- _ =>
             rewrite bind_run in H; unfold draw in H;
             destruct (Int63n _ _); rewrite ?bind_run in H; unfold mret, M_ret in H;
             cbn in H; simplify_eq/=
         end; done).
    all: try (by eapply Hall).
    all: match goal with
         | H' : _ && _ = true |- _ =>
             apply andb_true_iff in H' as [_ H']; apply bool_decide_eq_true in H';
             by eapply (Hone _ _ _ H')
         end. }
  by apply (Hdom _ Hrun).
Qed.

(** X26: in every configuration a run of [Monitor] on a
    constructed resource reaches, the retry case can be taken when a value
    is on [retryChan], a backend sent on [processChan] can be processed,
    and every move leaves the resource constructed: no move dereferences a
    nil store. *)
Theorem Monitor_never_panics t s xs c :
  wf t s →
  steps xs (Monitor_enter t s) = Some c →
  (pc c = AtRetrySelect → retryChan c ≠ 0%nat → is_Some (step (Main CaseRetry) c))
  ∧ (∀ b, pc c = AtMainSelect → canReceive b c = true →
          is_Some (step (Main (CaseProcess b)) c))
  ∧ (∀ x c', step x c = Some c' → wf (res c') (state c')).
Proof.
  intros Hwf Hrun.
  pose proof (steps_Inv t xs _ _ (Inv_enter t s Hwf) Hrun) as HI.
  pose proof HI as [Hwfc _ _ _ _ _].
  split_and!.
  - intros Hpc Hrc. cbn [step]. unfold stepMain. rewrite Hpc.
    destruct (retryChan c) as [|n]; [done|]. by apply Monitor_retry_total.
  - intros b Hpc Hb. cbn [step]. unfold stepMain. rewrite Hpc, Hb.
    unfold canReceive in Hb. apply andb_true_iff in Hb as [_ Hb].
    apply bool_decide_eq_true in Hb.
    destruct (Monitor_process_keeps (res c) b (state c) Hwfc Hb) as (u & s' & Hrun' & _).
    unfold run. rewrite Hrun'. by eexists.
  - intros x c' Hx. by destruct (Inv_step t x c c' HI Hx).
Qed.





End MonitorLife.

(** ** The properties at work on the scripted world *)

(** The resource of the scripted world is a constructed one. *)
Lemma Sim_wf w : wf Sim.t0 (Sim.s0 w).
Proof.
  split.
  - done.
  - by eexists.
  - apply Forall_cons; split; [split; [by eexists|done]|].
    apply Forall_cons; split; [split; [by eexists|done]|]. by apply Forall_nil.
  - cbn. apply NoDup_cons. split; [|apply NoDup_singleton].
    by intros ?%list_elem_of_singleton.
Qed.

Example NewResource_scripted :
  NewResource Sim.twoBackends [Sim.renderer "/t.tmpl" "/t.out"] "res" (Sim.init Sim.quiet)
  = Some ((Some Sim.t0, None), Sim.s0 Sim.quiet).
Proof. vm_compute. reflexivity. Qed.

(** [process_merges_all_backends] on the scripted world. *)
Lemma process_merges_all_backends_witness :
  wf Sim.t0 (Sim.s0 Sim.colliding)
  ∧ process Sim.t0 (backends Sim.t0) (Sim.s0 Sim.colliding) = Some ((false, None), Sim.s1)
  ∧ ∃ m, contents (heap Sim.s1) (rstore Sim.t0) = Some m
         ∧ collisionWarning (logger Sim.t0) "/k" ∈ log Sim.s1.
Proof.
  assert (Hwf : wf Sim.t0 (Sim.s0 Sim.colliding)) by apply Sim_wf.
  assert (Hrun : process Sim.t0 (backends Sim.t0) (Sim.s0 Sim.colliding)
                 = Some ((false, None), Sim.s1)) by (vm_compute; reflexivity).
  split; [exact Hwf|]. split; [exact Hrun|].
  destruct (process_merges_all_backends _ _ _ _ Hwf Hrun)
    as (m & added & Hm & _ & _ & Hlog & Hwarn).
  exists m. split; [exact Hm|]. rewrite Hlog. apply elem_of_app. right.
  apply (Hwarn "/k" 0%nat 1%nat {[ "/k" := "v1" ]} (<[ "/k" := "v2" ]> {[ "/j" := "w" ]}));
    [lia|vm_compute; reflexivity|vm_compute; reflexivity| |];
    by eexists.
Defined.

(** [process_one_backend_frame] on the scripted world. *)
Lemma process_one_backend_frame_witness :
  wf Sim.t0 (Sim.s0 Sim.colliding)
  ∧ backends Sim.t0 !! 1%nat = Some Sim.backendB
  ∧ ∃ r s', process Sim.t0 [Sim.backendB] (Sim.s0 Sim.colliding) = Some (r, s')
            ∧ storeAt (heap s') Sim.t0 0 = Some ∅.
Proof.
  assert (Hwf : wf Sim.t0 (Sim.s0 Sim.colliding)) by apply Sim_wf.
  split; [exact Hwf|]. split; [reflexivity|].
  destruct (process_one_backend_frame Sim.t0 (Sim.s0 Sim.colliding) 1 Sim.backendB Hwf eq_refl)
    as (r & s' & evs & Hrun & _ & _ & Hother & _).
  exists r, s'. split; [exact Hrun|]. rewrite Hother by lia. reflexivity.
Defined.

(** [process_setVars_failure] on the scripted world. *)
Lemma process_setVars_failure_witness :
  setVarsAll Sim.t0 [Sim.backendA] (Sim.s0 Sim.failingSecond) = Some (None, Sim.sA)
  ∧ setVars Sim.t0 Sim.backendB Sim.sA
    = Some (Some (withMessage (errorString "boom") "getValues failed"), Sim.sB)
  ∧ process Sim.t0 [Sim.backendA; Sim.backendB] (Sim.s0 Sim.failingSecond)
    = Some ((false,
             Some (backendError
                     {| berr.Message := "setVars failed: getValues failed: boom";
                        berr.Backend := "B" |})), Sim.sB).
Proof.
  assert (H1 : setVarsAll Sim.t0 [Sim.backendA] (Sim.s0 Sim.failingSecond)
               = Some (None, Sim.sA)) by (vm_compute; reflexivity).
  assert (H2 : setVars Sim.t0 Sim.backendB Sim.sA
               = Some (Some (withMessage (errorString "boom") "getValues failed"), Sim.sB))
    by (vm_compute; reflexivity).
  split; [exact H1|]. split; [exact H2|].
  exact (proj1 (process_setVars_failure Sim.t0 [Sim.backendA] Sim.backendB [] _ _ _ _ H1 H2)).
Defined.

(** [setVars_error_leaves_stores] on the scripted world. *)
Lemma setVars_error_leaves_stores_witness :
  GetValues (client Sim.backendA) (appendPrefix (Prefix Sim.backendA) (Keys Sim.backendA))
    (world (Sim.s0 Sim.failingFirst))
  = (inr (errorString "boom"), Sim.quiet)
  ∧ ∃ s', setVars Sim.t0 Sim.backendA (Sim.s0 Sim.failingFirst)
          = Some (Some (withMessage (errorString "boom") "getValues failed"), s')
          ∧ heap s' = heap (Sim.s0 Sim.failingFirst).
Proof.
  assert (H : GetValues (client Sim.backendA)
                (appendPrefix (Prefix Sim.backendA) (Keys Sim.backendA))
                (world (Sim.s0 Sim.failingFirst))
              = (inr (errorString "boom"), Sim.quiet)) by reflexivity.
  split; [exact H|].
  destruct (setVars_error_leaves_stores Sim.t0 Sim.backendA _ _ _ H) as (s' & Hrun & _ & Hh & _).
  by exists s'.
Defined.

(** [NewResource_interval_upgrade] on the scripted world. *)
Lemma NewResource_interval_upgrade_witness :
  NewResource Sim.twoBackends [Sim.renderer "/t.tmpl" "/t.out"] "res" (Sim.init Sim.quiet)
  = Some ((Some Sim.t0, None), Sim.s0 Sim.quiet)
  ∧ length (backends Sim.t0) = length Sim.twoBackends
  ∧ intervalWarning "res" ∈ log (Sim.s0 Sim.quiet).
Proof.
  assert (H : NewResource Sim.twoBackends [Sim.renderer "/t.tmpl" "/t.out"] "res"
                (Sim.init Sim.quiet)
              = Some ((Some Sim.t0, None), Sim.s0 Sim.quiet)) by (vm_compute; reflexivity).
  split; [exact H|].
  destruct (NewResource_interval_upgrade _ _ _ _ _ _ _ H) as (Hlen & _ & _ & Hwarn).
  split; [exact Hlen|].
  apply (Hwarn (Sim.backend 1 "A" "/a" 0 false)); [|done..]. apply list_elem_of_here.
Defined.

(** [failed_construction_closes_backends] on the scripted world. *)
Lemma failed_construction_closes_backends_witness :
  ConnectAll (ResourceConfig.Connectors Sim.emptySrc) (world (Sim.init Sim.quiet))
  = (inl Sim.twoBackends, Sim.quiet)
  ∧ NewResourceFromResourceConfig 0 Sim.emptySrc (Sim.init Sim.quiet)
    = Some ((None, Some ErrEmptySrc), Sim.sClosed)
  ∧ trace Sim.sClosed = [EvConnectAll; EvClose 1; EvClose 2].
Proof.
  assert (H1 : ConnectAll (ResourceConfig.Connectors Sim.emptySrc) (world (Sim.init Sim.quiet))
               = (inl Sim.twoBackends, Sim.quiet)) by reflexivity.
  assert (H2 : NewResourceFromResourceConfig 0 Sim.emptySrc (Sim.init Sim.quiet)
               = Some ((None, Some ErrEmptySrc), Sim.sClosed)) by (vm_compute; reflexivity).
  split; [exact H1|]. split; [exact H2|].
  destruct (failed_construction_closes_backends 0 Sim.emptySrc _ _ _ _ _ _ H1 H2)
    as (_ & _ & Htr & _).
  exact Htr.
Defined.

(** [reload_iff_changed] on the scripted world. *)
Lemma reload_iff_changed_witness :
  steps [Main CaseRetry] (Monitor_enter Sim.t0 (Sim.s0 Sim.changing)) = Some Sim.cSteady
  ∧ step (Main (CaseProcess Sim.backendB)) Sim.cSteady = Some Sim.cReloaded
  ∧ pc Sim.cReloaded = AtMainSelect
  ∧ ∃ evs, trace (state Sim.cReloaded) = trace (Sim.s0 Sim.changing) ++ evs
           ∧ filter (λ e, isReload e = true) evs = [EvReloadCall; EvReloadReturn].
Proof.
  assert (H1 : steps [Main CaseRetry] (Monitor_enter Sim.t0 (Sim.s0 Sim.changing))
               = Some Sim.cSteady) by (vm_compute; reflexivity).
  assert (H2 : step (Main (CaseProcess Sim.backendB)) Sim.cSteady = Some Sim.cReloaded)
    by (vm_compute; reflexivity).
  split; [exact H1|]. split; [exact H2|].
  destruct (reload_iff_changed Sim.t0 _ _ _ _ _ H1 H2)
    as (changed & err & s1 & pevs & _ & _ & _ & _ & _ & Hpc & evs & n & Htr & Hn).
  split; [exact Hpc|]. exists evs. split; [exact Htr|].
  cbn in Htr. rewrite <-Htr. reflexivity.
Defined.

(** [retry_with_all_backends] on the scripted world: the first value of
    the source is above [acceptedMax 30] and is passed over, the second
    one, 47, gives a delay of 17 seconds. *)
Lemma retry_with_all_backends_witness :
  wf Sim.t0 (Sim.s0 Sim.redrawing)
  ∧ steps [Main CaseRetry] (Monitor_enter Sim.t0 (Sim.s0 Sim.redrawing)) = Some Sim.cRedrawing
  ∧ backends (res Sim.cRedrawing) = backends Sim.t0
  ∧ retries Sim.cRedrawing = [RetryStarted]
  ∧ step (Retry 0) Sim.cRedrawing = Some Sim.cSleeping
  ∧ retries Sim.cSleeping = [RetrySleeping 17]
  ∧ (∃ k v,
       (∀ j, (j < k)%nat →
          (acceptedMax 30 < (nthDraw j (world (state Sim.cRedrawing))).1)%Z)
       ∧ v = (nthDraw k (world (state Sim.cRedrawing))).1
       ∧ retries Sim.cSleeping = [RetrySleeping (v `mod` 30)])
  ∧ ∃ ys c1, Forall isRetryStep ys ∧ steps ys Sim.cRedrawing = Some c1
             ∧ is_Some (step (Main CaseRetry) c1).
Proof.
  assert (Hwf : wf Sim.t0 (Sim.s0 Sim.redrawing)) by apply Sim_wf.
  assert (H : steps [Main CaseRetry] (Monitor_enter Sim.t0 (Sim.s0 Sim.redrawing))
              = Some Sim.cRedrawing) by (vm_compute; reflexivity).
  assert (H2 : step (Retry 0) Sim.cRedrawing = Some Sim.cSleeping)
    by (vm_compute; reflexivity).
  split; [exact Hwf|]. split; [exact H|].
  destruct (retry_with_all_backends Sim.t0 _ _ _ Hwf H)
    as (Hbs & _ & _ & Hmove & _ & _ & Hgo).
  split; [exact Hbs|]. split; [reflexivity|]. split; [exact H2|]. split; [reflexivity|].
  split.
  - destruct (Hmove 0%nat RetryStarted Sim.cSleeping eq_refl H2)
      as (_ & _ & _ & _ & _ & _ & k & v & Hrej & Hv & _ & _ & Hrs & _).
    exists k, v. split; [exact Hrej|]. split; [exact Hv|exact Hrs].
  - destruct (Hgo eq_refl eq_refl) as [_ Hys]. exact Hys.
Defined.

(** [cancel_during_retry_delay] on the scripted world. *)
Lemma cancel_during_retry_delay_witness :
  wf Sim.t0 (Sim.s0 Sim.failingFirst)
  ∧ steps [Main CaseRetry] (Monitor_enter Sim.t0 (Sim.s0 Sim.failingFirst)) = Some Sim.cWaiting
  ∧ pc Sim.cWaiting = AtRetrySelect
  ∧ retries Sim.cWaiting = [RetryStarted]
  ∧ steps [Cancel; Retry 0; Main CaseCtxDone] Sim.cWaiting = Some Sim.cCancelled
  ∧ trace (state Sim.cCancelled) = trace (state Sim.cWaiting)
  ∧ heap (state Sim.cCancelled) = heap (state Sim.cWaiting).
Proof.
  assert (Hwf : wf Sim.t0 (Sim.s0 Sim.failingFirst)) by apply Sim_wf.
  assert (H1 : steps [Main CaseRetry] (Monitor_enter Sim.t0 (Sim.s0 Sim.failingFirst))
               = Some Sim.cWaiting) by (vm_compute; reflexivity).
  assert (H2 : steps [Cancel; Retry 0; Main CaseCtxDone] Sim.cWaiting = Some Sim.cCancelled)
    by (vm_compute; reflexivity).
  split; [exact Hwf|]. split; [exact H1|]. split; [reflexivity|]. split; [reflexivity|].
  split; [exact H2|].
  destruct (cancel_during_retry_delay Sim.t0 _ _ _ RetryStarted _ _
              Hwf H1 eq_refl eq_refl (or_introl eq_refl) H2) as (_ & Htr & Hh & _).
  by split.
Defined.



(** The scripted resource stays a constructed one when its stores are
    filled. *)
Lemma Sim_wf_s1 : wf Sim.t0 Sim.s1.
Proof.
  eapply wf_dom; [|apply (Sim_wf Sim.colliding)]. vm_compute. reflexivity.
Qed.

(** [NewResource_fresh_stores] on the scripted world. *)
Lemma NewResource_fresh_stores_witness :
  NewResource Sim.twoBackends [Sim.renderer "/t.tmpl" "/t.out"] "res" (Sim.init Sim.quiet)
  = Some ((Some Sim.t0, None), Sim.s0 Sim.quiet)
  ∧ contents (heap (Sim.s0 Sim.quiet)) (rstore Sim.t0) = Some ∅
  ∧ NoDup (rstore Sim.t0 :: (store <$> backends Sim.t0)).
Proof.
  assert (H : NewResource Sim.twoBackends [Sim.renderer "/t.tmpl" "/t.out"] "res"
                (Sim.init Sim.quiet)
              = Some ((Some Sim.t0, None), Sim.s0 Sim.quiet)) by (vm_compute; reflexivity).
  split; [exact H|].
  destruct (NewResource_fresh_stores _ _ _ _ _ _ _ H) as (_ & Hr & _ & _ & _ & Hnd & _).
  by split.
Defined.

(** [Close_after_construction] on the scripted world. *)
Lemma Close_after_construction_witness :
  NewResourceFromResourceConfig 0 Sim.oneTemplate (Sim.init Sim.quiet)
  = Some ((Some Sim.tBuilt, None), Sim.sBuilt)
  ∧ ∃ s'', Resource_Close Sim.tBuilt Sim.sBuilt = Some (tt, s'')
           ∧ trace s'' = [EvConnectAll; EvClose 1; EvClose 2].
Proof.
  assert (H : NewResourceFromResourceConfig 0 Sim.oneTemplate (Sim.init Sim.quiet)
              = Some ((Some Sim.tBuilt, None), Sim.sBuilt)) by (vm_compute; reflexivity).
  split; [exact H|].
  destruct (Close_after_construction _ _ _ _ _ _ H)
    as (bl & w1 & s'' & Hc & Hrun & Htr & _).
  exists s''. split; [exact Hrun|]. rewrite Htr.
  injection Hc as <- _. reflexivity.
Defined.

(** [createStageFileAndSync_order] on the scripted world. *)
Lemma createStageFileAndSync_order_witness :
  createStageFileAndSync Sim.t2 (Sim.s0 Sim.halfSynced)
  = Some ((true, Some (withMessage (errorString "disk full") "sync files failed")), Sim.sHalf)
  ∧ heap Sim.sHalf = heap (Sim.s0 Sim.halfSynced)
  ∧ log Sim.sHalf = log (Sim.s0 Sim.halfSynced).
Proof.
  assert (H : createStageFileAndSync Sim.t2 (Sim.s0 Sim.halfSynced)
              = Some ((true, Some (withMessage (errorString "disk full") "sync files failed")),
                      Sim.sHalf)) by (vm_compute; reflexivity).
  split; [exact H|].
  destruct (createStageFileAndSync_order _ _ _ _ _ H) as (Hh & Hl & _). by split.
Defined.

(** [changed_survives_failure] on the scripted world. *)
Lemma changed_survives_failure_witness :
  sources Sim.t2 = [Sim.rendererA] ++ [Sim.rendererB]
  ∧ stageAndSync Sim.t2 false [Sim.rendererA] (Sim.s0 Sim.halfSynced)
    = Some ((true, None), Sim.sFirst)
  ∧ createStageFileAndSync Sim.t2 (Sim.s0 Sim.halfSynced)
    = Some ((true, Some (withMessage (errorString "disk full") "sync files failed")), Sim.sHalf)
  ∧ stageAndSync Sim.t2 true [Sim.rendererB] Sim.sFirst
    = Some ((true, Some (withMessage (errorString "disk full") "sync files failed")), Sim.sHalf).
Proof.
  assert (H1 : stageAndSync Sim.t2 false [Sim.rendererA] (Sim.s0 Sim.halfSynced)
               = Some ((true, None), Sim.sFirst)) by (vm_compute; reflexivity).
  assert (H2 : createStageFileAndSync Sim.t2 (Sim.s0 Sim.halfSynced)
               = Some ((true, Some (withMessage (errorString "disk full") "sync files failed")),
                       Sim.sHalf)) by (vm_compute; reflexivity).
  split; [reflexivity|]. split; [exact H1|]. split; [exact H2|].
  exact (proj2 (changed_survives_failure Sim.t2 [Sim.rendererA] [Sim.rendererB]
                  _ _ _ _ _ eq_refl H1 H2)).
Defined.

(** [process_order] on the scripted world. *)
Lemma process_order_witness :
  process Sim.t0 (backends Sim.t0) (Sim.s0 Sim.colliding) = Some ((false, None), Sim.s1)
  ∧ trace Sim.s1
    = [fetch Sim.backendA; fetch Sim.backendB;
       EvCreateStageFile "/t.tmpl"; EvSyncFiles "/t.tmpl"].
Proof.
  assert (H : process Sim.t0 (backends Sim.t0) (Sim.s0 Sim.colliding)
              = Some ((false, None), Sim.s1)) by (vm_compute; reflexivity).
  split; [exact H|]. exact (process_order _ _ _ _ _ _ H).
Defined.

(** [process_error_shape] on the scripted world. *)
Lemma process_error_shape_witness :
  process Sim.t0 [Sim.backendA; Sim.backendB] (Sim.s0 Sim.failingSecond)
  = Some ((false,
           Some (backendError
                   {| berr.Message := "setVars failed: getValues failed: boom";
                      berr.Backend := "B" |})), Sim.sB)
  ∧ ∃ pre b post s1 e w,
      [Sim.backendA; Sim.backendB] = pre ++ b :: post
      ∧ setVarsAll Sim.t0 pre (Sim.s0 Sim.failingSecond) = Some (None, s1)
      ∧ GetValues (client b) (appendPrefix (Prefix b) (Keys b)) (world s1) = (inr e, w)
      ∧ backendError {| berr.Message := "setVars failed: getValues failed: boom";
                        berr.Backend := "B" |}
        = backendError {| berr.Message := "setVars failed: getValues failed: " +:+ Error e;
                          berr.Backend := Name b |}.
Proof.
  assert (H : process Sim.t0 [Sim.backendA; Sim.backendB] (Sim.s0 Sim.failingSecond)
              = Some ((false,
                       Some (backendError
                               {| berr.Message := "setVars failed: getValues failed: boom";
                                  berr.Backend := "B" |})), Sim.sB))
    by (vm_compute; reflexivity).
  split; [exact H|].
  destruct (process_error_shape _ _ _ _ _ _ H)
    as [(pre & b & post & s1 & e & w & Hbs & Hpre & Hget & _ & _ & He)
       |(pre & r & post & s1 & c1 & s2 & m & e & msg & _ & _ & _ & _ & _ & [=] & _)].
  exists pre, b, post, s1, e, w. split; [exact Hbs|]. split; [exact Hpre|].
  split; [exact Hget|exact He].
Defined.

(** [process_safe] on the scripted world. *)
Lemma process_safe_witness :
  wf Sim.t0 (Sim.s0 Sim.colliding)
  ∧ [Sim.backendB] ⊆ backends Sim.t0
  ∧ ∃ r s', process Sim.t0 [Sim.backendB] (Sim.s0 Sim.colliding) = Some (r, s')
            ∧ heap s' !! 1%nat = Some ∅.
Proof.
  assert (Hwf : wf Sim.t0 (Sim.s0 Sim.colliding)) by apply Sim_wf.
  assert (Hsub : [Sim.backendB] ⊆ backends Sim.t0).
  { intros b Hb. apply list_elem_of_singleton in Hb as ->. apply list_elem_of_further, list_elem_of_here. }
  split; [exact Hwf|]. split; [exact Hsub|].
  destruct (process_safe _ _ _ Hwf Hsub) as (r & s' & Hrun & _ & _ & Hframe).
  exists r, s'. split; [exact Hrun|]. rewrite (Hframe 1%nat); [reflexivity|done|].
  intros Hin. apply list_elem_of_singleton in Hin. discriminate Hin.
Defined.

(** [process_consistent] on the scripted world. *)
Lemma process_consistent_witness :
  wf Sim.t0 (Sim.s0 Sim.colliding)
  ∧ backends Sim.t0 ⊆ backends Sim.t0
  ∧ consistent Sim.t0 (Sim.s0 Sim.colliding)
  ∧ process Sim.t0 (backends Sim.t0) (Sim.s0 Sim.colliding) = Some ((false, None), Sim.s1)
  ∧ consistent Sim.t0 Sim.s1.
Proof.
  assert (Hwf : wf Sim.t0 (Sim.s0 Sim.colliding)) by apply Sim_wf.
  assert (Hc : consistent Sim.t0 (Sim.s0 Sim.colliding)) by (vm_compute; reflexivity).
  assert (H : process Sim.t0 (backends Sim.t0) (Sim.s0 Sim.colliding)
              = Some ((false, None), Sim.s1)) by (vm_compute; reflexivity).
  split; [exact Hwf|]. split; [done|]. split; [exact Hc|]. split; [exact H|].
  exact (process_consistent _ _ _ _ _ Hwf (reflexivity _) Hc H).
Defined.

(** [setVars_store_lookup] on the scripted world: the store of the
    backend held [/j] and [/k]; the fetch yields two keys that both become
    [/k]. *)
Lemma setVars_store_lookup_witness :
  wf Sim.t0 Sim.sStale
  ∧ contents (heap Sim.sStale) (store Sim.backendB) ≫= (.!! "/j") = Some "w"
  ∧ GetValues (client Sim.backendB) (appendPrefix (Prefix Sim.backendB) (Keys Sim.backendB))
      (world Sim.sStale) = (inl [("/b/k", "v3"); ("/b//k", "v4")], Sim.quiet)
  ∧ ∃ s' m, setVars Sim.t0 Sim.backendB Sim.sStale = Some (None, s')
      ∧ contents (heap s') (store Sim.backendB) = Some m
      ∧ m !! "/k" = Some "v4" ∧ m !! "/j" = None.
Proof.
  assert (Hwf : wf Sim.t0 Sim.sStale).
  { eapply wf_dom; [|apply (Sim_wf Sim.colliding)]. vm_compute. reflexivity. }
  assert (Hget : GetValues (client Sim.backendB)
                   (appendPrefix (Prefix Sim.backendB) (Keys Sim.backendB))
                   (world Sim.sStale)
                 = (inl [("/b/k", "v3"); ("/b//k", "v4")], Sim.quiet)) by reflexivity.
  split; [exact Hwf|]. split; [vm_compute; reflexivity|]. split; [exact Hget|].
  destruct (setVars_store_lookup Sim.t0 Sim.sStale 1 Sim.backendB _ _ Hwf eq_refl Hget)
    as (s' & m & Hrun & Hm & Hiff).
  exists s', m. split; [exact Hrun|]. split; [exact Hm|]. split.
  - apply Hiff. exists 1%nat, "/b//k". split; [reflexivity|].
    split; [vm_compute; reflexivity|].
    intros [|[|j]] key' v' Hlt Hj; [lia|lia|discriminate Hj].
  - apply eq_None_not_Some. intros [v Hv].
    apply Hiff in Hv as (n & key & Hn & Hk & _).
    destruct n as [|[|n]]; [| |discriminate Hn].
    + injection Hn as <- <-. vm_compute in Hk. discriminate Hk.
    + injection Hn as <- <-. vm_compute in Hk. discriminate Hk.
Defined.

(** [refresh_drops_stale_key] on the scripted world: the key [/j] that
    only [backendB] held is gone when [backendB] has lost it. *)
Lemma refresh_drops_stale_key_witness :
  wf Sim.t0 Sim.s1
  ∧ contents (heap Sim.s1) (rstore Sim.t0) ≫= (.!! "/j") = Some "w"
  ∧ GetValues (client Sim.backendB) (appendPrefix (Prefix Sim.backendB) (Keys Sim.backendB))
      (world Sim.s1) = (inl [], world Sim.s1)
  ∧ ∃ s' m, setVars Sim.t0 Sim.backendB Sim.s1 = Some (None, s')
      ∧ contents (heap s') (rstore Sim.t0) = Some m ∧ m !! "/j" = None.
Proof.
  assert (Hwf : wf Sim.t0 Sim.s1) by apply Sim_wf_s1.
  assert (Hget : GetValues (client Sim.backendB)
                   (appendPrefix (Prefix Sim.backendB) (Keys Sim.backendB))
                   (world Sim.s1) = (inl [], world Sim.s1)) by reflexivity.
  split; [exact Hwf|]. split; [vm_compute; reflexivity|]. split; [exact Hget|].
  apply (refresh_drops_stale_key Sim.t0 Sim.s1 1 Sim.backendB [] _ "/j" Hwf eq_refl Hget).
  - intros key v Hin. by apply elem_of_nil in Hin.
  - intros [|[|j]] mj Hj Hst; [|done|discriminate Hst].
    vm_compute in Hst. injection Hst as <-. vm_compute. reflexivity.
Defined.

(** [storedKey_under_prefix] on a key of two elements. *)
Lemma storedKey_under_prefix_witness :
  Forall cleanElem ["x"; "y"] ∧ storedKey "/a" "/a/x/y" = "/x/y".
Proof.
  assert (H : Forall cleanElem ["x"; "y"]).
  { repeat constructor; done. }
  split; [exact H|]. exact (storedKey_under_prefix "/a" ["x"; "y"] H).
Defined.

(** [SpawnChild_once] on the scripted world. *)
Lemma SpawnChild_once_witness :
  steps [Main CaseRetry] (Monitor_enter Sim.t0 (Sim.s0 Sim.changing)) = Some Sim.cSteady
  ∧ filter (λ e, isSpawnChild e = true) (trace (state Sim.cSteady)) = [EvSpawnChild].
Proof.
  assert (H : steps [Main CaseRetry] (Monitor_enter Sim.t0 (Sim.s0 Sim.changing))
              = Some Sim.cSteady) by (vm_compute; reflexivity).
  split; [exact H|].
  destruct (SpawnChild_once _ _ _ _ H) as (evs & Htr & Hsp & _).
  rewrite Htr. exact Hsp.
Defined.

(** [StopChild_at_return] on the scripted world. *)
Lemma StopChild_at_return_witness :
  steps [Main CaseRetry; Cancel; Main CaseCtxDone; ChildWait false;
         WorkerReturns; WorkerReturns; WorkerReturns; WaitReturns]
    (Monitor_enter Sim.t0 (Sim.s0 Sim.changing)) = Some Sim.cReturned
  ∧ filter (λ e, isStopChild e = true) (trace (state Sim.cReturned)) = [EvStopChild].
Proof.
  assert (H : steps [Main CaseRetry; Cancel; Main CaseCtxDone; ChildWait false;
                     WorkerReturns; WorkerReturns; WorkerReturns; WaitReturns]
                (Monitor_enter Sim.t0 (Sim.s0 Sim.changing)) = Some Sim.cReturned)
    by (vm_compute; reflexivity).
  split; [exact H|].
  destruct (StopChild_at_return _ _ _ _ H) as (evs & Htr & Hst & _).
  rewrite Htr. exact Hst.
Defined.

(** [no_child_call_before_spawn] on the scripted world. *)
Lemma no_child_call_before_spawn_witness :
  steps [Main CaseRetry] (Monitor_enter Sim.t0 (Sim.s0 Sim.failingFirst)) = Some Sim.cWaiting
  ∧ Forall (λ e, isChildCall e = false) (trace (state Sim.cWaiting)).
Proof.
  assert (H : steps [Main CaseRetry] (Monitor_enter Sim.t0 (Sim.s0 Sim.failingFirst))
              = Some Sim.cWaiting) by (vm_compute; reflexivity).
  split; [exact H|].
  destruct (no_child_call_before_spawn _ _ _ _ H) as (evs & Htr & Hno).
  assert (Hevs : evs = trace (state Sim.cWaiting)) by (symmetry; exact Htr).
  rewrite <-Hevs. apply Hno. rewrite Hevs.
  intros Hin. apply list_elem_of_singleton in Hin. discriminate Hin.
Defined.

(** [Failed_cause] on the scripted world. *)
Lemma Failed_cause_witness :
  steps [Main CaseRetry] (Monitor_enter Sim.t0 (Sim.s0 Sim.noChild)) = Some Sim.cNoChild
  ∧ Failed (res Sim.cNoChild) = true
  ∧ ctxDone Sim.cNoChild = true.
Proof.
  assert (H : steps [Main CaseRetry] (Monitor_enter Sim.t0 (Sim.s0 Sim.noChild))
              = Some Sim.cNoChild) by (vm_compute; reflexivity).
  split; [exact H|]. split; [reflexivity|].
  exact (proj1 (Failed_cause _ _ _ _ H eq_refl)).
Defined.

(** [shutdown_is_quiet] on the scripted world. *)
Lemma shutdown_is_quiet_witness :
  (pc Sim.cAtWait = AtWait ∨ pc Sim.cAtWait = Returned)
  ∧ steps [ChildWait false; WorkerReturns; WorkerReturns; WorkerReturns; WaitReturns]
      Sim.cAtWait = Some Sim.cReturned
  ∧ heap (state Sim.cReturned) = heap (state Sim.cAtWait).
Proof.
  assert (Hp : pc Sim.cAtWait = AtWait ∨ pc Sim.cAtWait = Returned) by (left; reflexivity).
  assert (H : steps [ChildWait false; WorkerReturns; WorkerReturns; WorkerReturns; WaitReturns]
                Sim.cAtWait = Some Sim.cReturned) by (vm_compute; reflexivity).
  split; [exact Hp|]. split; [exact H|].
  destruct (shutdown_is_quiet _ _ _ Hp H) as (_ & _ & _ & Hh & _). exact Hh.
Defined.

(** [retry_goroutine_never_blocks] on the scripted world. *)
Lemma retry_goroutine_never_blocks_witness :
  wf Sim.t0 (Sim.s0 Sim.failingFirst)
  ∧ steps [Main CaseRetry] (Monitor_enter Sim.t0 (Sim.s0 Sim.failingFirst)) = Some Sim.cWaiting
  ∧ retries Sim.cWaiting !! 0%nat = Some RetryStarted
  ∧ ∃ c', step (Retry 0) Sim.cWaiting = Some c'.
Proof.
  assert (Hwf : wf Sim.t0 (Sim.s0 Sim.failingFirst)) by apply Sim_wf.
  assert (H : steps [Main CaseRetry] (Monitor_enter Sim.t0 (Sim.s0 Sim.failingFirst))
              = Some Sim.cWaiting) by (vm_compute; reflexivity).
  split; [exact Hwf|]. split; [exact H|]. split; [reflexivity|].
  destruct (retry_goroutine_never_blocks _ _ _ _ 0 RetryStarted Hwf H eq_refl)
    as (_ & c' & Hstep & _).
  exists c'. exact Hstep.
Defined.

(** [cancel_leads_to_return] on the scripted world. *)
Lemma cancel_leads_to_return_witness :
  wf Sim.t0 (Sim.s0 Sim.changing)
  ∧ steps [Main CaseRetry] (Monitor_enter Sim.t0 (Sim.s0 Sim.changing)) = Some Sim.cSteady
  ∧ ∃ ys c', steps (Cancel :: ys) Sim.cSteady = Some c' ∧ pc c' = Returned.
Proof.
  assert (Hwf : wf Sim.t0 (Sim.s0 Sim.changing)) by apply Sim_wf.
  assert (H : steps [Main CaseRetry] (Monitor_enter Sim.t0 (Sim.s0 Sim.changing))
              = Some Sim.cSteady) by (vm_compute; reflexivity).
  split; [exact Hwf|]. split; [exact H|].
  destruct (cancel_leads_to_return _ _ _ _ Hwf H) as (ys & c' & Hrun & Hpc & _).
  exists ys, c'. split; [exact Hrun|exact Hpc].
Defined.

(** [merged_store_consistent] on the scripted world. *)
Lemma merged_store_consistent_witness :
  NewResource Sim.twoBackends [Sim.renderer "/t.tmpl" "/t.out"] "res" (Sim.init Sim.quiet)
  = Some ((Some Sim.t0, None), Sim.s0 Sim.quiet)
  ∧ steps [Main CaseRetry] (Monitor_enter Sim.t0 (Sim.s0 Sim.quiet)) = Some Sim.cQuiet
  ∧ consistent (res Sim.cQuiet) (state Sim.cQuiet).
Proof.
  assert (H1 : NewResource Sim.twoBackends [Sim.renderer "/t.tmpl" "/t.out"] "res"
                 (Sim.init Sim.quiet)
               = Some ((Some Sim.t0, None), Sim.s0 Sim.quiet)) by (vm_compute; reflexivity).
  assert (H2 : steps [Main CaseRetry] (Monitor_enter Sim.t0 (Sim.s0 Sim.quiet))
               = Some Sim.cQuiet) by (vm_compute; reflexivity).
  split; [exact H1|]. split; [exact H2|].
  exact (merged_store_consistent _ _ _ _ _ _ _ _ _ H1 H2).
Defined.

(** [Monitor_frame] on the scripted world. *)
Lemma Monitor_frame_witness :
  wf Sim.t0 (Sim.s0 Sim.changing)
  ∧ steps [Main CaseRetry] (Monitor_enter Sim.t0 (Sim.s0 Sim.changing)) = Some Sim.cSteady
  ∧ rstore Sim.t0 ≠ Some 7%nat
  ∧ (Some 7%nat ∉ store <$> backends Sim.t0)
  ∧ heap (state Sim.cSteady) !! 7%nat = None.
Proof.
  assert (Hwf : wf Sim.t0 (Sim.s0 Sim.changing)) by apply Sim_wf.
  assert (H : steps [Main CaseRetry] (Monitor_enter Sim.t0 (Sim.s0 Sim.changing))
              = Some Sim.cSteady) by (vm_compute; reflexivity).
  assert (Hr : rstore Sim.t0 ≠ Some 7%nat) by discriminate.
  assert (Hb : (Some 7%nat) ∉ store <$> backends Sim.t0).
  { intros Hin. apply elem_of_cons in Hin as [Hin|Hin]; [discriminate Hin|].
    apply list_elem_of_singleton in Hin. discriminate Hin. }
  split; [exact Hwf|]. split; [exact H|]. split; [exact Hr|]. split; [exact Hb|].
  destruct (Monitor_frame _ _ _ _ 7%nat Hwf H Hr Hb) as [Hh _]. rewrite Hh. reflexivity.
Defined.

(** [Monitor_never_panics] on the scripted world. *)
Lemma Monitor_never_panics_witness :
  wf Sim.t0 (Sim.s0 Sim.changing)
  ∧ steps [Main CaseRetry] (Monitor_enter Sim.t0 (Sim.s0 Sim.changing)) = Some Sim.cSteady
  ∧ is_Some (step (Main (CaseProcess Sim.backendB)) Sim.cSteady).
Proof.
  assert (Hwf : wf Sim.t0 (Sim.s0 Sim.changing)) by apply Sim_wf.
  assert (H : steps [Main CaseRetry] (Monitor_enter Sim.t0 (Sim.s0 Sim.changing))
              = Some Sim.cSteady) by (vm_compute; reflexivity).
  split; [exact Hwf|]. split; [exact H|].
  destruct (Monitor_never_panics _ _ _ _ Hwf H) as (_ & Hp & _).
  apply Hp; [reflexivity|vm_compute; reflexivity].
Defined.
